(** * uMCTS: Monte Carlo Tree Search over an arena of tree nodes

    A shallow embedding of [arena.hpp], [mcts.hpp] and [tictactoe.hpp],
    and the properties of the search tree proved over it.

    - Tree nodes live in an [Arena]: a [std::forward_list] of
      [std::vector] blocks.  A C++ pointer into a block is modelled as
      the pair (buffer identity, offset); a vector that reallocates gets
      a new buffer identity, so a pointer into the old buffer dangles.
    - A node is read and written through its pointer ([load], [store]);
      the recursive playouts thread the arena and the random generator.
    - The [float] counters of a node only ever hold integers, so they are
      modelled as [Z] together with the binary32 rounding applied after
      each addition.  The remaining float arithmetic (the UCB value and
      its comparison) is a parameter, [FloatOps].
    - [uint] counters and move indices stay below [n_moves] and are
      [nat].
    - The recursive playouts take a [fuel] argument bounding the
      recursion depth; [assert] failures and null dereferences are the
      result [Abort]. *)

From Stdlib Require Import ZArith Lia Ascii.
From stdpp Require Import base tactics numbers option list.

(** ** Results of fallible computations *)

Inductive result (A : Type) : Type :=
| Ok (x : A)
| Abort
| OutOfFuel.
Arguments Ok {A} x.
Arguments Abort {A}.
Arguments OutOfFuel {A}.

Definition rbind {A B : Type} (m : result A) (k : A → result B) : result B :=
  match m with
  | Ok x => k x
  | Abort => Abort
  | OutOfFuel => OutOfFuel
  end.

Notation "'do' x <- m ; k" := (rbind m (fun x => k))
  (at level 10, x pattern, m at level 100, k at level 200).

(** [assert(b)] *)
Definition cassert (b : bool) : result unit := if b then Ok tt else Abort.

(** Dereference of a possibly null pointer or an out-of-range slot. *)
Definition deref {A : Type} (o : option A) : result A :=
  match o with Some x => Ok x | None => Abort end.

(** ** binary32 arithmetic on integer values

    [f32_round z] is the binary32 value nearest to the integer [z]
    (24-bit significand, ties to even).  The sum of two integer-valued
    floats is the rounding of the exact sum. *)

Definition f32_round (z : Z) : Z :=
  let m := Z.abs z in
  let e := (Z.log2 m - 23)%Z in
  if (e <=? 0)%Z then z
  else
    let q := Z.shiftr m e in
    let r := Z.land m (Z.ones e) in
    let half := Z.shiftl 1 (e - 1) in
    let q' := if (half <? r)%Z || ((r =? half)%Z && Z.odd q) then (q + 1)%Z else q in
    (Z.sgn z * Z.shiftl q' e)%Z.

Definition f32_add (x y : Z) : Z := f32_round (x + y).

Definition F32_EXACT : Z := 16777216.

(** ** arena.hpp *)

Definition ptr : Type := nat * nat.

Record vector (T : Type) : Type := Vector {
  vbuf : nat;        (* identity of the heap buffer; 0 for no buffer *)
  vcap : nat;        (* capacity() *)
  vdata : list T     (* the size() constructed elements *)
}.
Arguments Vector {T} vbuf vcap vdata.
Arguments vbuf {T} v.
Arguments vcap {T} v.
Arguments vdata {T} v.

Record Arena (T : Type) : Type := MkArena {
  blocks : list (vector T);   (* forward_list, front first *)
  next_buf : nat              (* next fresh buffer identity *)
}.
Arguments MkArena {T} blocks next_buf.
Arguments blocks {T} a.
Arguments next_buf {T} a.

Section ArenaOps.
Context {T : Type}.

Definition vector_new : vector T := Vector 0 0 [].

(** [v.reserve(n)]: moves the elements to a new buffer when the
    capacity has to grow. *)
Definition reserve (n : nat) (v : vector T) (fresh : nat) : vector T * nat :=
  if vcap v <? n then (Vector fresh n (vdata v), S fresh) else (v, fresh).

(** [v.emplace_back(x)]: in place while size < capacity, otherwise the
    elements are moved to a new, larger buffer. *)
Definition emplace_back (v : vector T) (x : T) (fresh : nat) : vector T * nat :=
  if length (vdata v) <? vcap v
  then (Vector (vbuf v) (vcap v) (vdata v ++ [x]), fresh)
  else (Vector fresh (Nat.max 1 (2 * vcap v)) (vdata v ++ [x]), S fresh).

Definition arena_new : Arena T := MkArena [] 1.

(** [blocks.empty() || blocks.front().size() == NBlock] *)
Definition front_full (NBlock : nat) (bs : list (vector T)) : bool :=
  match bs with
  | [] => true
  | v :: _ => length (vdata v) =? NBlock
  end.

Definition alloc (NBlock : nat) (a : Arena T) (x : T) : Arena T * ptr :=
  let a1 :=
    if front_full NBlock (blocks a) then
      let '(v, nb) := reserve NBlock vector_new (next_buf a) in
      MkArena (v :: blocks a) nb
    else a in
  match blocks a1 with
  | [] => (a1, (0, 0))
  | v :: rest =>
      let '(v', nb) := emplace_back v x (next_buf a1) in
      (MkArena (v' :: rest) nb, (vbuf v', length (vdata v') - 1))
  end.

Definition clear (a : Arena T) : Arena T := MkArena [] (next_buf a).

(** Reading and writing through a pointer. *)
Definition find_block (b : nat) (bs : list (vector T)) : option (vector T) :=
  List.find (fun v => vbuf v =? b) bs.

Definition load (a : Arena T) (p : ptr) : option T :=
  match find_block (fst p) (blocks a) with
  | Some v => vdata v !! snd p
  | None => None
  end.

Definition store_block (p : ptr) (x : T) (v : vector T) : vector T :=
  if vbuf v =? fst p then Vector (vbuf v) (vcap v) (<[snd p := x]> (vdata v)) else v.

Definition store (a : Arena T) (p : ptr) (x : T) : Arena T :=
  MkArena (store_block p x <$> blocks a) (next_buf a).

(** A run of [alloc] calls, returning the pointers in call order. *)
Fixpoint allocs (NBlock : nat) (a : Arena T) (xs : list T) : Arena T * list ptr :=
  match xs with
  | [] => (a, [])
  | x :: xs' =>
      let '(a1, p) := alloc NBlock a x in
      let '(a2, ps) := allocs NBlock a1 xs' in
      (a2, p :: ps)
  end.

(** Arenas that a program can build. *)
Inductive built (NBlock : nat) : Arena T → Prop :=
| built_new : built NBlock arena_new
| built_alloc a x : built NBlock a → built NBlock (alloc NBlock a x).1
| built_clear a : built NBlock a → built NBlock (clear a).

Definition block_ok (NBlock nb : nat) (v : vector T) : Prop :=
  vcap v = NBlock ∧ length (vdata v) ≤ NBlock ∧ 1 ≤ vbuf v < nb.

Definition wf (NBlock : nat) (a : Arena T) : Prop :=
  1 ≤ next_buf a ∧ Forall (block_ok NBlock (next_buf a)) (blocks a).
End ArenaOps.

(** ** mcts.hpp: the game interface *)

Definition WinState : Type := Z.
Definition WIN : WinState := 1%Z.
Definition TIE : WinState := 0%Z.
Definition LOSS : WinState := (-1)%Z.
Definition NONE : WinState := (-2)%Z.

(** The [Game] concept of the header. *)
Class Game (G : Type) : Type := {
  n_moves : nat;                 (* static constexpr n_moves() *)
  game_new : G;                  (* Game() *)
  player_turn : G → nat;
  winner : G → WinState;
  n_valid_moves : G → nat;
  is_valid : G → nat → bool;
  move : G → nat → G
}.

(** [std::uniform_int_distribution<uint> dist(lo, hi); dist(rng)]: the
    drawn value and the advanced generator. *)
Class RandomGen (R : Type) : Type := {
  uniform_int : nat → nat → R → nat * R
}.

(** The float expressions of [ucb_move] that are not counter updates:
    [ucb_value flip wins tries tot_tries] is
    [flip * wins / tries + sqrtf(2.0f * fastlog(tot_tries+1e-4f) / tries)],
    [neg_infinity] is [-std::numeric_limits<float>::infinity()] and
    [fgt] is [>] on floats. *)
Class FloatOps (F : Type) : Type := {
  ucb_value : Z → Z → Z → Z → F;
  neg_infinity : F;
  fgt : F → F → bool
}.

(** [Arena<Node>] uses the default block size. *)
Definition NBLOCK : nat := 4096.

Record Node (G : Type) : Type := MkNode {
  state : G;
  tot_tries : Z;                      (* float *)
  children : list (option ptr);      (* std::array<Node *, n_moves> *)
  tries : list Z;                     (* std::array<float, n_moves> *)
  wins : list Z                       (* std::array<float, n_moves> *)
}.
Arguments MkNode {G} state tot_tries children tries wins.
Arguments state {G} n.
Arguments tot_tries {G} n.
Arguments children {G} n.
Arguments tries {G} n.
Arguments wins {G} n.

Definition zget (l : list Z) (i : nat) : Z := default 0%Z (l !! i).

(** [count += p(i)] for [i] from 0 below [n]. *)
Fixpoint count_upto (p : nat → bool) (n : nat) : nat :=
  match n with
  | 0 => 0
  | S k => count_upto p k + (if p k then 1 else 0)
  end.

(** The scan shared by [random_move] and [random_unplayed_move]: the loop
    from index [i] with [todo] iterations left; falling off the end is
    [assert(false)]. *)
Fixpoint scan_kth (p : nat → bool) (imove count i todo : nat) : result nat :=
  match todo with
  | 0 => Abort
  | S t =>
      let count' := count + (if p i then 1 else 0) in
      if count' =? imove then Ok i else scan_kth p imove count' (S i) t
  end.

Section MCTS.
Context {G R F : Type} `{!Game G, !RandomGen R, !FloatOps F}.

Local Abbreviation MyArena := (Arena (Node G)).

(** [Node(Game &&state)] with the default member initialisers. *)
Definition new_node (s : G) : Node G :=
  MkNode s 0 (replicate n_moves None) (replicate n_moves 0%Z) (replicate n_moves 0%Z).

Definition is_leaf (nd : Node G) : bool := negb (winner (state nd) =? NONE)%Z.

(** [child(move)]: the stored pointer, [None] for [nullptr]. *)
Definition child (nd : Node G) (move : nat) : option ptr :=
  default None (children nd !! move).

Definition is_move_explored (nd : Node G) (move : nat) : bool :=
  bool_decide (is_Some (child nd move)).

(** [tries[i] == 0 && state.is_valid(i)] *)
Definition unplayed (nd : Node G) (i : nat) : bool :=
  (zget (tries nd) i =? 0)%Z && is_valid (state nd) i.

Definition n_unplayed_moves (nd : Node G) : nat := count_upto (unplayed nd) n_moves.

Definition random_move (g : R) (nd : Node G) : result (nat * R) :=
  let n := n_valid_moves (state nd) in
  let '(imove, g') := uniform_int 1 n g in
  do i <- scan_kth (is_valid (state nd)) imove 0 0 n_moves;
  Ok (i, g').

Definition random_unplayed_move (g : R) (nd : Node G) : result (nat * R) :=
  let n := n_unplayed_moves nd in
  do _ <- cassert (0 <? n);
  let '(imove, g') := uniform_int 1 n g in
  do i <- scan_kth (unplayed nd) imove 0 0 n_moves;
  Ok (i, g').

(** [children[i]->state.winner()] *)
Definition child_winner (a : MyArena) (nd : Node G) (i : nat) : result WinState :=
  do q <- deref (child nd i);
  do c <- deref (load a q);
  Ok (winner (state c)).

(** The loop of [ucb_move] from index [i] with [todo] iterations left.
    Besides the move it returns, in order, the indices whose UCB value
    was computed. *)
Fixpoint ucb_scan (a : MyArena) (nd : Node G) (player : nat) (flip : Z)
    (i todo : nat) (ucb_max : F) (i_max : option nat) (seen : list nat)
    : result (nat * list nat) :=
  match todo with
  | 0 => do m <- deref i_max; Ok (m, seen)
  | S t =>
      if negb (is_valid (state nd) i)
      then ucb_scan a nd player flip (S i) t ucb_max i_max seen
      else
        do win0 <- (if player =? 0
                    then do w <- child_winner a nd i; Ok (w =? WIN)%Z
                    else Ok false);
        if win0 then Ok (i, seen) else
        do win1 <- (if player =? 1
                    then do w <- child_winner a nd i; Ok (w =? LOSS)%Z
                    else Ok false);
        if win1 then Ok (i, seen) else
        let ucb_i := ucb_value flip (zget (wins nd) i) (zget (tries nd) i) (tot_tries nd) in
        if fgt ucb_i ucb_max
        then ucb_scan a nd player flip (S i) t ucb_i (Some i) (seen ++ [i])
        else ucb_scan a nd player flip (S i) t ucb_max i_max (seen ++ [i])
  end.

Definition ucb_move_traced (a : MyArena) (nd : Node G) : result (nat * list nat) :=
  do _ <- cassert (n_unplayed_moves nd =? 0);
  let player := player_turn (state nd) in
  let flip := if player =? 0 then 1%Z else (-1)%Z in
  ucb_scan a nd player flip 0 n_moves neg_infinity None [].

Definition ucb_move (a : MyArena) (nd : Node G) : result nat :=
  do r <- ucb_move_traced a nd; Ok r.1.

(** [_update(move, delta)]; the [WinState] argument is converted to
    [float] at the call. *)
Definition _update (move : nat) (winner : WinState) (nd : Node G) : result (Node G) :=
  let delta := f32_round winner in
  do _ <- cassert (negb (delta =? NONE)%Z);
  Ok (MkNode (state nd)
        (f32_add (tot_tries nd) 1)
        (children nd)
        (alter (λ t, f32_add t 1) move (tries nd))
        (alter (λ w, f32_add w delta) move (wins nd))).

Definition set_tot_tries (t : Z) (nd : Node G) : Node G :=
  MkNode (state nd) t (children nd) (tries nd) (wins nd).

Definition set_child (move : nat) (q : ptr) (nd : Node G) : Node G :=
  MkNode (state nd) (tot_tries nd) (<[move := Some q]> (children nd)) (tries nd) (wins nd).

(** [fuel] bounds the depth of the recursion below a non-leaf node; the
    members of [*this] are read again after the recursive call, as the
    compiled code does. *)
Fixpoint random_rollout (fuel : nat) (g : R) (a : MyArena) (this : ptr)
    : result (R * MyArena * WinState) :=
  do nd <- deref (load a this);
  let w := winner (state nd) in
  if negb (w =? NONE)%Z then Ok (g, store a this (set_tot_tries 1 nd), w)
  else
    match fuel with
    | 0 => OutOfFuel
    | S f =>
        do (mv, g1) <- random_unplayed_move g nd;
        let '(a1, node) := alloc NBLOCK a (new_node (move (state nd) mv)) in
        do (g2, a2, w) <- random_rollout f g1 a1 node;
        do nd2 <- deref (load a2 this);
        do _ <- cassert (bool_decide (child nd2 mv = None));
        do nd3 <- _update mv w (set_child mv node nd2);
        Ok (g2, store a2 this nd3, w)
    end.

Fixpoint ucb_rollout (fuel : nat) (g : R) (a : MyArena) (this : ptr)
    : result (R * MyArena * WinState) :=
  do nd <- deref (load a this);
  let w := winner (state nd) in
  if negb (w =? NONE)%Z then Ok (g, a, w)
  else if 0 <? n_unplayed_moves nd then random_rollout fuel g a this
  else
    match fuel with
    | 0 => OutOfFuel
    | S f =>
        do mv <- ucb_move a nd;
        do c <- deref (child nd mv);
        do (g1, a1, w) <- ucb_rollout f g a c;
        do nd1 <- deref (load a1 this);
        do nd2 <- _update mv w nd1;
        Ok (g1, store a1 this nd2, w)
    end.

(** [for (int i = 0; i < n_rollouts; ++i) tree->ucb_rollout(prng, arena);]
    for a budget within the range of [int]; the outcome of each rollout
    is dropped. *)
Fixpoint rollouts (fuel n : nat) (g : R) (a : MyArena) (tree : ptr)
    : result (R * MyArena) :=
  match n with
  | 0 => Ok (g, a)
  | S k =>
      do (g1, a1, _) <- ucb_rollout fuel g a tree;
      rollouts fuel k g1 a1 tree
  end.

(** The [while (true)] loop of [play_vs_random]; [fuel] bounds the
    number of moves played and the depth of every rollout. *)
Fixpoint play_loop (fuel n_rollouts : nat) (g : R) (a : MyArena) (tree : ptr)
    (state_history : list G) (move_history : list nat)
    : result (list G * list nat) :=
  do nd <- deref (load a tree);
  if negb (winner (state nd) =? NONE)%Z then Ok (state_history, move_history)
  else
    match fuel with
    | 0 => OutOfFuel
    | S f =>
        let player := player_turn (state nd) in
        do (g1, a1, mv) <-
          (if player =? 0 then
             do (g1, a1) <- rollouts fuel n_rollouts g a tree;
             do nd1 <- deref (load a1 tree);
             do mv <- ucb_move a1 nd1;
             Ok (g1, a1, mv)
           else if player =? 1 then
             do (mv, g1) <- random_move g nd;
             do _ <- cassert (is_move_explored nd mv);
             Ok (g1, a, mv)
           else Abort);
        do nd1 <- deref (load a1 tree);
        do tree' <- deref (child nd1 mv);
        do nd' <- deref (load a1 tree');
        play_loop f n_rollouts g1 a1 tree' (state_history ++ [state nd']) (move_history ++ [mv])
    end.

Definition play_vs_random (fuel : nat) (prng : R) (n_rollouts : nat)
    : result (list G * list nat) :=
  let '(arena, tree) := alloc NBLOCK arena_new (new_node game_new) in
  do nd <- deref (load arena tree);
  play_loop fuel n_rollouts prng arena tree [state nd] [].
End MCTS.

(** ** tictactoe.hpp *)

Module TTT.
Definition U32 : Z := 4294967296.

(** [bitcount] on [uint]. *)
Definition bitcount (v : Z) : Z :=
  let v := ((v - Z.land (Z.shiftr v 1) 0x55555555) mod U32)%Z in
  let v := ((Z.land v 0x33333333 + Z.land (Z.shiftr v 2) 0x33333333) mod U32)%Z in
  Z.shiftr ((Z.land ((v + Z.shiftr v 4) mod U32) 0xF0F0F0F * 0x1010101) mod U32) 24.

Record TicTacToe : Type := MkTTT {
  xos0 : Z;      (* xos[0] *)
  xos1 : Z;      (* xos[1] *)
  iplayer : Z
}.

Definition winning_states : list Z := [7; 56; 448; 73; 146; 292; 273; 84]%Z.

Definition is_win (st : Z) : bool :=
  existsb (λ s, (Z.land s st =? s)%Z) winning_states.

Definition board (t : TicTacToe) : Z := Z.lor (xos0 t) (xos1 t).

Definition ttt_winner (t : TicTacToe) : WinState :=
  let w0 := is_win (xos0 t) in
  let w1 := is_win (xos1 t) in
  if negb (w0 || w1) && (board t =? 0x1FF)%Z then TIE
  else if w0 then WIN
  else if w1 then LOSS
  else NONE.

Definition ttt_n_valid_moves (t : TicTacToe) : nat :=
  Z.to_nat ((9 - bitcount (board t)) mod U32).

Definition ttt_is_valid (t : TicTacToe) (mv : nat) : bool :=
  let pos := (Z.shiftl 1 (Z.of_nat mv) mod U32)%Z in
  (Z.land pos (board t) =? 0)%Z.

(** [xos[iplayer] |= (1 << mv)]; [iplayer] is 0 or 1 in every state
    built from [TicTacToe()]. *)
Definition ttt_move (t : TicTacToe) (mv : nat) : TicTacToe :=
  let bit := Z.shiftl 1 (Z.of_nat mv) in
  let nxt := Z.land (iplayer t + 1) 1 in
  if (iplayer t =? 0)%Z
  then MkTTT (Z.lor (xos0 t) bit) (xos1 t) nxt
  else MkTTT (xos0 t) (Z.lor (xos1 t) bit) nxt.

#[global] Instance ttt_game : Game TicTacToe := {|
  n_moves := 9;
  game_new := MkTTT 0 0 0;
  player_turn t := Z.to_nat (iplayer t);
  winner := ttt_winner;
  n_valid_moves := ttt_n_valid_moves;
  is_valid := ttt_is_valid;
  move := ttt_move
|}.
End TTT.

(** ** Concrete instances used to run the model

    A Lehmer generator stands for the caller's random engine, and an
    integer score (mean scaled by 1000 plus a visit bonus) stands for the
    float UCB value.  The score is not the expression of [ucb_move] and
    can order moves differently; the two instances only give the
    theorems, which are stated for every [RandomGen] and [FloatOps], a
    run to be evaluated on. *)

Definition minstd_next (x : Z) : Z := ((16807 * x) mod 2147483647)%Z.

#[global] Instance minstd_gen : RandomGen Z := {|
  uniform_int lo hi g :=
    let g' := minstd_next g in
    (lo + Z.to_nat (g' mod Z.of_nat (hi - lo + 1)), g')
|}.

#[global] Instance int_scores : FloatOps Z := {|
  ucb_value flip w t tot := ((1000 * flip * w + 1000 * tot) / t)%Z;
  neg_infinity := (-1000000000)%Z;
  fgt := Z.gtb
|}.

(** A TicTacToe search tree: [n] rollouts from the root of an empty
    board, and the arena after the first rollout with seed 42. *)
Definition ttt_search (fuel n : nat) (seed : Z) : result (Z * Arena (Node TTT.TicTacToe)) :=
  let '(a0, root) := alloc NBLOCK arena_new (new_node (G:=TTT.TicTacToe) game_new) in
  rollouts (F:=Z) fuel n seed a0 root.

Definition ttt_arena1 : Arena (Node TTT.TicTacToe) :=
  Eval vm_compute in
    match ttt_search 9 1 42%Z with
    | Ok (_, a) => a
    | _ => arena_new
    end.

Definition ttt_root1 : Node TTT.TicTacToe :=
  Eval vm_compute in default (new_node game_new) (load ttt_arena1 (1, 0)).

Definition ttt_leaf1 : Node TTT.TicTacToe :=
  Eval vm_compute in default (new_node game_new) (load ttt_arena1 (1, 9)).

(** A position after two moves, and an endgame in which player 0 wins
    at once with move 6; the endgame tree after five rollouts has every
    valid move of its root explored. *)
Definition ttt_mid : TTT.TicTacToe := TTT.MkTTT 16 2 0.

Definition ttt_endgame : TTT.TicTacToe := TTT.MkTTT 384 24 0.

Definition ttt_endgame_arena : Arena (Node TTT.TicTacToe) :=
  Eval vm_compute in
    let '(a0, root) := alloc NBLOCK arena_new (new_node ttt_endgame) in
    match rollouts (F:=Z) 9 5 7%Z a0 root with
    | Ok (_, a) => a
    | _ => arena_new
    end.

Definition ttt_endgame_root : Node TTT.TicTacToe :=
  Eval vm_compute in default (new_node ttt_endgame) (load ttt_endgame_arena (1, 0)).

(** The pointer reached from [p] along the moves [ms]. *)
Fixpoint follow {G : Type} (a : Arena (Node G)) (p : ptr) (ms : list nat) : option ptr :=
  match ms with
  | [] => Some p
  | m :: ms' =>
      match load a p with
      | Some nd =>
          match default None (children nd !! m) with
          | Some q => follow a q ms'
          | None => None
          end
      | None => None
      end
  end.

(** ** Specification vocabulary *)

Definition zsum (l : list Z) : Z := foldr Z.add 0%Z l.

Section Vocabulary.
Context {G R F : Type} `{!Game G, !RandomGen R, !FloatOps F}.

Local Abbreviation MyArena := (Arena (Node G)).

(** The arenas a search produces: a fresh root for the state [s0],
    followed by any number of completed [ucb_rollout] calls, each with
    its own generator state, on the root or on any other node. *)
Inductive searched (s0 : G) : MyArena → Prop :=
| searched_root :
    searched s0 (alloc NBLOCK arena_new (new_node s0)).1
| searched_rollout a fuel (g : R) this g' a' w :
    searched s0 a →
    ucb_rollout (F:=F) fuel g a this = Ok (g', a', w) →
    searched s0 a'.

Definition root_of (s0 : G) : ptr := (alloc NBLOCK (@arena_new (Node G)) (new_node s0)).2.

(** Nodes linked from [root] through [children]. *)
Inductive reachable (a : MyArena) (root : ptr) : ptr → Prop :=
| reach_root : reachable a root root
| reach_child p nd i q :
    reachable a root p → load a p = Some nd → child nd i = Some q →
    reachable a root q.

(** A terminal outcome. *)
Definition outcome (w : WinState) : Prop := ∃ s : G, winner s = w ∧ w ≠ NONE.

(** What a rollout may do to a node it passes through, and to the
    arena: the state stays, explored slots stay. *)
Definition node_le (n n' : Node G) : Prop :=
  state n' = state n ∧ ∀ i q, child n i = Some q → child n' i = Some q.

Definition heap_le (a a' : MyArena) : Prop :=
  ∀ p n, load a p = Some n → ∃ n', load a' p = Some n' ∧ node_le n n'.

Definition heap_all (P : Node G → Prop) (a : MyArena) : Prop :=
  ∀ p nd, load a p = Some nd → P nd.

(** The statistics of one node. *)
Definition node_ok (nd : Node G) : Prop :=
  length (children nd) = n_moves ∧ length (tries nd) = n_moves ∧
  length (wins nd) = n_moves ∧
  (∀ i, i < n_moves →
     (0 ≤ zget (tries nd) i ≤ F32_EXACT)%Z ∧
     (is_Some (child nd i) ↔ (0 < zget (tries nd) i)%Z)) ∧
  (winner (state nd) = NONE →
     tot_tries nd = Z.min F32_EXACT (zsum (tries nd))) ∧
  (winner (state nd) ≠ NONE →
     children nd = replicate n_moves None ∧
     tries nd = replicate n_moves 0%Z ∧
     wins nd = replicate n_moves 0%Z ∧
     (tot_tries nd = 0 ∨ tot_tries nd = 1)%Z).

Definition wins_ok (nd : Node G) : Prop :=
  length (tries nd) = n_moves ∧ length (wins nd) = n_moves ∧
  ∀ i, (0 ≤ zget (tries nd) i ≤ F32_EXACT)%Z ∧
       (Z.abs (zget (wins nd) i) ≤ zget (tries nd) i)%Z.

(** The contract of [winner]: one of the four constants. *)
Definition winner_contract : Prop :=
  ∀ s : G, winner s = WIN ∨ winner s = TIE ∨ winner s = LOSS ∨ winner s = NONE.

(** The contract of the distribution: a value within its bounds. *)
Definition dist_contract : Prop :=
  ∀ (n : nat) (g : R), 0 < n → 1 ≤ (uniform_int 1 n g).1 ≤ n.

(** Every line of play from [s] ends within [h] moves, and every
    state on the way that is not terminal has a valid move. *)
Fixpoint bounded_game (h : nat) (s : G) : bool :=
  if negb (winner s =? NONE)%Z then true
  else
    match h with
    | 0 => false
    | S h' =>
        (0 <? count_upto (is_valid s) n_moves) &&
        forallb (λ i, if is_valid s i then bounded_game h' (move s i) else true)
          (seq 0 n_moves)
    end.

(** [path_to_leaf a p l]: from the node at [p] the list [l] of
    pointers is a chain of children links; every node before the last
    has exactly one occupied slot, holding the next pointer of the
    chain, and the last node is a leaf without children. *)
Fixpoint path_to_leaf (a : MyArena) (p : ptr) (l : list ptr) : Prop :=
  ∃ nd, load a p = Some nd ∧
    match l with
    | [] => winner (state nd) ≠ NONE ∧ children nd = replicate n_moves None
    | q :: l' =>
        winner (state nd) = NONE ∧
        (∃ mv c, mv < n_moves ∧ is_valid (state nd) mv = true ∧
                 children nd = <[mv := Some q]> (replicate n_moves None) ∧
                 load a q = Some c ∧ state c = move (state nd) mv) ∧
        path_to_leaf a q l'
    end.

(** A child that is a decided win for the player to move. *)
Definition proven_win (a : MyArena) (nd : Node G) (i : nat) : Prop :=
  (player_turn (state nd) = 0 ∧ child_winner a nd i = Ok WIN) ∨
  (player_turn (state nd) = 1 ∧ child_winner a nd i = Ok LOSS).
End Vocabulary.

(** ** Further vocabulary *)

(** The elements of an arena in allocation order: the blocks from the
    oldest to the front one. *)
Definition arena_contents {T : Type} (a : Arena T) : list T :=
  concat (reverse (vdata <$> blocks a)).

(** Every block behind the front one is full, and the front one is not
    empty. *)
Definition packed {T : Type} (NBlock : nat) (a : Arena T) : Prop :=
  match blocks a with
  | [] => True
  | v :: rest =>
      0 < length (vdata v) ∧ Forall (λ w, length (vdata w) = NBlock) rest
  end.

(** [>] among the values in [P] behaves as it does on floats that are
    not NaN: irreflexive, transitive, and what is not above [y] is below
    everything above [y]. *)
Definition strict_order {F : Type} (P : F → Prop) (gt : F → F → bool) : Prop :=
  (∀ x, P x → gt x x = false) ∧
  (∀ x y z, P x → P y → P z → gt x y = true → gt y z = true → gt x z = true) ∧
  (∀ x y z, P x → P y → P z → gt x y = true → gt z y = false → gt x z = true).

(** The UCB value that [ucb_move] computes for move [i]. *)
Definition ucb_of {G F : Type} `{!Game G, !FloatOps F} (nd : Node G) (i : nat) : F :=
  ucb_value (if player_turn (state nd) =? 0 then 1%Z else (-1)%Z)
    (zget (wins nd) i) (zget (tries nd) i) (tot_tries nd).

(** The values that the loop of [ucb_move] compares on a node: the
    initial [ucb_max] and the UCB values of the node's valid moves. *)
Definition ucb_values {G F : Type} `{!Game G, !FloatOps F} (nd : Node G) (x : F) : Prop :=
  x = neg_infinity ∨
  ∃ j, j < n_moves ∧ is_valid (state nd) j = true ∧ x = ucb_of nd j.

(** A source that ignores the bounds of the distribution and returns its
    own state. *)
#[global] Instance unbounded_gen : RandomGen nat := {|
  uniform_int lo hi g := (g, g)
|}.

(** Newer blocks have larger buffer identities. *)
Fixpoint bufs_decreasing {T : Type} (bs : list (vector T)) : Prop :=
  match bs with
  | [] => True
  | v :: rest => Forall (λ w, vbuf w < vbuf v) rest ∧ bufs_decreasing rest
  end.

(** Allocation order of pointers: by block, then by offset. *)
Definition ptr_lt (p q : ptr) : Prop := p.1 < q.1 ∨ (p.1 = q.1 ∧ p.2 < q.2).

Section TreeShape.
Context {G : Type} `{!Game G}.

Local Abbreviation MyArena := (Arena (Node G)).

(** [links a p i q]: slot [i] of the node at [p] holds the pointer [q]. *)
Definition links (a : MyArena) (p : ptr) (i : nat) (q : ptr) : Prop :=
  ∃ nd, load a p = Some nd ∧ child nd i = Some q.

(** [state_at a p s]: the node at [p] holds the game state [s]. *)
Definition state_at (a : MyArena) (p : ptr) (s : G) : Prop :=
  ∃ nd, load a p = Some nd ∧ state nd = s.

(** Every occupied slot [i] is a move index and points to a node of the
    arena whose state is the parent's state after move [i]. *)
Definition links_ok (a : MyArena) : Prop :=
  ∀ p i q, links a p i q →
    i < n_moves ∧ ∃ s, state_at a p s ∧ state_at a q (move s i).

(** No node is held by two slots. *)
Definition unique_parent (a : MyArena) : Prop :=
  ∀ p1 i1 p2 i2 q, links a p1 i1 q → links a p2 i2 q → p1 = p2 ∧ i1 = i2.

(** A child is allocated after its parent. *)
Definition links_up (a : MyArena) : Prop :=
  ∀ p i q, links a p i q → ptr_lt p q.

(** The shape of a search tree in its arena. *)
Definition tree_shape (root : ptr) (a : MyArena) : Prop :=
  wf NBLOCK a ∧ bufs_decreasing (blocks a) ∧
  is_Some (load a root) ∧ (∀ p i, ¬ links a p i root) ∧
  links_ok a ∧ unique_parent a ∧ links_up a.

(** Every occupied slot of the node is a valid move of its state. *)
Definition valid_links (nd : Node G) : Prop :=
  ∀ i q, child nd i = Some q → is_valid (state nd) i = true.

(** [follows s s']: the state [s'] comes from [s] by valid moves. *)
Inductive follows (s : G) : G → Prop :=
| follows_refl : follows s s
| follows_move s' i :
    follows s s' → i < n_moves → is_valid s' i = true → follows s (move s' i).
End TreeShape.

Section TreeDelta.
Context {G : Type} `{!Game G}.

(** How the links of [a'] relate to those of an earlier arena [a]: a
    link is either an old one, or it goes to a node that [a] did not
    have, from an earlier pointer, with the states in step; and such a
    new node is held by one slot only. *)
Definition delta (a a' : Arena (Node G)) : Prop :=
  (∀ p i q, links a' p i q →
     links a p i q ∨
     (load a q = None ∧ ptr_lt p q ∧ i < n_moves ∧
      ∃ s, state_at a' p s ∧ state_at a' q (move s i))) ∧
  (∀ p1 i1 p2 i2 q, links a' p1 i1 q → links a' p2 i2 q → load a q = None →
     p1 = p2 ∧ i1 = i2).

(** Every link of [a] goes to a node of [a]. *)
Definition closed (a : Arena (Node G)) : Prop :=
  ∀ p i q, links a p i q → is_Some (load a q).
End TreeDelta.

(** The positions of a TicTacToe game: nine cells, no cell marked by
    both players, and a player index of 0 or 1. *)
Definition ttt_ok (t : TTT.TicTacToe) : Prop :=
  (0 ≤ TTT.xos0 t)%Z ∧ (0 ≤ TTT.xos1 t)%Z ∧ (TTT.board t < 512)%Z ∧
  Z.land (TTT.xos0 t) (TTT.xos1 t) = 0%Z ∧
  (TTT.iplayer t = 0 ∨ TTT.iplayer t = 1)%Z.

(** [legal_play s ms ss]: from the state [s], which is not terminal
    until the moves run out, each move of [ms] is valid where it is
    played, [ss] lists the states after each move, and the last state is
    terminal. *)
Fixpoint legal_play {G : Type} `{!Game G} (s : G) (ms : list nat) (ss : list G) : Prop :=
  match ms, ss with
  | [], [] => winner s ≠ NONE
  | m :: ms', s' :: ss' =>
      winner s = NONE ∧ m < n_moves ∧ is_valid s m = true ∧ s' = move s m ∧
      legal_play s' ms' ss'
  | _, _ => False
  end.

(** [is_valid] and [n_valid_moves] of TicTacToe as functions of the
    board [xos[0] | xos[1]]. *)
Definition free_cell (b : Z) (mv : nat) : bool :=
  (Z.land (Z.shiftl 1 (Z.of_nat mv) mod TTT.U32) b =? 0)%Z.

Definition free_count (b : Z) : nat := Z.to_nat ((9 - TTT.bitcount b) mod TTT.U32).

(** ** tictactoe.hpp: [operator<<]

    The stream is the list of characters written so far. *)

(** One cell of the board: [x], [o], the assertion, and the character. *)
Definition print_cell (t : TTT.TicTacToe) (k : nat) (s : list ascii) : result (list ascii) :=
  let x := negb (Z.land (TTT.xos0 t) (Z.shiftl 1 (Z.of_nat k)) =? 0)%Z in
  let o := negb (Z.land (TTT.xos1 t) (Z.shiftl 1 (Z.of_nat k)) =? 0)%Z in
  do _ <- cassert (negb (x && o));
  Ok (s ++ [if x then "X" else if o then "O" else "-"]%char).

(** The inner loop from column [j] with [todo] columns left. *)
Fixpoint print_row (t : TTT.TicTacToe) (i j todo : nat) (s : list ascii)
    : result (list ascii) :=
  match todo with
  | 0 => Ok s
  | S n => do s1 <- print_cell t (3 * i + j) s; print_row t i (S j) n s1
  end.

(** The outer loop from row [i] with [todo] rows left. *)
Fixpoint print_rows (t : TTT.TicTacToe) (i todo : nat) (s : list ascii)
    : result (list ascii) :=
  match todo with
  | 0 => Ok s
  | S n => do s1 <- print_row t i 0 3 s; print_rows t (S i) n (s1 ++ ["010"%char])
  end.

Definition print_board (s : list ascii) (t : TTT.TicTacToe) : result (list ascii) :=
  print_rows t 0 3 s.

(** ** mcts.hpp: [Node::clone] *)

Section Clone.
Context {G : Type} `{!Game G}.

Local Abbreviation MyArena := (Arena (Node G)).

(** The loop of [clone] over the slots of the copy at [node], from slot
    [i] with [todo] slots left; [rec] is [p->clone(arena)]. *)
Fixpoint clone_children (rec : MyArena → ptr → result (MyArena * ptr))
    (a : MyArena) (node : ptr) (i todo : nat) : result MyArena :=
  match todo with
  | 0 => Ok a
  | S t =>
      do nd <- deref (load a node);
      match child nd i with
      | None => clone_children rec a node (S i) t
      | Some p =>
          do (a1, q) <- rec a p;
          do nd1 <- deref (load a1 node);
          clone_children rec (store a1 node (set_child i q nd1)) node (S i) t
      end
  end.

(** [fuel] bounds the depth of the recursion: [arena.alloc(state)],
    [*node = *this], then the loop over the slots of the copy. *)
Fixpoint clone (fuel : nat) (a : MyArena) (this : ptr) : result (MyArena * ptr) :=
  do nd <- deref (load a this);
  let '(a1, node) := alloc NBLOCK a (new_node (state nd)) in
  do a2 <- clone_children
             (match fuel with 0 => λ _ _, OutOfFuel | S f => clone f end)
             (store a1 node nd) node 0 n_moves;
  Ok (a2, node).

(** [copy_upto b d a p a' q]: down to depth [d], the tree at [q] in
    [a'] has the states, counters and shape of the tree at [p] in [a],
    and is made of nodes that [b] did not have. *)
Fixpoint copy_upto (b : MyArena) (d : nat) (a : MyArena) (p : ptr)
    (a' : MyArena) (q : ptr) : Prop :=
  match d with
  | 0 => True
  | S d' =>
      load b q = None ∧
      ∃ nd nd', load a p = Some nd ∧ load a' q = Some nd' ∧
        state nd' = state nd ∧ tot_tries nd' = tot_tries nd ∧
        tries nd' = tries nd ∧ wins nd' = wins nd ∧
        ∀ i, i < n_moves →
          match child nd i, child nd' i with
          | None, None => True
          | Some p', Some q' => copy_upto b d' a p' a' q'
          | _, _ => False
          end
  end.

(** What the loop of [clone] has established before slot [i]: [a0] is
    the arena of the call, [ab] the arena after [*node = *this], [nd0]
    the node that is copied. *)
Definition clone_inv (a0 ab : MyArena) (nd0 : Node G) (node : ptr)
    (a : MyArena) (i : nat) : Prop :=
  wf NBLOCK a ∧ closed a ∧
  (∀ r x, load a0 r = Some x → load a r = Some x) ∧
  (∀ r, load a r = None → load ab r = None) ∧
  ∃ nd, load a node = Some nd ∧
    state nd = state nd0 ∧ tot_tries nd = tot_tries nd0 ∧
    tries nd = tries nd0 ∧ wins nd = wins nd0 ∧
    (∀ j, j < i →
       match child nd0 j, child nd j with
       | None, None => True
       | Some p', Some q' => ∀ d, copy_upto ab d a0 p' a q'
       | _, _ => False
       end) ∧
    (∀ j, i ≤ j → child nd j = child nd0 j).
(** [height_le h a p]: the node at [p] is in the arena and no chain of
    children links from it is longer than [h]. *)
Fixpoint height_le (h : nat) (a : MyArena) (p : ptr) {struct h} : bool :=
  match load a p with
  | None => false
  | Some nd =>
      forallb (λ i, match child nd i with
                    | None => true
                    | Some q => match h with 0 => false | S h' => height_le h' a q end
                    end) (seq 0 n_moves)
  end.
End Clone.

(** The TicTacToe tree after twelve rollouts with seed 42: every move of
    the root is explored and none of its children is decided. *)
Definition ttt_arena12 : Arena (Node TTT.TicTacToe) :=
  Eval vm_compute in
    match ttt_search 9 12 42%Z with
    | Ok (_, a) => a
    | _ => arena_new
    end.

Definition ttt_root12 : Node TTT.TicTacToe :=
  Eval vm_compute in default (new_node game_new) (load ttt_arena12 (1, 0)).

Section ArenaFacts.
Context {T : Type}.
Variable NBlock : nat.
Implicit Types (a : Arena T) (p q : ptr) (x y : T).

Lemma wf_new : wf NBlock (@arena_new T).
Proof. split; [done | constructor]. Qed.

Lemma wf_clear a : wf NBlock a → wf NBlock (clear a).
Proof. intros [? _]. split; [done | constructor]. Qed.

Lemma block_ok_mono nb nb' (v : vector T) :
  nb ≤ nb' → block_ok NBlock nb v → block_ok NBlock nb' v.
Proof. unfold block_ok. intros ? (? & ? & ?). repeat split; lia. Qed.

Lemma find_block_fresh (bs : list (vector T)) nb b :
  Forall (block_ok NBlock nb) bs → nb ≤ b → find_block b bs = None.
Proof.
  induction 1 as [|v bs Hv _ IH]; intros Hb; [done|].
  unfold find_block in *. simpl.
  destruct Hv as (_ & _ & Hv).
  destruct (Nat.eqb_spec (vbuf v) b); [lia | auto].
Qed.

(** The two shapes of an [alloc]: a new front block, or an append to
    the existing front block, always without reallocation. *)
Lemma alloc_shape a x :
  0 < NBlock →
  wf NBlock a →
  (front_full NBlock (blocks a) = true ∧
   alloc NBlock a x =
     (MkArena (Vector (next_buf a) NBlock [x] :: blocks a) (S (next_buf a)),
      (next_buf a, 0)))
  ∨ (∃ v rest, blocks a = v :: rest ∧ length (vdata v) < NBlock ∧
     alloc NBlock a x =
       (MkArena (Vector (vbuf v) (vcap v) (vdata v ++ [x]) :: rest) (next_buf a),
        (vbuf v, length (vdata v)))).
Proof.
  intros Hpos [_ Hwf]. unfold alloc.
  destruct (front_full NBlock (blocks a)) eqn:Hfull.
  - left. split; [done|].
    unfold reserve, vector_new, emplace_back; simpl.
    destruct (Nat.ltb_spec 0 NBlock); [|lia]. simpl.
    destruct (Nat.ltb_spec 0 NBlock); [|lia]. done.
  - right. destruct (blocks a) as [|v rest] eqn:Hb; [done|].
    simpl in Hfull. apply Nat.eqb_neq in Hfull.
    apply Forall_cons in Hwf as [(Hcap & Hlen & _) _].
    exists v, rest. split; [done|]. split; [lia|].
    unfold emplace_back.
    destruct (Nat.ltb_spec (length (vdata v)) (vcap v)); [|lia].
    simpl. rewrite length_app. simpl. do 2 f_equal. lia.
Qed.

Lemma wf_alloc a x :
  0 < NBlock → wf NBlock a → wf NBlock (alloc NBlock a x).1.
Proof.
  intros Hpos Hwf.
  destruct (alloc_shape a x Hpos Hwf) as [[_ ->]|(v & rest & Hb & Hlen & ->)];
    destruct Hwf as [Hnb Hwf]; simpl.
  - split; [simpl; lia|]. constructor.
    + repeat split; simpl; lia.
    + eapply Forall_impl; [exact Hwf|]. intros w. apply block_ok_mono. simpl. lia.
  - rewrite Hb in Hwf.
    apply Forall_cons in Hwf as [(Hcap & Hl & Hbuf) Hrest].
    split; [done|]. constructor; [|done].
    repeat split; simpl; try lia. rewrite length_app. simpl. lia.
Qed.

Lemma wf_built a : 0 < NBlock → built NBlock a → wf NBlock a.
Proof. intros Hpos. induction 1; auto using wf_new, wf_alloc, wf_clear. Qed.

Lemma wf_store a p x : wf NBlock a → wf NBlock (store a p x).
Proof.
  intros [Hnb Hwf]. split; [done|]. simpl.
  apply Forall_fmap. eapply Forall_impl; [exact Hwf|].
  intros v (? & ? & ?). unfold compose, block_ok, store_block.
  destruct (vbuf v =? p.1); simpl; rewrite ?length_insert; repeat split; lia.
Qed.

Lemma find_block_store (bs : list (vector T)) p x b :
  find_block b (store_block p x <$> bs) = store_block p x <$> find_block b bs.
Proof.
  unfold find_block. induction bs as [|v bs IH]; [done|]. simpl.
  replace (vbuf (store_block p x v)) with (vbuf v)
    by (unfold store_block; by destruct (vbuf v =? p.1)).
  by destruct (vbuf v =? b).
Qed.

Lemma find_block_buf (bs : list (vector T)) b v :
  find_block b bs = Some v → vbuf v = b.
Proof.
  unfold find_block. intros Hf. apply find_some in Hf as [_ Heq].
  by apply Nat.eqb_eq.
Qed.

Lemma load_store_eq a p x :
  is_Some (load a p) → load (store a p x) p = Some x.
Proof.
  unfold load, store. simpl. rewrite find_block_store.
  destruct (find_block p.1 (blocks a)) as [v|] eqn:Hf; [|by intros [? ?]].
  intros Hs. simpl. unfold store_block.
  rewrite (find_block_buf _ _ _ Hf), Nat.eqb_refl. simpl.
  apply list_lookup_insert_eq. by apply lookup_lt_is_Some.
Qed.

Lemma load_store_ne a p q x : p ≠ q → load (store a p x) q = load a q.
Proof.
  intros Hne. unfold load, store. simpl. rewrite find_block_store.
  destruct (find_block q.1 (blocks a)) as [v|] eqn:Hf; [|done].
  simpl. unfold store_block.
  destruct (Nat.eqb_spec (vbuf v) p.1) as [Heq|]; [|done]. simpl.
  apply list_lookup_insert_ne. intros Hoff.
  apply Hne. apply find_block_buf in Hf.
  destruct p, q; simpl in *; congruence.
Qed.

Lemma load_store_is_Some a p q x : is_Some (load a q) → is_Some (load (store a p x) q).
Proof.
  intros Hs. destruct (decide (p = q)) as [->|Hne].
  - rewrite load_store_eq; eauto.
  - by rewrite load_store_ne.
Qed.

Lemma load_store_None a p q x : load a q = None → load (store a p x) q = None.
Proof.
  intros Hn. destruct (decide (p = q)) as [->|Hne]; [|by rewrite load_store_ne].
  unfold load, store in *. simpl. rewrite find_block_store.
  destruct (find_block q.1 (blocks a)) as [v|] eqn:Hf; [|done].
  simpl. unfold store_block. destruct (vbuf v =? q.1); [|done]. simpl.
  apply lookup_ge_None. rewrite length_insert. by apply lookup_ge_None.
Qed.

Lemma load_alloc_old a x p y :
  0 < NBlock →
  wf NBlock a → load a p = Some y → load (alloc NBlock a x).1 p = Some y.
Proof.
  intros Hpos Hwf Hl.
  destruct (alloc_shape a x Hpos Hwf) as [[_ ->]|(v & rest & Hb & Hlen & ->)];
    destruct Hwf as [Hnb Hwf]; unfold load in *; simpl.
  - unfold find_block at 1. simpl. fold (find_block p.1 (blocks a)).
    destruct (Nat.eqb_spec (next_buf a) p.1) as [Heq|]; [|done].
    rewrite (find_block_fresh _ _ _ Hwf) in Hl; [done | lia].
  - rewrite Hb in Hl. unfold find_block in *. simpl in *.
    destruct (vbuf v =? p.1); [|done]. simpl.
    by apply lookup_app_l_Some.
Qed.

Lemma load_alloc_new a x :
  0 < NBlock →
  wf NBlock a → load (alloc NBlock a x).1 (alloc NBlock a x).2 = Some x.
Proof.
  intros Hpos Hwf.
  destruct (alloc_shape a x Hpos Hwf) as [[_ ->]|(v & rest & Hb & Hlen & ->)];
    unfold load, find_block; simpl; rewrite Nat.eqb_refl; simpl; [done|].
  by rewrite lookup_app_r, Nat.sub_diag.
Qed.

Lemma alloc_fresh a x :
  0 < NBlock → wf NBlock a → load a (alloc NBlock a x).2 = None.
Proof.
  intros Hpos Hwf.
  destruct (alloc_shape a x Hpos Hwf) as [[_ ->]|(v & rest & Hb & Hlen & ->)];
    destruct Hwf as [Hnb Hwf]; unfold load; simpl.
  - by rewrite (find_block_fresh _ _ _ Hwf).
  - rewrite Hb. unfold find_block. simpl. rewrite Nat.eqb_refl.
    by apply lookup_ge_None.
Qed.

Lemma load_alloc_inv a x p y :
  0 < NBlock →
  wf NBlock a → load (alloc NBlock a x).1 p = Some y →
  load a p = Some y ∨ (p = (alloc NBlock a x).2 ∧ y = x).
Proof.
  intros Hpos Hwf.
  destruct (alloc_shape a x Hpos Hwf) as [[_ ->]|(v & rest & Hb & Hlen & ->)];
    unfold load, find_block; simpl.
  - destruct (Nat.eqb_spec (next_buf a) p.1) as [Heq|]; [|by left].
    simpl. intros Hl. right.
    destruct p as [b [|o]]; simpl in *; [|done].
    split; congruence.
  - rewrite Hb. simpl.
    destruct (Nat.eqb_spec (vbuf v) p.1) as [Heq|]; [|by left]. simpl.
    intros Hl. apply lookup_app_Some in Hl as [Hl|[Hge Hl]]; [by left|].
    right. destruct p as [b o]; simpl in *.
    apply list_lookup_singleton_Some in Hl as [Ho ->].
    split; [|done]. f_equal; [done | lia].
Qed.

Lemma load_alloc_fresh_eq a x p :
  0 < NBlock →
  wf NBlock a → p ≠ (alloc NBlock a x).2 → load (alloc NBlock a x).1 p = load a p.
Proof.
  intros Hpos Hwf Hne.
  destruct (load (alloc NBlock a x).1 p) as [y|] eqn:Hl.
  - apply load_alloc_inv in Hl as [Hl|[? _]]; done.
  - destruct (load a p) as [y|] eqn:Hl'; [|done].
    apply (load_alloc_old a x) in Hl'; [congruence | done | done].
Qed.
End ArenaFacts.

(** ** binary32 rounding of the counters *)

Section Float32.
Local Open Scope Z_scope.

Lemma f32_round_exact z : Z.abs z ≤ F32_EXACT → f32_round z = z.
Proof.
  unfold F32_EXACT. intros Hz. unfold f32_round.
  destruct (Z.eq_dec (Z.abs z) 16777216) as [Heq|Hne].
  - rewrite Heq. simpl.
    destruct (Z.abs_spec z) as [[? Ha]|[? Ha]]; rewrite Ha in Heq.
    + subst z. reflexivity.
    + assert (z = -16777216) as -> by lia. reflexivity.
  - destruct (Z.leb_spec (Z.log2 (Z.abs z) - 23) 0) as [|Hlt]; [done|].
    exfalso. destruct (Z.eq_dec (Z.abs z) 0) as [H0|H0].
    { rewrite H0 in Hlt. simpl in Hlt. lia. }
    assert (Z.log2 (Z.abs z) < 24); [|lia].
    apply Z.log2_lt_pow2; lia.
Qed.

(** Ties go to the even significand. *)
Example f32_round_ties :
  f32_round 16777217 = 16777216 ∧ f32_round 16777219 = 16777220 ∧
  f32_round 33554434 = 33554432 ∧ f32_round 33554438 = 33554440 ∧
  f32_round (-16777217) = -16777216 ∧ f32_round 16777218 = 16777218.
Proof. repeat split; reflexivity. Qed.

Lemma f32_round_above : f32_round (F32_EXACT + 1) = F32_EXACT.
Proof. reflexivity. Qed.

Lemma f32_round_below : f32_round (- F32_EXACT - 1) = - F32_EXACT.
Proof. reflexivity. Qed.

(** [++x] on a counter saturates at 2^24. *)
Lemma f32_incr t : 0 ≤ t ≤ F32_EXACT → f32_add t 1 = Z.min (t + 1) F32_EXACT.
Proof.
  intros Ht. unfold f32_add.
  destruct (Z.eq_dec t F32_EXACT) as [->|Hne].
  - rewrite f32_round_above. unfold F32_EXACT. lia.
  - rewrite f32_round_exact by lia. lia.
Qed.

(** Rounding an integer sum keeps it within one step of the 2^24 bound. *)
Lemma f32_add_unit w d t :
  0 ≤ t ≤ F32_EXACT → Z.abs w ≤ t → Z.abs d ≤ 1 →
  Z.abs (f32_add w d) ≤ Z.min (t + 1) F32_EXACT.
Proof.
  intros Ht Hw Hd. unfold f32_add.
  destruct (Z.eq_dec (w + d) (F32_EXACT + 1)) as [Heq|H1].
  { rewrite Heq, f32_round_above. unfold F32_EXACT in *. lia. }
  destruct (Z.eq_dec (w + d) (- F32_EXACT - 1)) as [Heq|H2].
  { rewrite Heq, f32_round_below. unfold F32_EXACT in *. lia. }
  rewrite f32_round_exact by lia. lia.
Qed.

(** Rounding does not take a magnitude above 2^24 below it. *)
Lemma f32_round_big z : F32_EXACT < Z.abs z → F32_EXACT ≤ Z.abs (f32_round z).
Proof.
  unfold F32_EXACT. intros Hz. unfold f32_round.
  assert (24 ≤ Z.log2 (Z.abs z)) as Hlog.
  { apply Z.log2_le_pow2; lia. }
  destruct (Z.leb_spec (Z.log2 (Z.abs z) - 23) 0) as [|He]; [lia|].
  set (m := Z.abs z) in *. set (e := Z.log2 m - 23) in *.
  assert (2 ^ 23 ≤ Z.shiftr m e) as Hq.
  { rewrite Z.shiftr_div_pow2 by lia.
    apply Z.div_le_lower_bound; [apply Z.pow_pos_nonneg; lia|].
    rewrite Z.mul_comm, <- Z.pow_add_r by lia.
    replace (23 + e) with (Z.log2 m) by (unfold e; lia).
    apply Z.log2_spec. lia. }
  match goal with |- _ ≤ Z.abs (_ * Z.shiftl ?q _) => set (q' := q) end.
  assert (2 ^ 23 ≤ q') as Hq'.
  { unfold q'. destruct (_ || _); lia. }
  rewrite Z.abs_mul, Z.shiftl_mul_pow2 by lia.
  assert (Z.abs (Z.sgn z) = 1) as -> by (unfold m in Hz; lia).
  assert (2 ≤ 2 ^ e).
  { change 2 with (2 ^ 1) at 1. apply Z.pow_le_mono_r; lia. }
  rewrite Z.abs_eq by nia. nia.
Qed.

Lemma f32_round_NONE z : f32_round z = NONE → z = NONE.
Proof.
  unfold NONE. intros Hr.
  destruct (Z.le_gt_cases (Z.abs z) F32_EXACT) as [Hle|Hgt].
  - by rewrite f32_round_exact in Hr.
  - apply f32_round_big in Hgt. rewrite Hr in Hgt. unfold F32_EXACT in Hgt. lia.
Qed.
End Float32.

(** ** The selection scan *)

Section Scan.
Variable p : nat → bool.

Lemma count_upto_mono n m : n ≤ m → count_upto p n ≤ count_upto p m.
Proof. induction 1; simpl; lia. Qed.

Lemma count_upto_le n : count_upto p n ≤ n.
Proof. induction n; simpl; [lia|]. destruct (p n); lia. Qed.

Lemma count_upto_0 n : count_upto p n = 0 ↔ ∀ i, i < n → p i = false.
Proof.
  induction n as [|n IH]; simpl.
  - split; [intros _ i Hi; lia | done].
  - split.
    + intros H0 i Hi. destruct (p n) eqn:Hp; [lia|].
      destruct (decide (i = n)) as [->|]; [done|]. apply IH; lia.
    + intros Hall. rewrite (Hall n) by lia.
      assert (count_upto p n = 0); [|lia]. apply IH. intros i Hi. apply Hall. lia.
Qed.

(** From a state of the loop where [count] is the number of
    qualifying indices below [i], the scan stops at the index where the
    running count first reaches [imove]. *)
Lemma scan_kth_from imove todo i :
  count_upto p i < imove ≤ count_upto p (i + todo) →
  ∃ j, scan_kth p imove (count_upto p i) i todo = Ok j ∧
       i ≤ j < i + todo ∧ p j = true ∧ count_upto p (S j) = imove.
Proof.
  revert i. induction todo as [|t IH]; intros i [Hlo Hhi].
  - rewrite Nat.add_0_r in Hhi. lia.
  - simpl. destruct (Nat.eqb_spec (count_upto p i + (if p i then 1 else 0)) imove) as [Heq|Hne].
    + exists i. split; [done|]. split; [lia|].
      destruct (p i) eqn:Hp; [|lia]. split; [done|]. simpl. rewrite ?Hp. lia.
    + change (count_upto p i + (if p i then 1 else 0)) with (count_upto p (S i)) in *.
      destruct (IH (S i)) as (j & Hj & Hr & Hpj & Hc).
      { replace (S i + t) with (i + S t) by lia. split; [|done].
        simpl in *. destruct (p i); lia. }
      exists j. repeat split; try done; lia.
Qed.

Lemma scan_kth_spec n imove :
  1 ≤ imove ≤ count_upto p n →
  ∃ j, scan_kth p imove 0 0 n = Ok j ∧ j < n ∧ p j = true ∧ count_upto p (S j) = imove.
Proof.
  intros [Hlo Hhi]. destruct (scan_kth_from imove n 0) as (j & Hj & Hr & Hp & Hc).
  { simpl. lia. }
  exists j. repeat split; try done; lia.
Qed.

(** Every qualifying index is the answer for exactly its own rank. *)
Lemma scan_kth_rank n j :
  j < n → p j = true →
  1 ≤ count_upto p (S j) ≤ count_upto p n ∧
  scan_kth p (count_upto p (S j)) 0 0 n = Ok j.
Proof.
  intros Hj Hp.
  assert (1 ≤ count_upto p (S j) ≤ count_upto p n) as Hr.
  { split; [simpl; rewrite Hp; lia | apply count_upto_mono; lia]. }
  split; [done|].
  destruct (scan_kth_spec n _ Hr) as (j' & Hs & Hj' & Hp' & Hc).
  rewrite Hs. f_equal.
  assert (count_upto p (S j) = count_upto p j + 1) as Ej
    by (simpl; rewrite Hp; lia).
  assert (count_upto p (S j') = count_upto p j' + 1) as Ej'
    by (simpl; rewrite Hp'; lia).
  destruct (Nat.lt_trichotomy j j') as [Hlt|[->|Hlt]]; [|done|].
  - assert (count_upto p (S j) ≤ count_upto p j') by (apply count_upto_mono; lia).
    lia.
  - assert (count_upto p (S j') ≤ count_upto p j) by (apply count_upto_mono; lia).
    lia.
Qed.
End Scan.

(** ** Inversion of the result monad *)

Lemma rbind_Ok {A B : Type} (m : result A) (k : A → result B) y :
  rbind m k = Ok y → ∃ x, m = Ok x ∧ k x = Ok y.
Proof. destruct m; simpl; [eauto | done | done]. Qed.

Lemma cassert_Ok b u : cassert b = Ok u → b = true.
Proof. by destruct b. Qed.

Lemma deref_Ok {A : Type} (o : option A) x : deref o = Ok x → o = Some x.
Proof. destruct o; simpl; congruence. Qed.

Ltac inv_ok :=
  repeat match goal with
  | H : rbind _ _ = Ok _ |- _ =>
      let x := fresh "x" in let Hx := fresh "Hx" in
      apply rbind_Ok in H as (x & Hx & H)
  | H : cassert _ = Ok _ |- _ => apply cassert_Ok in H
  | H : deref _ = Ok _ |- _ => apply deref_Ok in H
  | H : Ok _ = Ok _ |- _ => injection H as H; subst
  | H : (let '(_, _) := ?e in _) = Ok _ |- _ =>
      let E := fresh "E" in destruct e eqn:E
  | x : (_ * _)%type |- _ => destruct x
  | x : unit |- _ => destruct x
  end.

(** ** What every rollout preserves *)

Section Preservation.
Context {G R F : Type} `{!Game G, !RandomGen R, !FloatOps F}.
Local Abbreviation MyArena := (Arena (Node G)).
Implicit Types (a : MyArena) (nd : Node G) (p q this : ptr) (g : R).

Lemma NBLOCK_pos : 0 < NBLOCK.
Proof. unfold NBLOCK. lia. Qed.

Lemma random_rollout_eq fuel g a this :
  random_rollout fuel g a this =
  do nd <- deref (load a this);
  let w := winner (state nd) in
  if negb (w =? NONE)%Z then Ok (g, store a this (set_tot_tries 1 nd), w)
  else
    match fuel with
    | 0 => OutOfFuel
    | S f =>
        do (mv, g1) <- random_unplayed_move g nd;
        let '(a1, node) := alloc NBLOCK a (new_node (move (state nd) mv)) in
        do (g2, a2, w) <- random_rollout f g1 a1 node;
        do nd2 <- deref (load a2 this);
        do _ <- cassert (bool_decide (child nd2 mv = None));
        do nd3 <- _update mv w (set_child mv node nd2);
        Ok (g2, store a2 this nd3, w)
    end.
Proof. by destruct fuel. Qed.

Lemma ucb_rollout_eq fuel g a this :
  ucb_rollout (F:=F) fuel g a this =
  do nd <- deref (load a this);
  let w := winner (state nd) in
  if negb (w =? NONE)%Z then Ok (g, a, w)
  else if 0 <? n_unplayed_moves nd then random_rollout fuel g a this
  else
    match fuel with
    | 0 => OutOfFuel
    | S f =>
        do mv <- ucb_move a nd;
        do c <- deref (child nd mv);
        do (g1, a1, w) <- ucb_rollout (F:=F) f g a c;
        do nd1 <- deref (load a1 this);
        do nd2 <- _update mv w nd1;
        Ok (g1, store a1 this nd2, w)
    end.
Proof. by destruct fuel. Qed.

Lemma winner_NONE_dec (s : G) :
  (negb (winner s =? NONE)%Z = true ∧ winner s ≠ NONE) ∨
  (negb (winner s =? NONE)%Z = false ∧ winner s = NONE).
Proof. destruct (Z.eqb_spec (winner s) NONE); [right | left]; done. Qed.

(** *** Range of the selected moves *)

Lemma scan_kth_lt (p : nat → bool) imove count i todo j :
  scan_kth p imove count i todo = Ok j → i ≤ j < i + todo.
Proof.
  revert count i. induction todo as [|t IH]; intros count i; simpl; [done|].
  destruct (_ =? imove).
  - intros [= ->]. lia.
  - intros Hs. apply IH in Hs. lia.
Qed.

Lemma random_unplayed_move_lt g nd mv g1 :
  random_unplayed_move g nd = Ok (mv, g1) → mv < n_moves.
Proof.
  unfold random_unplayed_move. intros H. inv_ok.
  match goal with H : scan_kth _ _ _ _ _ = Ok _ |- _ => apply scan_kth_lt in H end.
  lia.
Qed.

Lemma random_move_lt g nd mv g1 :
  random_move g nd = Ok (mv, g1) → mv < n_moves.
Proof.
  unfold random_move. intros H. inv_ok.
  match goal with H : scan_kth _ _ _ _ _ = Ok _ |- _ => apply scan_kth_lt in H end.
  lia.
Qed.

Lemma ucb_scan_lt a nd player flip todo i ucb_max i_max seen m seen' :
  (∀ k, i_max = Some k → k < i) →
  ucb_scan (F:=F) a nd player flip i todo ucb_max i_max seen = Ok (m, seen') →
  m < i + todo.
Proof.
  revert i ucb_max i_max seen.
  induction todo as [|t IH]; intros i ucb_max i_max seen Him; simpl.
  - intros H. apply rbind_Ok in H as (x & Hx & H).
    apply deref_Ok in Hx. injection H as -> _. apply Him in Hx. lia.
  - destruct (negb (is_valid (state nd) i)).
    { intros H. apply IH in H; [lia|]. intros k Hk. apply Him in Hk. lia. }
    intros H. inv_ok. destruct x.
    { inv_ok. lia. }
    inv_ok. destruct x.
    { inv_ok. lia. }
    destruct (fgt _ _); apply IH in H; try lia.
    + intros k [= <-]. lia.
    + intros k Hk. apply Him in Hk. lia.
Qed.

Lemma ucb_move_lt a nd mv : ucb_move (F:=F) a nd = Ok mv → mv < n_moves.
Proof.
  unfold ucb_move, ucb_move_traced. intros H. inv_ok. simpl.
  match goal with H : ucb_scan _ _ _ _ _ _ _ _ _ = Ok _ |- _ =>
    apply ucb_scan_lt in H; [lia | done] end.
Qed.

(** *** The arena only grows, and explored slots stay *)

Lemma node_le_refl nd : node_le nd nd.
Proof. by split. Qed.

Lemma node_le_trans (n1 n2 n3 : Node G) : node_le n1 n2 → node_le n2 n3 → node_le n1 n3.
Proof. intros [? H12] [? H23]. split; [congruence | eauto]. Qed.

Lemma heap_le_refl a : heap_le a a.
Proof. intros p n Hp. eauto using node_le_refl. Qed.

Lemma heap_le_trans a1 a2 a3 : heap_le a1 a2 → heap_le a2 a3 → heap_le a1 a3.
Proof.
  intros H12 H23 p n Hp.
  destruct (H12 _ _ Hp) as (n2 & Hp2 & Hle2).
  destruct (H23 _ _ Hp2) as (n3 & Hp3 & Hle3).
  eauto using node_le_trans.
Qed.

Lemma heap_le_alloc a (x : Node G) : wf NBLOCK a → heap_le a (alloc NBLOCK a x).1.
Proof.
  intros Hwf p n Hp. exists n. split; [|apply node_le_refl].
  apply load_alloc_old; [apply NBLOCK_pos | done | done].
Qed.

Lemma heap_le_store a p (n n' : Node G) :
  load a p = Some n → node_le n n' → heap_le a (store a p n').
Proof.
  intros Hp Hle q m Hq. destruct (decide (p = q)) as [<-|Hne].
  - exists n'. rewrite load_store_eq by eauto. split; [done|]. congruence.
  - exists m. rewrite load_store_ne by done. eauto using node_le_refl.
Qed.

Lemma heap_all_alloc (P : Node G → Prop) a x :
  wf NBLOCK a → heap_all P a → P x → heap_all P (alloc NBLOCK a x).1.
Proof.
  intros Hwf Hall Hx p nd Hp.
  apply load_alloc_inv in Hp as [Hp|[_ ->]]; eauto using NBLOCK_pos.
Qed.

Lemma heap_all_store (P : Node G → Prop) a p x :
  heap_all P a → P x → heap_all P (store a p x).
Proof.
  intros Hall Hx q nd Hq. destruct (decide (p = q)) as [<-|Hne].
  - destruct (load a p) as [y|] eqn:Hp.
    + rewrite load_store_eq in Hq by eauto. congruence.
    + by rewrite load_store_None in Hq.
  - rewrite load_store_ne in Hq by done. eauto.
Qed.

Lemma update_Ok mv w nd nd' :
  _update mv w nd = Ok nd' →
  f32_round w ≠ NONE ∧
  nd' = MkNode (state nd) (f32_add (tot_tries nd) 1) (children nd)
          (alter (λ t, f32_add t 1) mv (tries nd))
          (alter (λ x, f32_add x (f32_round w)) mv (wins nd)).
Proof.
  unfold _update. intros H. inv_ok.
  split; [|done].
  match goal with H : negb _ = true |- _ => apply negb_true_iff, Z.eqb_neq in H end.
  done.
Qed.

Lemma update_total mv w nd : w ≠ NONE → ∃ nd', _update mv w nd = Ok nd'.
Proof.
  intros Hw. unfold _update.
  destruct (Z.eqb_spec (f32_round w) NONE) as [Heq|Hne]; simpl; [|eauto].
  by apply f32_round_NONE in Heq.
Qed.

Lemma child_set_child_ne mv q nd i : i ≠ mv → child (set_child mv q nd) i = child nd i.
Proof. intros Hne. unfold child, set_child. simpl. by rewrite list_lookup_insert_ne. Qed.

Lemma child_set_child_eq mv q nd :
  mv < length (children nd) → child (set_child mv q nd) mv = Some q.
Proof. intros Hlt. unfold child, set_child. simpl. by rewrite list_lookup_insert_eq. Qed.

Lemma child_lt nd i q : child nd i = Some q → i < length (children nd).
Proof.
  unfold child. destruct (children nd !! i) eqn:Hl; [|done].
  intros _. by apply lookup_lt_Some in Hl.
Qed.

Lemma node_le_expand mv q w nd nd' :
  child nd mv = None → _update mv w (set_child mv q nd) = Ok nd' → node_le nd nd'.
Proof.
  intros Hnone Hu. apply update_Ok in Hu as [_ ->]. split; [done|].
  intros i c Hc. unfold child in *. simpl.
  destruct (decide (i = mv)) as [->|Hne]; [congruence|].
  by rewrite list_lookup_insert_ne.
Qed.

Lemma node_le_update mv w nd nd' : _update mv w nd = Ok nd' → node_le nd nd'.
Proof. intros Hu. apply update_Ok in Hu as [_ ->]. by split. Qed.

(** *** A property of single nodes that the four kinds of node update
    keep is kept by every rollout. *)
Section NodeLocal.
Variable P : Node G → Prop.
Hypothesis P_new : ∀ s, P (new_node s).
Hypothesis P_leaf : ∀ nd, P nd → winner (state nd) ≠ NONE → P (set_tot_tries 1 nd).
Hypothesis P_expand : ∀ nd mv q w nd',
  P nd → winner (state nd) = NONE → mv < n_moves → child nd mv = None →
  outcome w → _update mv w (set_child mv q nd) = Ok nd' → P nd'.
Hypothesis P_select : ∀ nd mv q w nd',
  P nd → winner (state nd) = NONE → mv < n_moves → child nd mv = Some q →
  outcome w → _update mv w nd = Ok nd' → P nd'.

Lemma random_rollout_pres fuel g a this g' a' w :
  wf NBLOCK a → heap_all P a →
  random_rollout fuel g a this = Ok (g', a', w) →
  wf NBLOCK a' ∧ heap_all P a' ∧ heap_le a a' ∧ outcome w.
Proof.
  revert g a this g' a' w.
  induction fuel as [|f IH]; intros g a this g' a' w Hwf Hall;
    rewrite random_rollout_eq; intros H;
    apply rbind_Ok in H as (nd & Hnd & H); apply deref_Ok in Hnd;
    simpl in H;
    destruct (winner_NONE_dec (state nd)) as [[Hb Hw]|[Hb Hw]];
    rewrite Hb in H; try done.
  1,2: injection H as <- <- <-;
    (split; [by apply wf_store|]);
    (split; [apply heap_all_store; eauto|]);
    (split; [by eapply heap_le_store; [|split]|]);
    by exists (state nd).
  apply rbind_Ok in H as ([mv g1] & Hmv & H).
  destruct (alloc NBLOCK a (new_node (move (state nd) mv))) as [a1 node] eqn:Ea.
  apply rbind_Ok in H as ([[g2 a2] w2] & Hrec & H).
  apply rbind_Ok in H as (nd2 & Hnd2 & H). apply deref_Ok in Hnd2.
  apply rbind_Ok in H as ([] & Hnull & H).
  apply cassert_Ok, bool_decide_eq_true in Hnull.
  apply rbind_Ok in H as (nd3 & Hup & H).
  injection H as <- <- <-.
  assert (wf NBLOCK a1) as Hwf1.
  { replace a1 with (alloc NBLOCK a (new_node (move (state nd) mv))).1 by (by rewrite Ea).
    apply wf_alloc; [apply NBLOCK_pos | done]. }
  assert (heap_all P a1) as Hall1.
  { replace a1 with (alloc NBLOCK a (new_node (move (state nd) mv))).1 by (by rewrite Ea).
    by apply heap_all_alloc. }
  assert (heap_le a a1) as Hle1.
  { replace a1 with (alloc NBLOCK a (new_node (move (state nd) mv))).1 by (by rewrite Ea).
    by apply heap_le_alloc. }
  destruct (IH _ _ _ _ _ _ Hwf1 Hall1 Hrec) as (Hwf2 & Hall2 & Hle2 & Hout).
  assert (heap_le a a2) as Hle by eauto using heap_le_trans.
  destruct (Hle _ _ Hnd) as (nd2' & Hnd2' & [Hst _]).
  assert (nd2' = nd2) as -> by congruence.
  split; [by apply wf_store|].
  split.
  { apply heap_all_store; [done|].
    eapply P_expand; [by eapply Hall2 | congruence | | done | done | exact Hup].
    by eapply random_unplayed_move_lt. }
  split; [|done].
  eapply heap_le_trans; [exact Hle|].
  eapply heap_le_store; [done|]. by eapply node_le_expand.
Qed.

Lemma ucb_rollout_pres fuel g a this g' a' w :
  wf NBLOCK a → heap_all P a →
  ucb_rollout (F:=F) fuel g a this = Ok (g', a', w) →
  wf NBLOCK a' ∧ heap_all P a' ∧ heap_le a a' ∧ outcome w.
Proof.
  revert g a this g' a' w.
  induction fuel as [|f IH]; intros g a this g' a' w Hwf Hall;
    rewrite ucb_rollout_eq; intros H;
    apply rbind_Ok in H as (nd & Hnd & H); apply deref_Ok in Hnd;
    cbv beta zeta in H;
    destruct (winner_NONE_dec (state nd)) as [[Hb Hw]|[Hb Hw]];
    rewrite Hb in H.
  1,3: injection H as <- <- <-;
    (split; [done|]); (split; [done|]); (split; [apply heap_le_refl|]);
    by exists (state nd).
  all: destruct (0 <? n_unplayed_moves nd);
    [eapply random_rollout_pres; eassumption | try done].
  apply rbind_Ok in H as (mv & Hmv & H).
  apply rbind_Ok in H as (c & Hc & H). apply deref_Ok in Hc.
  apply rbind_Ok in H as ([[g1 a1] w1] & Hrec & H).
  apply rbind_Ok in H as (nd1 & Hnd1 & H). apply deref_Ok in Hnd1.
  apply rbind_Ok in H as (nd2 & Hup & H).
  injection H as <- <- <-.
  destruct (IH _ _ _ _ _ _ Hwf Hall Hrec) as (Hwf1 & Hall1 & Hle1 & Hout).
  destruct (Hle1 _ _ Hnd) as (nd1' & Hnd1' & [Hst Hch]).
  assert (nd1' = nd1) as -> by congruence.
  split; [by apply wf_store|].
  split.
  { apply heap_all_store; [done|].
    eapply P_select; [by eapply Hall1 | congruence | | by apply Hch | done | exact Hup].
    by eapply ucb_move_lt. }
  split; [|done].
  eapply heap_le_trans; [exact Hle1|].
  eapply heap_le_store; [done|]. by eapply node_le_update.
Qed.
End NodeLocal.
End Preservation.

(** ** The statistics kept in a node *)

Section ListFacts.
Local Open Scope Z_scope.

Lemma zget_replicate n x i : zget (replicate n x) i = if decide (i < n)%nat then x else 0.
Proof.
  unfold zget. case_decide as Hi.
  - by rewrite lookup_replicate_2.
  - rewrite lookup_ge_None_2; [done|]. rewrite length_replicate. lia.
Qed.

Lemma zget_zero n i : zget (replicate n 0) i = 0.
Proof. rewrite zget_replicate. by case_decide. Qed.

Lemma zget_alter_eq f l i : (i < length l)%nat → zget (alter f i l) i = f (zget l i).
Proof.
  intros Hi. unfold zget. rewrite list_lookup_alter_eq.
  destruct (lookup_lt_is_Some_2 l i Hi) as [x ->]. done.
Qed.

Lemma zget_alter_ne f l i j : i ≠ j → zget (alter f i l) j = zget l j.
Proof. intros Hne. unfold zget. by rewrite list_lookup_alter_ne. Qed.

Lemma zget_ge l i : (length l ≤ i)%nat → zget l i = 0.
Proof. intros Hi. unfold zget. by rewrite lookup_ge_None_2. Qed.

Lemma zsum_zero n : zsum (replicate n 0) = 0.
Proof. induction n; simpl; [done | lia]. Qed.

Lemma zsum_alter f l i :
  (i < length l)%nat → zsum (alter f i l) = zsum l - zget l i + f (zget l i).
Proof.
  unfold zsum, zget.
  revert i. induction l as [|x l IH]; intros [|i] Hi; simpl in *; try lia.
  assert (E := IH i ltac:(lia)).
  change (alter f i l) with (list_alter f i l) in E. lia.
Qed.

Lemma zget_le_zsum l i :
  (∀ j, (j < length l)%nat → 0 ≤ zget l j) → 0 ≤ zsum l ∧ zget l i ≤ zsum l.
Proof.
  revert i. induction l as [|x l IH]; intros i Hall.
  - unfold zget. rewrite lookup_nil. simpl. lia.
  - assert (0 ≤ x) by (apply (Hall 0%nat); simpl; lia).
    assert (∀ j, (j < length l)%nat → 0 ≤ zget l j) as Hall'.
    { intros j Hj. apply (Hall (S j)). simpl. lia. }
    destruct i as [|i]; simpl.
    + destruct (IH 0%nat Hall'). unfold zget. simpl. lia.
    + destruct (IH i Hall'). unfold zget in *. simpl. lia.
Qed.

(** One more visit of move [i]: the total and the sum of the counters
    stay in step, both saturating at 2^24. *)
Lemma tot_tries_step l i tot :
  (i < length l)%nat →
  (∀ j, (j < length l)%nat → 0 ≤ zget l j ≤ F32_EXACT) →
  tot = Z.min F32_EXACT (zsum l) →
  f32_add tot 1 = Z.min F32_EXACT (zsum (alter (λ t, f32_add t 1) i l)).
Proof.
  intros Hi Hall ->.
  destruct (zget_le_zsum l i) as [Hs Hle]; [intros j Hj; by apply Hall|].
  rewrite zsum_alter by done.
  rewrite !f32_incr; [|by apply Hall | unfold F32_EXACT in *; lia].
  specialize (Hall i Hi). lia.
Qed.
End ListFacts.

Section NodeStatistics.
Context {G R F : Type} `{!Game G, !RandomGen R, !FloatOps F}.
Local Abbreviation MyArena := (Arena (Node G)).
Implicit Types (a : MyArena) (nd : Node G) (p q this : ptr) (g : R).

Lemma child_new_node (s : G) i : child (new_node s) i = None.
Proof.
  unfold child, new_node. simpl.
  destruct (replicate n_moves None !! i) as [o|] eqn:Hl; [|done].
  apply lookup_replicate in Hl as [-> _]. done.
Qed.

Lemma node_ok_new (s : G) : node_ok (new_node s).
Proof.
  unfold node_ok. simpl. rewrite !length_replicate.
  repeat split; try done.
  - rewrite zget_zero. lia.
  - rewrite zget_zero. unfold F32_EXACT. lia.
  - rewrite child_new_node. by intros [? ?].
  - rewrite zget_zero. lia.
  - rewrite zsum_zero. done.
  - by left.
Qed.

Lemma node_ok_leaf nd :
  node_ok nd → winner (state nd) ≠ NONE → node_ok (set_tot_tries 1 nd).
Proof.
  intros (Hc & Ht & Hw & Hi & Hn & Hl) Hleaf.
  unfold node_ok. simpl. repeat split; try done; try (by apply Hi).
  - by apply Hl.
  - by apply Hl.
  - by apply Hl.
  - by right.
Qed.

(** The counters after [_update(mv, w)]. *)
Lemma update_counts nd mv w nd' :
  length (tries nd) = n_moves →
  (∀ i, i < n_moves → (0 ≤ zget (tries nd) i ≤ F32_EXACT)%Z) →
  tot_tries nd = Z.min F32_EXACT (zsum (tries nd)) →
  mv < n_moves →
  _update mv w nd = Ok nd' →
  length (tries nd') = n_moves ∧
  length (wins nd') = length (wins nd) ∧
  (∀ i, i < n_moves → (0 ≤ zget (tries nd') i ≤ F32_EXACT)%Z) ∧
  (0 < zget (tries nd') mv)%Z ∧
  (∀ i, i ≠ mv → zget (tries nd') i = zget (tries nd) i) ∧
  tot_tries nd' = Z.min F32_EXACT (zsum (tries nd')) ∧
  children nd' = children nd ∧ state nd' = state nd.
Proof.
  intros Ht Hi Hn Hmv Hu.
  apply update_Ok in Hu as [_ ->]. simpl.
  rewrite !length_alter.
  assert (zget (alter (λ t : Z, f32_add t 1) mv (tries nd)) mv
          = Z.min (zget (tries nd) mv + 1) F32_EXACT) as Emv.
  { rewrite zget_alter_eq by lia. by rewrite f32_incr by (by apply Hi). }
  pose proof (Hi mv Hmv) as Hmvb.
  split; [done|]. split; [done|]. split; [|split; [|split; [|split]]].
  - intros i Hilt. destruct (decide (i = mv)) as [->|Hne].
    + rewrite Emv. unfold F32_EXACT in *. lia.
    + rewrite zget_alter_ne by done. by apply Hi.
  - rewrite Emv. unfold F32_EXACT in *. lia.
  - intros i Hne. by rewrite zget_alter_ne.
  - apply tot_tries_step; [lia | intros j Hj; apply Hi; lia | done].
  - done.
Qed.

Lemma node_ok_select nd mv q w nd' :
  node_ok nd → winner (state nd) = NONE → mv < n_moves → child nd mv = Some q →
  outcome w → _update mv w nd = Ok nd' → node_ok nd'.
Proof.
  intros (Hc & Ht & Hw & Hi & Hn & Hl) Hnone Hmv Hch _ Hu.
  destruct (update_counts nd mv w nd') as (Ht' & Hw' & Hb & Hpos & Hoth & Htot & Hchildren & Hst);
    [done | by intros; apply Hi | by apply Hn | done | done |].
  assert (∀ i, child nd' i = child nd i) as Echild.
  { intros i. unfold child. by rewrite Hchildren. }
  unfold node_ok. rewrite Hst, Hchildren, Hw'.
  split; [done|]. split; [done|]. split; [done|]. split; [|split; [done|done]].
  intros i Hilt. split; [by apply Hb|]. rewrite Echild.
  destruct (decide (i = mv)) as [->|Hne].
  - rewrite Hch. split; eauto.
  - rewrite Hoth by done. by apply Hi.
Qed.

Lemma node_ok_expand nd mv q w nd' :
  node_ok nd → winner (state nd) = NONE → mv < n_moves → child nd mv = None →
  outcome w → _update mv w (set_child mv q nd) = Ok nd' → node_ok nd'.
Proof.
  intros (Hc & Ht & Hw & Hi & Hn & Hl) Hnone Hmv Hch _ Hu.
  destruct (update_counts (set_child mv q nd) mv w nd')
    as (Ht' & Hw' & Hb & Hpos & Hoth & Htot & Hchildren & Hst);
    [done | by intros; apply Hi | by apply Hn | done | done |].
  simpl in *.
  assert (∀ i, child nd' i = child (set_child mv q nd) i) as Echild.
  { intros i. unfold child. by rewrite Hchildren. }
  unfold node_ok. rewrite Hst, Hchildren, Hw', length_insert.
  split; [done|]. split; [done|]. split; [done|]. split; [|split; [done|done]].
  intros i Hilt. split; [by apply Hb|]. rewrite Echild.
  destruct (decide (i = mv)) as [->|Hne].
  - rewrite child_set_child_eq by lia. split; eauto.
  - rewrite child_set_child_ne, Hoth by done. by apply Hi.
Qed.

Lemma searched_ok (s0 : G) a :
  searched (R:=R) (F:=F) s0 a → wf NBLOCK a ∧ heap_all node_ok a.
Proof.
  induction 1 as [|a fuel g this g' a' w _ [Hwf Hall] Hrun].
  - split.
    + apply wf_alloc; [apply NBLOCK_pos | apply wf_new].
    + apply heap_all_alloc; [apply wf_new | | apply node_ok_new].
      intros p nd Hp. done.
  - eapply (ucb_rollout_pres node_ok) in Hrun
      as (Hwf' & Hall' & _ & _);
      eauto using node_ok_new, node_ok_leaf, node_ok_expand, node_ok_select.
Qed.

(** *** The outcome sums *)

Lemma wins_ok_new (s : G) : wins_ok (new_node s).
Proof.
  unfold wins_ok. simpl. rewrite !length_replicate.
  split; [done|]. split; [done|]. intros i. rewrite !zget_zero.
  unfold F32_EXACT. lia.
Qed.

Lemma wins_ok_update nd mv w nd' :
  wins_ok nd → (Z.abs w ≤ 1)%Z → _update mv w nd = Ok nd' → wins_ok nd'.
Proof.
  intros (Ht & Hw & Hi) Habs Hu. apply update_Ok in Hu as [_ ->].
  unfold wins_ok. simpl. rewrite !length_alter.
  split; [done|]. split; [done|]. intros i.
  destruct (decide (i = mv)) as [->|Hne].
  - destruct (decide (mv < n_moves)) as [Hlt|Hge].
    + rewrite !zget_alter_eq by lia.
      rewrite f32_round_exact by (unfold F32_EXACT; lia).
      rewrite f32_incr by apply Hi.
      pose proof (Hi mv) as [Hb Hwb].
      split; [unfold F32_EXACT in *; lia|].
      by apply f32_add_unit.
    + rewrite !zget_ge by (rewrite length_alter; lia).
      unfold F32_EXACT. lia.
  - rewrite !zget_alter_ne by done. apply Hi.
Qed.

Lemma outcome_unit w : winner_contract → outcome w → (Z.abs w ≤ 1)%Z.
Proof.
  intros Hc (s & <- & Hne).
  destruct (Hc s) as [Hw|[Hw|[Hw|Hw]]]; [rewrite Hw; unfold WIN, TIE, LOSS; lia..|done].
Qed.

Lemma searched_wins_ok (s0 : G) a :
  winner_contract → searched (R:=R) (F:=F) s0 a → heap_all wins_ok a.
Proof.
  intros Hc Hs.
  enough (wf NBLOCK a ∧ heap_all wins_ok a) by tauto.
  induction Hs as [|a fuel g this g' a' w _ [Hwf Hall] Hrun].
  - split.
    + apply wf_alloc; [apply NBLOCK_pos | apply wf_new].
    + apply heap_all_alloc; [apply wf_new | | apply wins_ok_new].
      intros p nd Hp. done.
  - eapply (ucb_rollout_pres wins_ok) in Hrun as (Hwf' & Hall' & _ & _);
      eauto using wins_ok_new.
    + intros nd mv q w0 nd' Hok _ _ _ Hout Hu.
      eapply wins_ok_update; [|by apply outcome_unit|exact Hu]. done.
    + intros nd mv q w0 nd' Hok _ _ _ Hout Hu.
      eapply wins_ok_update; [|by apply outcome_unit|exact Hu]. done.
Qed.

Lemma follow_reachable a root ms p : follow a root ms = Some p → reachable a root p.
Proof.
  enough (∀ q, reachable a root q → follow a q ms = Some p → reachable a root p) as H
    by (apply H; constructor).
  induction ms as [|m ms IH]; intros q Hq; simpl.
  - by intros [= <-].
  - destruct (load a q) as [nd|] eqn:Hl; [|done].
    destruct (default None (children nd !! m)) as [c|] eqn:Hc; [|done].
    apply IH. by eapply reach_child.
Qed.

Lemma searched_rollouts (s0 : G) fuel n g a g' a' :
  searched (R:=R) (F:=F) s0 a →
  rollouts (F:=F) fuel n g a (root_of s0) = Ok (g', a') → searched (R:=R) (F:=F) s0 a'.
Proof.
  revert g a. induction n as [|n IH]; intros g a Hs; simpl.
  - by intros [= _ <-].
  - intros H. apply rbind_Ok in H as ([[g1 a1] w1] & Hrun & H).
    eapply IH; [|exact H]. by eapply searched_rollout.
Qed.

(** ** Statistics of the search tree *)

(** C1 (as amended): in every tree built by rollouts, a node that is
    not a leaf has [tot_tries] equal to the sum of its [tries], both
    saturating at 2^24 where float increments stop being exact; a leaf
    has every [tries[i]] zero (the array is the all-zero array of
    [n_moves] entries, so its sum is zero too) and [tot_tries] 0 or 1. *)
Theorem tot_tries_matches_tries (s0 : G) a p nd :
  searched (R:=R) (F:=F) s0 a → load a p = Some nd →
  (winner (state nd) = NONE →
     tot_tries nd = Z.min F32_EXACT (zsum (tries nd))) ∧
  (winner (state nd) ≠ NONE →
     tries nd = replicate n_moves 0%Z ∧ (∀ i, zget (tries nd) i = 0%Z) ∧
     zsum (tries nd) = 0%Z ∧ (tot_tries nd = 0 ∨ tot_tries nd = 1)%Z).
Proof.
  intros Hs Hp. apply searched_ok in Hs as [_ Hall].
  destruct (Hall _ _ Hp) as (_ & _ & _ & _ & Hn & Hl).
  split; [done|]. intros Hleaf.
  destruct (Hl Hleaf) as (_ & Htr & _ & Htot). rewrite Htr.
  split; [done|]. split; [intros i; apply zget_zero|].
  by rewrite zsum_zero.
Qed.

(** C3: in every tree built by rollouts, [children[i]] is occupied
    exactly when [tries[i] > 0]. *)
Theorem explored_iff_tried (s0 : G) a p nd i :
  searched (R:=R) (F:=F) s0 a → load a p = Some nd → i < n_moves →
  is_move_explored nd i = true ↔ (0 < zget (tries nd) i)%Z.
Proof.
  intros Hs Hp Hi. apply searched_ok in Hs as [_ Hall].
  destruct (Hall _ _ Hp) as (_ & _ & _ & Hb & _).
  unfold is_move_explored. rewrite bool_decide_eq_true. by apply Hb.
Qed.

(** C7: when [winner] keeps to its four constants, in every tree built
    by rollouts [|wins[i]| <= tries[i]]. *)
Theorem wins_bounded_by_tries (s0 : G) a p nd i :
  winner_contract →
  searched (R:=R) (F:=F) s0 a → load a p = Some nd →
  (Z.abs (zget (wins nd) i) ≤ zget (tries nd) i)%Z.
Proof.
  intros Hc Hs Hp. eapply searched_wins_ok in Hs; [|done].
  destruct (Hs _ _ Hp) as (_ & _ & Hb). apply Hb.
Qed.

(** C2: [random_rollout] on a leaf stores [tot_tries = 1] in that node,
    returns the outcome, draws nothing from the generator, and leaves
    [tries], [wins] and [children] as they were, which in a tree built
    by rollouts is all zero and all empty. *)
Theorem random_rollout_leaf fuel g a p nd :
  load a p = Some nd → winner (state nd) ≠ NONE →
  ∃ a',
    random_rollout fuel g a p = Ok (g, a', winner (state nd)) ∧
    load a' p = Some (set_tot_tries 1 nd) ∧
    tot_tries (set_tot_tries 1 nd) = 1%Z ∧
    tries (set_tot_tries 1 nd) = tries nd ∧
    wins (set_tot_tries 1 nd) = wins nd ∧
    children (set_tot_tries 1 nd) = children nd ∧
    (∀ q, q ≠ p → load a' q = load a q) ∧
    (∀ s0, searched (R:=R) (F:=F) s0 a →
       tries nd = replicate n_moves 0%Z ∧
       wins nd = replicate n_moves 0%Z ∧
       children nd = replicate n_moves None).
Proof.
  intros Hp Hleaf. exists (store a p (set_tot_tries 1 nd)).
  split.
  { rewrite random_rollout_eq, Hp. simpl.
    destruct (winner_NONE_dec (state nd)) as [[-> _]|[_ ?]]; done. }
  split; [rewrite load_store_eq; eauto|].
  do 4 (split; [done|]).
  split; [intros q Hq; by rewrite load_store_ne|].
  intros s0 Hs. apply searched_ok in Hs as [_ Hall].
  destruct (Hall _ _ Hp) as (_ & _ & _ & _ & _ & Hl).
  destruct (Hl Hleaf) as (? & ? & ? & _). done.
Qed.

(** C4: [ucb_rollout] on a node whose state is decided returns that
    outcome and leaves the generator and the whole arena as they were. *)
Theorem ucb_rollout_terminal fuel g a p nd :
  load a p = Some nd → winner (state nd) ≠ NONE →
  ucb_rollout (F:=F) fuel g a p = Ok (g, a, winner (state nd)).
Proof.
  intros Hp Hleaf. rewrite ucb_rollout_eq, Hp. simpl.
  destruct (winner_NONE_dec (state nd)) as [[-> _]|[_ ?]]; done.
Qed.
End NodeStatistics.

(** ** Move selection *)

Section Selection.
Context {G R F : Type} `{!Game G, !RandomGen R, !FloatOps F}.
Local Abbreviation MyArena := (Arena (Node G)).
Implicit Types (a : MyArena) (nd : Node G) (g : R).

(** While no valid move below [i] is a proven win, the loop of
    [ucb_move] computes the UCB value of each of them and goes on; at
    the proven win [i] it returns at once. *)
Lemma ucb_scan_proven_win a nd i rest :
  is_valid (state nd) i = true → proven_win a nd i →
  ∀ d i0 ucb_max i_max seen,
    i0 + d = i →
    (∀ j, i0 ≤ j < i → is_valid (state nd) j = true →
          (∃ w, child_winner a nd j = Ok w) ∧ ¬ proven_win a nd j) →
    ucb_scan (F:=F) a nd (player_turn (state nd))
      (if player_turn (state nd) =? 0 then 1%Z else (-1)%Z)
      i0 (d + S rest) ucb_max i_max seen
    = Ok (i, seen ++ List.filter (is_valid (state nd)) (seq i0 d)).
Proof.
  intros Hvalid Hwin. induction d as [|d IH]; intros i0 ucb_max i_max seen Hi Hbelow.
  - rewrite Nat.add_0_r in Hi. subst i0. simpl. rewrite Hvalid. simpl.
    rewrite app_nil_r.
    destruct Hwin as [[Hp Hw]|[Hp Hw]]; rewrite Hp; simpl; rewrite Hw; simpl; done.
  - assert (∀ j, S i0 ≤ j < i → is_valid (state nd) j = true →
              (∃ w, child_winner a nd j = Ok w) ∧ ¬ proven_win a nd j) as Hbelow'.
    { intros j Hj Hvj. apply Hbelow; [lia | done]. }
    simpl. destruct (is_valid (state nd) i0) eqn:Hv; simpl.
    + destruct (Hbelow i0) as [[w Hw] Hnot]; [lia | done |].
      assert ((if player_turn (state nd) =? 0
               then do w <- child_winner a nd i0; Ok (w =? WIN)%Z
               else Ok false) = Ok false) as ->.
      { destruct (Nat.eqb_spec (player_turn (state nd)) 0) as [Hp|]; [|done].
        rewrite Hw. simpl. f_equal. apply Z.eqb_neq. intros ->.
        apply Hnot. by left. }
      simpl.
      assert ((if player_turn (state nd) =? 1
               then do w <- child_winner a nd i0; Ok (w =? LOSS)%Z
               else Ok false) = Ok false) as ->.
      { destruct (Nat.eqb_spec (player_turn (state nd)) 1) as [Hp|]; [|done].
        rewrite Hw. simpl. f_equal. apply Z.eqb_neq. intros ->.
        apply Hnot. by right. }
      simpl.
      destruct (fgt _ _); rewrite IH by first [lia | exact Hbelow'];
        by rewrite <- app_assoc.
    + rewrite IH by first [lia | exact Hbelow']. done.
Qed.

(** C6: with every valid move explored, [ucb_move] returns the first
    valid move [i] whose child is a decided WIN when player 0 moves, or
    a decided LOSS when player 1 moves; the UCB value was computed for
    the valid moves below [i] only. *)
Theorem ucb_move_returns_first_proven_win a nd i :
  n_unplayed_moves nd = 0 →
  (∀ j, j < n_moves → is_valid (state nd) j = true →
        ∃ q c, child nd j = Some q ∧ load a q = Some c) →
  i < n_moves → is_valid (state nd) i = true → proven_win a nd i →
  (∀ j, j < i → is_valid (state nd) j = true → ¬ proven_win a nd j) →
  ∃ seen,
    ucb_move_traced (F:=F) a nd = Ok (i, seen) ∧
    ucb_move (F:=F) a nd = Ok i ∧
    seen = List.filter (is_valid (state nd)) (seq 0 i) ∧
    Forall (λ k, k < i) seen.
Proof.
  intros Hun Hexp Hi Hvalid Hwin Hfirst.
  exists (List.filter (is_valid (state nd)) (seq 0 i)).
  assert (ucb_move_traced (F:=F) a nd
          = Ok (i, List.filter (is_valid (state nd)) (seq 0 i))) as Htr.
  { unfold ucb_move_traced. rewrite Hun. simpl.
    replace n_moves with (i + S (n_moves - S i)) by lia.
    rewrite (ucb_scan_proven_win a nd i); try done.
    intros j Hj Hv. split; [|apply Hfirst; [lia|done]].
    destruct (Hexp j) as (q & c & Hq & Hc); [lia | done |].
    exists (winner (state c)). unfold child_winner.
    rewrite Hq. simpl. by rewrite Hc. }
  split; [done|]. split; [unfold ucb_move; by rewrite Htr|]. split; [done|].
  apply Forall_forall. intros k Hk.
  apply list_elem_of_In, List.filter_In in Hk as [Hk _].
  apply in_seq in Hk. lia.
Qed.

(** C9: with [n_valid_moves] equal to the number of valid indices and a
    distribution that keeps to its bounds, [random_move] draws [k] from
    [1, n_valid_moves] and returns the index where the running count of
    valid moves first reaches [k]; every valid index is returned for
    exactly one [k], so a uniform [k] gives a uniform valid move.
    [random_unplayed_move] does the same over the valid indices with
    [tries] zero. *)
Theorem random_moves_pick_kth g nd :
  dist_contract (R:=R) →
  n_valid_moves (state nd) = count_upto (is_valid (state nd)) n_moves →
  0 < n_valid_moves (state nd) →
  (∃ i,
     let '(k, g') := uniform_int 1 (n_valid_moves (state nd)) g in
     1 ≤ k ≤ n_valid_moves (state nd) ∧
     random_move g nd = Ok (i, g') ∧
     i < n_moves ∧ is_valid (state nd) i = true ∧
     count_upto (is_valid (state nd)) i = k - 1 ∧
     count_upto (is_valid (state nd)) (S i) = k) ∧
  (∀ j, j < n_moves → is_valid (state nd) j = true →
     ∃ k, 1 ≤ k ≤ n_valid_moves (state nd) ∧
          scan_kth (is_valid (state nd)) k 0 0 n_moves = Ok j ∧
          ∀ k', 1 ≤ k' ≤ n_valid_moves (state nd) →
                scan_kth (is_valid (state nd)) k' 0 0 n_moves = Ok j → k' = k) ∧
  (0 < n_unplayed_moves nd →
     (∃ i,
        let '(k, g') := uniform_int 1 (n_unplayed_moves nd) g in
        1 ≤ k ≤ n_unplayed_moves nd ∧
        random_unplayed_move g nd = Ok (i, g') ∧
        i < n_moves ∧ is_valid (state nd) i = true ∧ zget (tries nd) i = 0%Z ∧
        count_upto (unplayed nd) i = k - 1 ∧
        count_upto (unplayed nd) (S i) = k) ∧
     (∀ j, j < n_moves → unplayed nd j = true →
        ∃ k, 1 ≤ k ≤ n_unplayed_moves nd ∧
             scan_kth (unplayed nd) k 0 0 n_moves = Ok j ∧
             ∀ k', 1 ≤ k' ≤ n_unplayed_moves nd →
                   scan_kth (unplayed nd) k' 0 0 n_moves = Ok j → k' = k)).
Proof.
  intros Hdist Hcount Hpos.
  assert (∀ (p : nat → bool) n j, j < n_moves → p j = true →
    n = count_upto p n_moves →
    ∃ k, 1 ≤ k ≤ n ∧ scan_kth p k 0 0 n_moves = Ok j ∧
      ∀ k', 1 ≤ k' ≤ n → scan_kth p k' 0 0 n_moves = Ok j → k' = k) as Huniq.
  { intros p n j Hj Hp ->.
    destruct (scan_kth_rank p n_moves j Hj Hp) as [Hr Hs].
    exists (count_upto p (S j)). split; [done|]. split; [done|].
    intros k' Hk' Hs'.
    destruct (scan_kth_spec p n_moves k' Hk') as (j' & Hj' & _ & _ & Hc').
    rewrite Hs' in Hj'. by injection Hj' as ->. }
  split; [|split; [by eauto|]].
  - pose proof (Hdist _ g Hpos) as Hk.
    destruct (uniform_int 1 (n_valid_moves (state nd)) g) as [k g'] eqn:Eu.
    simpl in Hk.
    destruct (scan_kth_spec (is_valid (state nd)) n_moves k) as (i & Hs & Hi & Hv & Hc);
      [lia|].
    exists i. split; [done|]. unfold random_move. rewrite Eu, Hs. simpl.
    repeat split; try done.
    simpl in Hc. rewrite Hv in Hc. lia.
  - intros Hun. split; [|by eauto].
    pose proof (Hdist _ g Hun) as Hk.
    destruct (uniform_int 1 (n_unplayed_moves nd) g) as [k g'] eqn:Eu.
    simpl in Hk.
    destruct (scan_kth_spec (unplayed nd) n_moves k) as (i & Hs & Hi & Hv & Hc);
      [done|].
    exists i. split; [done|]. unfold random_unplayed_move.
    destruct (Nat.ltb_spec 0 (n_unplayed_moves nd)); [|lia]. simpl.
    rewrite Eu, Hs. simpl.
    pose proof Hv as Hv'. unfold unplayed in Hv'.
    apply andb_true_iff in Hv' as [Ht Hval]. apply Z.eqb_eq in Ht.
    repeat split; try done.
    simpl in Hc. rewrite Hv in Hc. lia.
Qed.
End Selection.

(** ** Pointer stability of the arena *)

Section ArenaStability.
Context {T : Type}.
Variable NBlock : nat.
Implicit Types (a : Arena T) (p q : ptr) (x y : T).

Lemma allocs_wf a xs : 0 < NBlock → wf NBlock a → wf NBlock (allocs NBlock a xs).1.
Proof.
  intros Hpos. revert a. induction xs as [|x xs IH]; intros a Hwf; simpl; [done|].
  pose proof (wf_alloc NBlock a x Hpos Hwf) as Hwf1.
  destruct (alloc NBlock a x) as [a1 p1]. simpl in Hwf1.
  specialize (IH a1 Hwf1).
  destruct (allocs NBlock a1 xs) as [a2 ps]. done.
Qed.

Lemma allocs_stable a xs p y :
  0 < NBlock → wf NBlock a → load a p = Some y →
  load (allocs NBlock a xs).1 p = Some y.
Proof.
  intros Hpos. revert a. induction xs as [|x xs IH]; intros a Hwf Hl; simpl; [done|].
  pose proof (wf_alloc NBlock a x Hpos Hwf) as Hwf1.
  pose proof (load_alloc_old NBlock a x p y Hpos Hwf Hl) as Hl1.
  destruct (alloc NBlock a x) as [a1 p1]. simpl in Hwf1, Hl1.
  specialize (IH a1 Hwf1 Hl1).
  destruct (allocs NBlock a1 xs) as [a2 ps]. done.
Qed.

(** The model tells a stable pointer from a dangling one: with a block
    size of 0 no capacity is reserved, the second [alloc] grows the front
    vector, and the first pointer no longer reads anything. *)
Example alloc_without_capacity_relocates :
  let '(a1, p) := alloc 0 (@arena_new nat) 10 in
  load a1 p = Some 10 ∧ load (alloc 0 a1 11).1 p = None.
Proof. split; reflexivity. Qed.

(** C8: for a positive block size, in an arena built by [alloc] and
    [clear] calls, the pointer returned by [alloc] reads the allocated
    object, and still reads it after any later run of [alloc] calls;
    an [alloc] leaves every earlier element readable and unchanged
    through its old pointer, and either puts a new block in front of the
    untouched list or appends to the front block in place; after
    [clear] the pointer reads nothing. *)
Theorem alloc_pointers_stable a x xs :
  0 < NBlock → built NBlock a →
  let a1 := (alloc NBlock a x).1 in
  let p := (alloc NBlock a x).2 in
  let a2 := (allocs NBlock a1 xs).1 in
  load a1 p = Some x ∧
  load a2 p = Some x ∧
  (∀ q y, load a q = Some y → load a1 q = Some y ∧ load a2 q = Some y) ∧
  (∃ v,
     blocks a1 = v :: blocks a ∨
     (∃ v0 rest, blocks a = v0 :: rest ∧ blocks a1 = v :: rest ∧
                 vbuf v = vbuf v0 ∧ vcap v = vcap v0 ∧ vdata v = vdata v0 ++ [x])) ∧
  load (clear a2) p = None.
Proof.
  intros Hpos Hb. apply wf_built in Hb; [|done]. intros a1 p a2.
  assert (wf NBlock a1) as Hwf1 by (by apply wf_alloc).
  assert (load a1 p = Some x) as Hp by (by apply load_alloc_new).
  split; [done|].
  split; [by apply allocs_stable|].
  split.
  { intros q y Hq.
    assert (load a1 q = Some y) by (by apply load_alloc_old).
    split; [done | by apply allocs_stable]. }
  split; [|done].
  subst a1.
  destruct (alloc_shape NBlock a x Hpos Hb) as [[_ ->]|(v & rest & Hbl & _ & ->)]; simpl.
  - eexists. by left.
  - eexists. right. exists v, rest. done.
Qed.
End ArenaStability.

(** ** The first rollout from a fresh node *)

Section FirstRollout.
Context {G R F : Type} `{!Game G, !RandomGen R, !FloatOps F}.
Local Abbreviation MyArena := (Arena (Node G)).
Implicit Types (a : MyArena) (nd : Node G) (p q this : ptr) (g : R).

Lemma count_upto_ext (p1 p2 : nat → bool) n :
  (∀ i, i < n → p1 i = p2 i) → count_upto p1 n = count_upto p2 n.
Proof.
  induction n as [|n IH]; intros Hext; simpl; [done|].
  rewrite IH, (Hext n) by (intros; try apply Hext; lia). done.
Qed.

Lemma unplayed_new_node (s : G) i : unplayed (new_node s) i = is_valid s i.
Proof. unfold unplayed, new_node. simpl. by rewrite zget_zero. Qed.

Lemma n_unplayed_new_node (s : G) :
  n_unplayed_moves (new_node s) = count_upto (is_valid s) n_moves.
Proof. apply count_upto_ext. intros i _. apply unplayed_new_node. Qed.

Lemma bounded_game_step h (s : G) :
  winner s = NONE → bounded_game (S h) s = true →
  0 < count_upto (is_valid s) n_moves ∧
  ∀ i, i < n_moves → is_valid s i = true → bounded_game h (move s i) = true.
Proof.
  intros Hn. simpl. rewrite Hn. simpl. intros Hb.
  apply andb_true_iff in Hb as [Hc Hall]. apply Nat.ltb_lt in Hc.
  split; [done|]. intros i Hi Hv.
  rewrite List.forallb_forall in Hall.
  specialize (Hall i). rewrite Hv in Hall. apply Hall.
  apply in_seq. lia.
Qed.

Lemma bounded_game_0 (s : G) : winner s = NONE → bounded_game 0 s = false.
Proof. intros Hn. simpl. by rewrite Hn. Qed.

Lemma path_to_leaf_store a this x q l :
  this ≠ q → this ∉ l → path_to_leaf a q l → path_to_leaf (store a this x) q l.
Proof.
  revert q. induction l as [|c l IH]; intros q Hq Hl (nd & Hnd & Hrest); simpl.
  - exists nd. by rewrite load_store_ne.
  - apply not_elem_of_cons in Hl as [Hc Hl].
    destruct Hrest as (Hn & (mv & cn & Hmv & Hv & Hch & Hcn & Hst) & Hpath).
    exists nd. rewrite load_store_ne by done. split; [done|]. split; [done|].
    split; [|by apply IH].
    exists mv, cn. by rewrite load_store_ne.
Qed.

(** From a fresh node, with a game that ends within [f] moves and a
    distribution that keeps to its bounds, [random_rollout] returns; it
    leaves a single chain of new nodes from [this] down to a leaf, and
    touches no other node that was in the arena. *)
Lemma random_rollout_fresh f :
  dist_contract (R:=R) →
  ∀ g a this (s : G),
    wf NBLOCK a → load a this = Some (new_node s) → bounded_game f s = true →
    ∃ g' a' w l nd',
      random_rollout f g a this = Ok (g', a', w) ∧
      wf NBLOCK a' ∧ w ≠ NONE ∧
      load a' this = Some nd' ∧ state nd' = s ∧
      path_to_leaf a' this l ∧
      (winner s = NONE → l ≠ []) ∧
      Forall (λ q, load a q = None) l ∧
      (∀ q nd, q ≠ this → load a q = Some nd → load a' q = Some nd).
Proof.
  intros Hdist. induction f as [|f IH]; intros g a this s Hwf Hthis Hb;
    rewrite random_rollout_eq, Hthis; simpl;
    destruct (winner_NONE_dec s) as [[Hneg Hw]|[Hneg Hw]]; rewrite Hneg.
  1,3: exists g, (store a this (set_tot_tries 1 (new_node s))), (winner s), [],
           (set_tot_tries 1 (new_node s));
    (split; [done|]); (split; [by apply wf_store|]); (split; [done|]);
    (split; [rewrite load_store_eq; eauto|]); (split; [done|]);
    (split; [exists (set_tot_tries 1 (new_node s));
             rewrite load_store_eq by eauto; done|]);
    (split; [done|]); (split; [constructor|]);
    intros q nd Hq Hl; by rewrite load_store_ne.
  { by rewrite bounded_game_0 in Hb. }
  destruct (bounded_game_step f s Hw Hb) as [Hcount Hmoves].
  (* the move *)
  unfold random_unplayed_move. rewrite n_unplayed_new_node.
  destruct (Nat.ltb_spec 0 (count_upto (is_valid s) n_moves)); [|lia]. simpl.
  pose proof (Hdist _ g Hcount) as Hk.
  destruct (uniform_int 1 (count_upto (is_valid s) n_moves) g) as [k g1]. simpl in Hk.
  destruct (scan_kth_spec (unplayed (new_node s)) n_moves k) as (mv & Hs & Hmv & Hv & _).
  { by rewrite (count_upto_ext _ (is_valid s)) by (intros; apply unplayed_new_node). }
  rewrite Hs. simpl. rewrite unplayed_new_node in Hv.
  (* the new child *)
  pose proof (wf_alloc NBLOCK a (new_node (move s mv)) NBLOCK_pos Hwf) as Hwf1.
  pose proof (load_alloc_new NBLOCK a (new_node (move s mv)) NBLOCK_pos Hwf) as Hnode.
  pose proof (alloc_fresh NBLOCK a (new_node (move s mv)) NBLOCK_pos Hwf) as Hfresh.
  pose proof (load_alloc_old NBLOCK a (new_node (move s mv))) as Hold.
  destruct (alloc NBLOCK a (new_node (move s mv))) as [a1 node]. simpl in *.
  assert (this ≠ node) as Hne by (intros ->; congruence).
  destruct (IH g1 a1 node (move s mv) Hwf1 Hnode (Hmoves mv Hmv Hv))
    as (g2 & a2 & w & l & ndc & Hrun & Hwf2 & Hwn & Hc & Hcs & Hpath & _ & Hnew & Hframe).
  rewrite Hrun. simpl.
  rewrite (Hframe this (new_node s)) by eauto using NBLOCK_pos. simpl.
  rewrite child_new_node. simpl.
  destruct (update_total mv w (set_child mv node (new_node s)) Hwn) as [nd3 Hup].
  rewrite Hup. simpl.
  pose proof Hup as Hup'. apply update_Ok in Hup' as [_ Hnd3].
  assert (∀ c, c ∈ node :: l → load a c = None) as Hfresh_all.
  { intros c Hin. apply elem_of_cons in Hin as [->|Hin]; [done|].
    rewrite Forall_forall in Hnew. specialize (Hnew c Hin).
    destruct (load a c) as [y|] eqn:Hy; [|done].
    rewrite (Hold c y) in Hnew; eauto using NBLOCK_pos. }
  assert (this ∉ l) as Hnotin.
  { intros Hin. rewrite (Hfresh_all this) in Hthis; [done|]. by right. }
  exists g2, (store a2 this nd3), w, (node :: l), nd3.
  split; [done|]. split; [by apply wf_store|]. split; [done|].
  assert (is_Some (load a2 this)) as Hsome.
  { rewrite (Hframe this (new_node s)); eauto using NBLOCK_pos. }
  split; [by rewrite load_store_eq|]. split; [by subst nd3|].
  split.
  { simpl. exists nd3. rewrite load_store_eq by done. split; [done|].
    subst nd3. simpl. split; [done|]. split.
    - exists mv, ndc. rewrite load_store_ne by done. done.
    - by apply path_to_leaf_store. }
  split; [done|].
  split.
  { apply Forall_forall. intros c Hin. by apply Hfresh_all. }
  intros q nd Hq Hl. rewrite load_store_ne by done.
  apply Hframe; [|eauto using NBLOCK_pos].
  intros ->. congruence.
Qed.

(** C5: the first [ucb_rollout] from a fresh node of an undecided
    state returns, when the game ends within [fuel] moves; afterwards
    the node has exactly one occupied slot, and the children links from
    there form one chain in which every node has exactly one occupied
    slot, up to a last node, which is a leaf. *)
Theorem first_rollout_builds_path fuel g a this (s : G) :
  dist_contract (R:=R) → wf NBLOCK a →
  load a this = Some (new_node s) → winner s = NONE → bounded_game fuel s = true →
  ∃ g' a' w q l,
    ucb_rollout (F:=F) fuel g a this = Ok (g', a', w) ∧
    path_to_leaf a' this (q :: l).
Proof.
  intros Hdist Hwf Hthis Hn Hb.
  destruct (random_rollout_fresh fuel Hdist g a this s Hwf Hthis Hb)
    as (g' & a' & w & l & nd' & Hrun & _ & _ & _ & _ & Hpath & Hl & _).
  destruct l as [|q l]; [by destruct (Hl Hn)|].
  exists g', a', w, q, l. split; [|done].
  rewrite ucb_rollout_eq, Hthis. simpl.
  destruct (winner_NONE_dec s) as [[_ ?]|[-> _]]; [done|].
  rewrite n_unplayed_new_node.
  destruct fuel as [|f]; [by rewrite bounded_game_0 in Hb|].
  destruct (bounded_game_step f s Hn Hb) as [Hc _].
  destruct (Nat.ltb_spec 0 (count_upto (is_valid s) n_moves)); [done | lia].
Qed.
End FirstRollout.

(** ** The driver is a function of the generator state and the budget *)

Section Determinism.
Context {G R F : Type} `{!Game G, !RandomGen R, !FloatOps F}.
Local Abbreviation MyArena := (Arena (Node G)).
Implicit Types (a : MyArena) (nd : Node G) (p q this : ptr) (g : R).

Local Arguments random_rollout : simpl never.
Local Arguments ucb_rollout : simpl never.
Local Arguments play_loop : simpl never.

Lemma rbind_fuel {A B : Type} (m : result A) (k : A → result B) :
  rbind m k ≠ OutOfFuel → m ≠ OutOfFuel.
Proof. by destruct m. Qed.

(** More fuel does not change a result that did not run out of it. *)
Lemma random_rollout_mono f f' g a this :
  f ≤ f' → random_rollout f g a this ≠ OutOfFuel →
  random_rollout f' g a this = random_rollout f g a this.
Proof.
  revert f' g a this. induction f as [|f IH]; intros f' g a this Hle;
    rewrite (random_rollout_eq f'), (random_rollout_eq _ g a this);
    destruct (deref (load a this)) as [nd| |]; simpl; try done;
    destruct (negb (winner (state nd) =? NONE)%Z); try done.
  destruct f' as [|f']; [lia|].
  destruct (random_unplayed_move g nd) as [[mv g1]| |]; simpl; try done.
  destruct (alloc NBLOCK a (new_node (move (state nd) mv))) as [a1 node].
  intros Hrun. apply rbind_fuel in Hrun as Hrec.
  rewrite (IH f') by (done || lia). done.
Qed.

Lemma ucb_rollout_mono f f' g a this :
  f ≤ f' → ucb_rollout (F:=F) f g a this ≠ OutOfFuel →
  ucb_rollout (F:=F) f' g a this = ucb_rollout (F:=F) f g a this.
Proof.
  revert f' g a this. induction f as [|f IH]; intros f' g a this Hle;
    rewrite (ucb_rollout_eq f'), (ucb_rollout_eq _ g a this);
    destruct (deref (load a this)) as [nd| |]; simpl; try done;
    destruct (negb (winner (state nd) =? NONE)%Z); try done;
    (destruct (0 <? n_unplayed_moves nd); [by apply random_rollout_mono|]);
    try done.
  destruct f' as [|f']; [lia|].
  destruct (ucb_move a nd) as [mv| |]; simpl; try done.
  destruct (deref (child nd mv)) as [c| |]; simpl; try done.
  intros Hrun. apply rbind_fuel in Hrun as Hrec.
  rewrite (IH f') by (done || lia). done.
Qed.

Lemma rollouts_mono f f' n g a this :
  f ≤ f' → rollouts (F:=F) f n g a this ≠ OutOfFuel →
  rollouts (F:=F) f' n g a this = rollouts (F:=F) f n g a this.
Proof.
  intros Hle. revert g a. induction n as [|n IH]; intros g a; simpl; [done|].
  intros Hrun. apply rbind_fuel in Hrun as Hrec.
  rewrite (ucb_rollout_mono f f') by done.
  destruct (ucb_rollout f g a this) as [[[g1 a1] w]| |]; simpl in *; try done.
  by apply IH.
Qed.

Lemma play_loop_eq fuel n g a tree sh mh :
  play_loop (F:=F) fuel n g a tree sh mh =
  do nd <- deref (load a tree);
  if negb (winner (state nd) =? NONE)%Z then Ok (sh, mh)
  else
    match fuel with
    | 0 => OutOfFuel
    | S f =>
        let player := player_turn (state nd) in
        do (g1, a1, mv) <-
          (if player =? 0 then
             do (g1, a1) <- rollouts (F:=F) fuel n g a tree;
             do nd1 <- deref (load a1 tree);
             do mv <- ucb_move a1 nd1;
             Ok (g1, a1, mv)
           else if player =? 1 then
             do (mv, g1) <- random_move g nd;
             do _ <- cassert (is_move_explored nd mv);
             Ok (g1, a, mv)
           else Abort);
        do nd1 <- deref (load a1 tree);
        do tree' <- deref (child nd1 mv);
        do nd' <- deref (load a1 tree');
        play_loop (F:=F) f n g1 a1 tree' (sh ++ [state nd']) (mh ++ [mv])
    end.
Proof. by destruct fuel. Qed.

Lemma play_loop_mono f f' n g a tree sh mh :
  f ≤ f' → play_loop (F:=F) f n g a tree sh mh ≠ OutOfFuel →
  play_loop (F:=F) f' n g a tree sh mh = play_loop (F:=F) f n g a tree sh mh.
Proof.
  revert f' g a tree sh mh. induction f as [|f IH]; intros f' g a tree sh mh Hle;
    rewrite (play_loop_eq f'), (play_loop_eq _ n g a tree);
    destruct (deref (load a tree)) as [nd| |]; simpl; try done;
    destruct (negb (winner (state nd) =? NONE)%Z); try done.
  destruct f' as [|f']; [lia|].
  intros Hrun. apply rbind_fuel in Hrun as Hsel.
  assert ((if player_turn (state nd) =? 0 then
             do (g1, a1) <- rollouts (F:=F) (S f') n g a tree;
             do nd1 <- deref (load a1 tree);
             do mv <- ucb_move a1 nd1;
             Ok (g1, a1, mv)
           else if player_turn (state nd) =? 1 then
             do (mv, g1) <- random_move g nd;
             do _ <- cassert (is_move_explored nd mv);
             Ok (g1, a, mv)
           else Abort)
          = (if player_turn (state nd) =? 0 then
             do (g1, a1) <- rollouts (F:=F) (S f) n g a tree;
             do nd1 <- deref (load a1 tree);
             do mv <- ucb_move a1 nd1;
             Ok (g1, a1, mv)
           else if player_turn (state nd) =? 1 then
             do (mv, g1) <- random_move g nd;
             do _ <- cassert (is_move_explored nd mv);
             Ok (g1, a, mv)
           else Abort)) as ->.
  { destruct (player_turn (state nd) =? 0); [|done].
    apply rbind_fuel in Hsel. by rewrite (rollouts_mono (S f) (S f')) by (done || lia). }
  match goal with |- rbind ?m _ = _ => destruct m as [[[g1 a1] mv]| |] end;
    simpl in *; try done.
  destruct (deref (load a1 tree)) as [nd1| |]; simpl in *; try done.
  destruct (deref (child nd1 mv)) as [tree'| |]; simpl in *; try done.
  destruct (deref (load a1 tree')) as [nd'| |]; simpl in *; try done.
  apply IH; [lia | done].
Qed.

Lemma play_vs_random_mono f f' g n :
  f ≤ f' → play_vs_random (F:=F) f g n ≠ OutOfFuel →
  play_vs_random (F:=F) f' g n = play_vs_random (F:=F) f g n.
Proof.
  unfold play_vs_random. intros Hle.
  destruct (alloc NBLOCK arena_new (new_node game_new)) as [arena tree].
  destruct (deref (load arena tree)) as [nd| |]; simpl; try done.
  by apply play_loop_mono.
Qed.

(** C10: two runs of [play_vs_random] from the same generator state
    with the same budget that both return, return the same state and
    move histories, whatever recursion bounds they were given. *)
Theorem play_vs_random_deterministic f1 f2 (g1 g2 : R) n1 n2 r1 r2 :
  g1 = g2 → n1 = n2 →
  play_vs_random (F:=F) f1 g1 n1 = Ok r1 →
  play_vs_random (F:=F) f2 g2 n2 = Ok r2 →
  r1 = r2.
Proof.
  intros -> -> H1 H2.
  assert (play_vs_random (F:=F) (f1 `max` f2) g2 n2 = Ok r1) as H1'.
  { rewrite <- H1. apply play_vs_random_mono; [lia | by rewrite H1]. }
  assert (play_vs_random (F:=F) (f1 `max` f2) g2 n2 = Ok r2) as H2'.
  { rewrite <- H2. apply play_vs_random_mono; [lia | by rewrite H2]. }
  congruence.
Qed.
End Determinism.

(** ** The model on TicTacToe *)

Section TicTacToeRuns.
Import TTT.
Local Abbreviation TArena := (Arena (Node TicTacToe)).

Lemma ttt_winner_contract : winner_contract (G:=TicTacToe).
Proof.
  intros s. simpl. unfold ttt_winner.
  destruct (negb _ && _); [tauto|].
  destruct (is_win (xos0 s)); [tauto|].
  destruct (is_win (xos1 s)); tauto.
Qed.

(** On every board of nine cells [n_valid_moves] is the number of
    valid moves. *)
Lemma ttt_valid_count (t : TicTacToe) :
  (0 ≤ board t < 512)%Z →
  n_valid_moves t = count_upto (is_valid t) n_moves.
Proof.
  intros Hb. simpl. unfold ttt_n_valid_moves, ttt_is_valid.
  set (b := board t) in *.
  assert (forallb (λ k : nat,
            Z.to_nat ((9 - bitcount (Z.of_nat k)) mod U32) =?
            count_upto (λ mv, (Z.land (Z.shiftl 1 (Z.of_nat mv) mod U32) (Z.of_nat k) =? 0)%Z) 9)
          (seq 0 512) = true) as Hall by (vm_compute; reflexivity).
  rewrite List.forallb_forall in Hall.
  specialize (Hall (Z.to_nat b)). rewrite Z2Nat.id in Hall by lia.
  apply Nat.eqb_eq, Hall, in_seq. lia.
Qed.

Lemma minstd_dist_contract : dist_contract (R:=Z).
Proof.
  intros n g Hn. simpl.
  pose proof (Z.mod_pos_bound (minstd_next g) (Z.of_nat (n - 1 + 1))). lia.
Qed.

Lemma ttt_search_searched fuel n seed g' a' :
  ttt_search fuel n seed = Ok (g', a') →
  searched (R:=Z) (F:=Z) (game_new : TicTacToe) a'.
Proof.
  unfold ttt_search. intros H.
  eapply (searched_rollouts game_new fuel n seed); [constructor|].
  unfold root_of.
  by destruct (alloc NBLOCK arena_new (new_node game_new)).
Qed.

Lemma ttt_arena1_searched : searched (R:=Z) (F:=Z) (game_new : TicTacToe) ttt_arena1.
Proof.
  eapply (ttt_search_searched 9 1 42%Z). vm_compute. reflexivity.
Qed.

(** The claim of C1 as stated fails at the leaf that ends the first
    rollout: it is linked from the root, its [tot_tries] is 1 and all
    its [tries] are 0. *)
Lemma tot_tries_differs_at_leaf :
  searched (R:=Z) (F:=Z) (game_new : TicTacToe) ttt_arena1 ∧
  reachable ttt_arena1 (root_of (game_new : TicTacToe)) (1, 9) ∧
  load ttt_arena1 (1, 9) = Some ttt_leaf1 ∧
  winner (state ttt_leaf1) = WIN ∧
  tot_tries ttt_leaf1 = 1%Z ∧ zsum (tries ttt_leaf1) = 0%Z ∧
  tot_tries ttt_leaf1 ≠ zsum (tries ttt_leaf1).
Proof.
  split; [apply ttt_arena1_searched|].
  split; [apply (follow_reachable _ _ [6; 8; 4; 7; 1; 2; 5; 0; 3]); reflexivity|].
  repeat split; done.
Qed.

Lemma tot_tries_matches_tries_witness :
  load ttt_arena1 (1, 0) = Some ttt_root1 ∧ winner (state ttt_root1) = NONE ∧
  tot_tries ttt_root1 = Z.min F32_EXACT (zsum (tries ttt_root1)) ∧
  load ttt_arena1 (1, 9) = Some ttt_leaf1 ∧ winner (state ttt_leaf1) ≠ NONE ∧
  tries ttt_leaf1 = replicate n_moves 0%Z ∧
  (tot_tries ttt_leaf1 = 0 ∨ tot_tries ttt_leaf1 = 1)%Z.
Proof.
  split; [reflexivity|]. split; [reflexivity|].
  destruct (tot_tries_matches_tries (R:=Z) (F:=Z) game_new ttt_arena1 (1, 0) ttt_root1)
    as [Hnode _]; [apply ttt_arena1_searched | reflexivity |].
  split; [apply Hnode; reflexivity|].
  split; [reflexivity|]. split; [done|].
  destruct (tot_tries_matches_tries (R:=Z) (F:=Z) game_new ttt_arena1 (1, 9) ttt_leaf1)
    as [_ Hleaf]; [apply ttt_arena1_searched | reflexivity |].
  destruct (Hleaf ltac:(done)) as (Htr & _ & _ & Htot).
  split; [exact Htr | exact Htot].
Defined.

Lemma random_rollout_leaf_witness :
  load ttt_arena1 (1, 9) = Some ttt_leaf1 ∧ winner (state ttt_leaf1) ≠ NONE ∧
  ∃ a', random_rollout 0 7%Z ttt_arena1 (1, 9) = Ok (7%Z, a', WIN) ∧
        load a' (1, 9) = Some (set_tot_tries 1 ttt_leaf1).
Proof.
  split; [reflexivity|]. split; [done|].
  destruct (random_rollout_leaf (R:=Z) (F:=Z) 0 7%Z ttt_arena1 (1, 9) ttt_leaf1)
    as (a' & Hrun & Hload & _); [reflexivity | done |].
  exists a'. split; [exact Hrun | exact Hload].
Defined.

Lemma explored_iff_tried_witness :
  load ttt_arena1 (1, 0) = Some ttt_root1 ∧ 6 < n_moves (G:=TicTacToe) ∧
  (is_move_explored ttt_root1 6 = true ↔ (0 < zget (tries ttt_root1) 6)%Z).
Proof.
  split; [reflexivity|]. split; [simpl; lia|].
  apply (explored_iff_tried (R:=Z) (F:=Z) game_new ttt_arena1 (1, 0) ttt_root1 6);
    [apply ttt_arena1_searched | reflexivity | simpl; lia].
Defined.

Lemma ucb_rollout_terminal_witness :
  load ttt_arena1 (1, 9) = Some ttt_leaf1 ∧ winner (state ttt_leaf1) ≠ NONE ∧
  ucb_rollout (F:=Z) 0 7%Z ttt_arena1 (1, 9) = Ok (7%Z, ttt_arena1, WIN).
Proof.
  split; [reflexivity|]. split; [done|].
  change WIN with (winner (state ttt_leaf1)).
  apply (ucb_rollout_terminal (F:=Z) 0 7%Z ttt_arena1 (1, 9) ttt_leaf1);
    [reflexivity | done].
Defined.

Lemma wins_bounded_by_tries_witness :
  load ttt_arena1 (1, 0) = Some ttt_root1 ∧
  (Z.abs (zget (wins ttt_root1) 6) ≤ zget (tries ttt_root1) 6)%Z.
Proof.
  split; [reflexivity|].
  apply (wins_bounded_by_tries (R:=Z) (F:=Z) game_new ttt_arena1 (1, 0) ttt_root1 6);
    [apply ttt_winner_contract | apply ttt_arena1_searched | reflexivity].
Defined.

Lemma first_rollout_builds_path_witness :
  winner ttt_mid = NONE ∧ bounded_game 7 ttt_mid = true ∧
  ∃ g' a' w q l,
    ucb_rollout (F:=Z) 7 42%Z (alloc NBLOCK arena_new (new_node ttt_mid)).1 (1, 0)
      = Ok (g', a', w) ∧
    path_to_leaf a' (1, 0) (q :: l).
Proof.
  split; [reflexivity|]. split; [vm_compute; reflexivity|].
  apply (first_rollout_builds_path (R:=Z) (F:=Z) 7 42%Z
           (alloc NBLOCK arena_new (new_node ttt_mid)).1 (1, 0) ttt_mid).
  - apply minstd_dist_contract.
  - apply wf_alloc; [apply NBLOCK_pos | apply wf_new].
  - reflexivity.
  - reflexivity.
  - vm_compute. reflexivity.
Defined.

Lemma alloc_pointers_stable_witness :
  let a1 := (alloc 2 (@arena_new nat) 10).1 in
  let p := (alloc 2 (@arena_new nat) 10).2 in
  0 < 2 ∧ built 2 (@arena_new nat) ∧
  load a1 p = Some 10 ∧
  load (allocs 2 a1 [11; 12; 13; 14]).1 p = Some 10.
Proof.
  intros a1 p. split; [lia|]. split; [constructor|].
  destruct (alloc_pointers_stable 2 (@arena_new nat) 10 [11; 12; 13; 14])
    as (H1 & H2 & _); [lia | constructor |].
  split; [exact H1 | exact H2].
Defined.

Lemma ucb_move_returns_first_proven_win_witness :
  n_unplayed_moves ttt_endgame_root = 0 ∧
  proven_win ttt_endgame_arena ttt_endgame_root 6 ∧
  ucb_move_traced (F:=Z) ttt_endgame_arena ttt_endgame_root = Ok (6, [0; 1; 2; 5]) ∧
  ucb_move (F:=Z) ttt_endgame_arena ttt_endgame_root = Ok 6.
Proof.
  assert (proven_win ttt_endgame_arena ttt_endgame_root 6) as Hwin.
  { left. split; reflexivity. }
  split; [reflexivity|]. split; [exact Hwin|].
  destruct (ucb_move_returns_first_proven_win (F:=Z)
              ttt_endgame_arena ttt_endgame_root 6)
    as (seen & Htr & Hmv & Hseen & _).
  - reflexivity.
  - intros j Hj Hv.
    do 9 (destruct j as [|j]; [first [discriminate Hv
                                   | eexists; eexists; split; reflexivity]|]).
    simpl in Hj. lia.
  - simpl. lia.
  - reflexivity.
  - exact Hwin.
  - intros j Hj Hv [[_ Hw]|[Hp _]]; [|discriminate Hp].
    do 6 (destruct j as [|j]; [first [discriminate Hv | discriminate Hw]|]).
    lia.
  - subst seen. split; [exact Htr | exact Hmv].
Defined.

Lemma random_moves_pick_kth_witness :
  n_valid_moves (state (new_node (game_new : TicTacToe)))
    = count_upto (is_valid (state (new_node (game_new : TicTacToe)))) n_moves ∧
  0 < n_valid_moves (state (new_node (game_new : TicTacToe))) ∧
  ∃ i,
    let '(k, g') := uniform_int 1 (n_valid_moves (state (new_node (game_new : TicTacToe)))) 42%Z in
    1 ≤ k ≤ n_valid_moves (state (new_node (game_new : TicTacToe))) ∧
    random_move 42%Z (new_node (game_new : TicTacToe)) = Ok (i, g') ∧
    i < n_moves ∧ is_valid (state (new_node (game_new : TicTacToe))) i = true ∧
    count_upto (is_valid (state (new_node (game_new : TicTacToe)))) i = k - 1 ∧
    count_upto (is_valid (state (new_node (game_new : TicTacToe)))) (S i) = k.
Proof.
  split; [reflexivity|]. split; [vm_compute; lia|].
  apply (random_moves_pick_kth (R:=Z) 42%Z (new_node (game_new : TicTacToe)));
    [apply minstd_dist_contract | reflexivity | vm_compute; lia].
Defined.

Lemma play_vs_random_deterministic_witness :
  ∃ r1 r2,
    play_vs_random (G:=TicTacToe) (F:=Z) 9 12345%Z 30 = Ok r1 ∧
    play_vs_random (G:=TicTacToe) (F:=Z) 12 12345%Z 30 = Ok r2 ∧
    r1 = r2.
Proof.
  eexists. eexists.
  split; [vm_compute; reflexivity|]. split; [vm_compute; reflexivity|].
  apply (play_vs_random_deterministic (G:=TicTacToe) (F:=Z) 9 12 12345%Z 12345%Z 30 30);
    [reflexivity | reflexivity | vm_compute; reflexivity | vm_compute; reflexivity].
Defined.
End TicTacToeRuns.

(** ** What an arena holds *)

Section ArenaContents.
Context {T : Type}.
Variable NBlock : nat.
Implicit Types (a : Arena T) (p q : ptr) (x y : T).

Lemma arena_contents_alloc a x :
  0 < NBlock → wf NBlock a →
  arena_contents (alloc NBlock a x).1 = arena_contents a ++ [x].
Proof.
  intros Hpos Hwf. unfold arena_contents.
  destruct (alloc_shape NBlock a x Hpos Hwf) as [[_ ->]|(v & rest & Hb & _ & ->)];
    cbn [fst blocks].
  - rewrite fmap_cons, reverse_cons, concat_app. simpl. by rewrite ?app_nil_r.
  - rewrite Hb. rewrite !fmap_cons, !reverse_cons, !concat_app. simpl.
    by rewrite ?app_nil_r, app_assoc.
Qed.

Lemma packed_alloc a x :
  0 < NBlock → wf NBlock a → packed NBlock a → packed NBlock (alloc NBlock a x).1.
Proof.
  intros Hpos Hwf Hp. unfold packed in *.
  destruct (alloc_shape NBlock a x Hpos Hwf) as [[Hfull ->]|(v & rest & Hb & _ & ->)]; simpl.
  - split; [lia|]. destruct (blocks a) as [|v rest]; [constructor|].
    simpl in Hfull. apply Nat.eqb_eq in Hfull. destruct Hp as [_ Hrest].
    by constructor.
  - rewrite Hb in Hp. destruct Hp as [_ Hrest]. split; [|done].
    rewrite length_app. simpl. lia.
Qed.

Lemma full_blocks_length (bs : list (vector T)) :
  Forall (λ w, length (vdata w) = NBlock) bs →
  length (concat (reverse (vdata <$> bs))) = length bs * NBlock.
Proof.
  induction 1 as [|v bs Hv _ IH]; [done|].
  rewrite fmap_cons, reverse_cons, concat_app, length_app, IH. simpl.
  rewrite ?app_nil_r. lia.
Qed.

Lemma packed_block_count a :
  0 < NBlock → wf NBlock a → packed NBlock a →
  length (blocks a) = (length (arena_contents a) + NBlock - 1) / NBlock.
Proof.
  intros Hpos [_ Hwf] Hp. unfold packed, arena_contents in *.
  destruct (blocks a) as [|v rest].
  - simpl. symmetry. apply Nat.div_small. lia.
  - destruct Hp as [Hne Hfull].
    apply Forall_cons in Hwf as [(_ & Hle & _) _].
    rewrite fmap_cons, reverse_cons, concat_app, length_app, full_blocks_length by done.
    simpl. rewrite ?app_nil_r.
    apply (Nat.div_unique _ _ _ (length (vdata v) - 1)); [lia|]. simpl. nia.
Qed.

Lemma allocs_contents a xs :
  0 < NBlock → wf NBlock a → packed NBlock a →
  wf NBlock (allocs NBlock a xs).1 ∧ packed NBlock (allocs NBlock a xs).1 ∧
  arena_contents (allocs NBlock a xs).1 = arena_contents a ++ xs.
Proof.
  intros Hpos. revert a. induction xs as [|x xs IH]; intros a Hwf Hp; simpl.
  - by rewrite app_nil_r.
  - pose proof (wf_alloc NBlock a x Hpos Hwf) as Hwf1.
    pose proof (packed_alloc a x Hpos Hwf Hp) as Hp1.
    pose proof (arena_contents_alloc a x Hpos Hwf) as Hc1.
    destruct (alloc NBlock a x) as [a1 p1]. simpl in *.
    destruct (IH a1 Hwf1 Hp1) as (Hwf2 & Hp2 & Hc2).
    destruct (allocs NBlock a1 xs) as [a2 ps]. simpl in *.
    split; [done|]. split; [done|]. by rewrite Hc2, Hc1, <- app_assoc.
Qed.

(** X1: a run of [alloc] calls on a new arena with a positive block
    size stores exactly the allocated elements, in call order; it uses
    the least number of blocks that can hold them, and no block holds
    more than the block size or is left empty. *)
Theorem allocs_fill_blocks_in_order (xs : list T) :
  0 < NBlock →
  let a := (allocs NBlock arena_new xs).1 in
  arena_contents a = xs ∧
  length (blocks a) = (length xs + NBlock - 1) / NBlock ∧
  Forall (λ v, vcap v = NBlock ∧ 0 < length (vdata v) ≤ NBlock) (blocks a) ∧
  packed NBlock a.
Proof.
  intros Hpos a.
  destruct (allocs_contents arena_new xs Hpos) as (Hwf & Hp & Hc);
    [apply wf_new | done |].
  fold a in Hwf, Hp, Hc. simpl in Hc.
  split; [done|]. split; [by rewrite <- Hc; apply packed_block_count|].
  split; [|done].
  destruct Hwf as [_ Hwf]. unfold packed in Hp.
  destruct (blocks a) as [|v rest]; [constructor|].
  destruct Hp as [Hne Hfull].
  apply Forall_cons in Hwf as [(Hcap & Hle & _) Hrest].
  constructor; [repeat split; done || lia|].
  rewrite Forall_forall in Hrest, Hfull. apply Forall_forall. intros w Hw.
  destruct (Hrest w Hw) as (? & ? & _). specialize (Hfull w Hw). lia.
Qed.

(** X2: the pointers returned by a run of [alloc] calls are pairwise
    distinct, were not in use before, and each reads the element it was
    returned for. *)
Theorem allocs_pointers_distinct a (xs : list T) :
  0 < NBlock → built NBlock a →
  let '(a', ps) := allocs NBlock a xs in
  length ps = length xs ∧ NoDup ps ∧
  (∀ p, p ∈ ps → load a p = None) ∧
  (∀ i p x, ps !! i = Some p → xs !! i = Some x → load a' p = Some x).
Proof.
  intros Hpos Hb. apply wf_built in Hb; [|done].
  revert a Hb. induction xs as [|x xs IH]; intros a Hwf; simpl.
  - split; [done|]. split; [constructor|]. split; [by intros p Hp%elem_of_nil|].
    intros i p x Hp. by rewrite lookup_nil in Hp.
  - pose proof (wf_alloc NBlock a x Hpos Hwf) as Hwf1.
    pose proof (load_alloc_new NBlock a x Hpos Hwf) as Hnew.
    pose proof (alloc_fresh NBlock a x Hpos Hwf) as Hfresh.
    pose proof (load_alloc_old NBlock a x) as Hold.
    pose proof (allocs_stable (T:=T) NBlock) as Hstable.
    destruct (alloc NBlock a x) as [a1 p1]. simpl in *.
    specialize (IH a1 Hwf1). specialize (Hstable a1 xs p1 x Hpos Hwf1 Hnew).
    destruct (allocs NBlock a1 xs) as [a2 ps]. simpl in *.
    destruct IH as (Hlen & Hnd & Hfr & Hrd).
    split; [by rewrite Hlen|]. split.
    { constructor; [|done]. intros Hin. apply Hfr in Hin. congruence. }
    split.
    { intros p Hp. apply elem_of_cons in Hp as [->|Hp]; [done|].
      apply Hfr in Hp. destruct (load a p) as [y|] eqn:Hy; [|done].
      rewrite (Hold p y) in Hp; done. }
    intros [|i] p y Hp Hx; simpl in *.
    + injection Hp as <-. injection Hx as <-. done.
    + by eapply Hrd.
Qed.
End ArenaContents.

(** ** More on move selection *)

Section SelectionEdges.
Context {G R F : Type} `{!Game G, !RandomGen R, !FloatOps F}.
Local Abbreviation MyArena := (Arena (Node G)).
Implicit Types (a : MyArena) (nd : Node G) (g : R).

Lemma ucb_scan_valid a nd player flip todo i ucb_max i_max seen m seen' :
  (∀ k, i_max = Some k → k < i ∧ is_valid (state nd) k = true) →
  ucb_scan (F:=F) a nd player flip i todo ucb_max i_max seen = Ok (m, seen') →
  m < i + todo ∧ is_valid (state nd) m = true.
Proof.
  revert i ucb_max i_max seen.
  induction todo as [|t IH]; intros i ucb_max i_max seen Him; simpl.
  - intros H. apply rbind_Ok in H as (x & Hx & H).
    apply deref_Ok in Hx. injection H as -> _. apply Him in Hx. split; [lia | tauto].
  - destruct (is_valid (state nd) i) eqn:Hv; simpl.
    + intros H. apply rbind_Ok in H as (win0 & _ & H). destruct win0.
      { injection H as <- _. split; [lia | done]. }
      apply rbind_Ok in H as (win1 & _ & H). destruct win1.
      { injection H as <- _. split; [lia | done]. }
      destruct (fgt _ _); apply IH in H.
      * split; [lia | tauto].
      * intros k [= <-]. split; [lia | done].
      * split; [lia | tauto].
      * intros k Hk. apply Him in Hk. split; [lia | tauto].
    + intros H. apply IH in H; [split; [lia | tauto]|].
      intros k Hk. apply Him in Hk. split; [lia | tauto].
Qed.

(** X3: a move returned by [ucb_move] is an index below [n_moves] that
    is valid in the node's state. *)
Theorem ucb_move_returns_valid_move a nd mv :
  ucb_move (F:=F) a nd = Ok mv →
  mv < n_moves ∧ is_valid (state nd) mv = true.
Proof.
  unfold ucb_move, ucb_move_traced. intros H.
  apply rbind_Ok in H as ([m seen] & H & Hm). injection Hm as <-.
  apply rbind_Ok in H as (_ & _ & H).
  apply ucb_scan_valid in H; [simpl in *; done | done].
Qed.

Lemma ucb_scan_no_valid a nd player flip todo i ucb_max seen :
  (∀ j, i ≤ j < i + todo → is_valid (state nd) j = false) →
  ucb_scan (F:=F) a nd player flip i todo ucb_max None seen = Abort.
Proof.
  revert i. induction todo as [|t IH]; intros i Hinv; simpl; [done|].
  rewrite Hinv by lia. simpl. apply IH. intros j Hj. apply Hinv. lia.
Qed.

(** X4: on a node whose state has no valid move, [ucb_move] fails: the
    scan ends without a candidate and the final assertion does not
    hold. *)
Theorem ucb_move_without_valid_move a nd :
  (∀ j, j < n_moves → is_valid (state nd) j = false) →
  ucb_move (F:=F) a nd = Abort.
Proof.
  intros Hinv. unfold ucb_move, ucb_move_traced.
  assert (n_unplayed_moves nd = 0) as ->.
  { apply count_upto_0. intros i Hi. unfold unplayed. rewrite Hinv by done.
    apply andb_false_r. }
  simpl. rewrite ucb_scan_no_valid; [done|]. intros j Hj. apply Hinv. lia.
Qed.

(** Without a proven win among the moves still to scan, the loop keeps
    the greatest value seen so far and the first index that has it. *)
Lemma ucb_scan_argmax a nd :
  strict_order (ucb_values nd) (fgt (F:=F)) →
  ∀ todo i ucb_max i_max seen m seen',
    i + todo ≤ n_moves → ucb_values nd ucb_max →
    (∀ j, j < i → is_valid (state nd) j = true →
          fgt (ucb_of nd j) ucb_max = false) →
    (∀ k, i_max = Some k →
          k < i ∧ is_valid (state nd) k = true ∧ ucb_max = ucb_of nd k ∧
          ∀ j, j < k → is_valid (state nd) j = true →
               fgt (ucb_of nd k) (ucb_of nd j) = true) →
    (∀ j, i ≤ j < i + todo → is_valid (state nd) j = true → ¬ proven_win a nd j) →
    ucb_scan (F:=F) a nd (player_turn (state nd))
      (if player_turn (state nd) =? 0 then 1%Z else (-1)%Z)
      i todo ucb_max i_max seen = Ok (m, seen') →
    m < i + todo ∧ is_valid (state nd) m = true ∧
    ∀ j, j < i + todo → is_valid (state nd) j = true →
         fgt (ucb_of nd j) (ucb_of nd m) = false ∧
         (j < m → fgt (ucb_of nd m) (ucb_of nd j) = true).
Proof.
  intros (Hirr & Htrans & Hneg).
  induction todo as [|t IH];
    intros i ucb_max i_max seen m seen' Hle HP Hbelow Hmax Hnowin; simpl.
  - intros H. apply rbind_Ok in H as (x & Hx & H).
    apply deref_Ok in Hx. injection H as -> _.
    destruct (Hmax _ Hx) as (Hlt & Hv & -> & Hfirst).
    split; [lia|]. split; [done|]. intros j Hj Hvj.
    split; [apply Hbelow; [lia | done] | intros Hjm; by apply Hfirst].
  - assert (∀ j, j ≤ i → is_valid (state nd) j = true →
                 ucb_values nd (ucb_of nd j)) as Hval.
    { intros j Hj Hvj. right. exists j. split; [lia|]. done. }
    destruct (is_valid (state nd) i) eqn:Hv; simpl.
    + intros H. apply rbind_Ok in H as (win0 & Hw0 & H).
      assert (win0 = false) as ->.
      { destruct win0; [|done]. exfalso. apply (Hnowin i); [lia | done |].
        destruct (Nat.eqb_spec (player_turn (state nd)) 0) as [Hp|]; [|done].
        apply rbind_Ok in Hw0 as (w & Hcw & Hw0). injection Hw0 as Hw0.
        apply Z.eqb_eq in Hw0. subst w. by left. }
      apply rbind_Ok in H as (win1 & Hw1 & H).
      assert (win1 = false) as ->.
      { destruct win1; [|done]. exfalso. apply (Hnowin i); [lia | done |].
        destruct (Nat.eqb_spec (player_turn (state nd)) 1) as [Hp|]; [|done].
        apply rbind_Ok in Hw1 as (w & Hcw & Hw1). injection Hw1 as Hw1.
        apply Z.eqb_eq in Hw1. subst w. by right. }
      fold (ucb_of nd i) in H.
      destruct (fgt (ucb_of nd i) ucb_max) eqn:Hgt; apply IH in H.
      * replace (i + S t) with (S i + t) by lia. done.
      * lia.
      * by apply Hval.
      * intros j Hj Hvj.
        destruct (decide (j = i)) as [->|Hne]; [by apply Hirr, Hval|].
        destruct (fgt (ucb_of nd j) (ucb_of nd i)) eqn:Hji; [|done].
        rewrite <- (Hbelow j) by (done || lia). symmetry.
        apply (Htrans _ (ucb_of nd i) _); [apply Hval; [lia | done] | by apply Hval | done..].
      * intros k [= <-]. split; [lia|]. split; [done|]. split; [done|].
        intros j Hj Hvj.
        apply (Hneg _ ucb_max _);
          [by apply Hval | done | apply Hval; [lia | done] | exact Hgt | by apply Hbelow].
      * intros j Hj Hvj. apply Hnowin; [lia | done].
      * replace (i + S t) with (S i + t) by lia. done.
      * lia.
      * done.
      * intros j Hj Hvj. destruct (decide (j = i)) as [->|Hne]; [done|].
        apply Hbelow; [lia | done].
      * intros k Hk. destruct (Hmax k Hk) as (? & ? & ? & ?).
        split; [lia|]. done.
      * intros j Hj Hvj. apply Hnowin; [lia | done].
    + intros H. apply IH in H.
      * replace (i + S t) with (S i + t) by lia. done.
      * lia.
      * done.
      * intros j Hj Hvj. destruct (decide (j = i)) as [->|Hne]; [congruence|].
        apply Hbelow; [lia | done].
      * intros k Hk. destruct (Hmax k Hk) as (? & ? & ? & ?).
        split; [lia|]. done.
      * intros j Hj Hvj. apply Hnowin; [lia | done].
Qed.

(** X5: when [>] is a strict order among the values that the loop
    compares on this node (the UCB values of its valid moves and the
    initial [-infinity]; for [float] this says that none of them is NaN)
    and no valid move has a child that is a proven win, the move returned
    by [ucb_move] is valid, no valid move has a greater UCB value, and
    every valid move with a lower index has a strictly smaller one. *)
Theorem ucb_move_returns_first_greatest a nd mv :
  strict_order (ucb_values nd) (fgt (F:=F)) →
  (∀ j, j < n_moves → is_valid (state nd) j = true → ¬ proven_win a nd j) →
  ucb_move (F:=F) a nd = Ok mv →
  mv < n_moves ∧ is_valid (state nd) mv = true ∧
  ∀ j, j < n_moves → is_valid (state nd) j = true →
       fgt (ucb_of nd j) (ucb_of nd mv) = false ∧
       (j < mv → fgt (ucb_of nd mv) (ucb_of nd j) = true).
Proof.
  intros Hord Hnowin. unfold ucb_move, ucb_move_traced. intros H.
  apply rbind_Ok in H as ([m seen] & H & Hm). injection Hm as <-.
  apply rbind_Ok in H as (_ & _ & H). simpl.
  eapply (ucb_scan_argmax a nd Hord n_moves 0) in H; [exact H|..].
  - lia.
  - by left.
  - intros j Hj. lia.
  - done.
  - intros j Hj. apply Hnowin. lia.
Qed.

Lemma scan_kth_overshoot (p : nat → bool) imove todo i :
  count_upto p (i + todo) < imove →
  scan_kth p imove (count_upto p i) i todo = Abort.
Proof.
  revert i. induction todo as [|t IH]; intros i Hlt; simpl; [done|].
  change (count_upto p i + (if p i then 1 else 0)) with (count_upto p (S i)).
  assert (count_upto p (S i) ≤ count_upto p (i + S t)) by (apply count_upto_mono; lia).
  destruct (Nat.eqb_spec (count_upto p (S i)) imove); [lia|].
  apply IH. by replace (S i + t) with (i + S t) by lia.
Qed.

(** X6: when the drawn rank is larger than the number of qualifying
    moves, the scan runs off the end of the move range and [random_move]
    and [random_unplayed_move] fail on [assert(false)]. *)
Theorem random_moves_fail_on_overdraw g nd :
  (count_upto (is_valid (state nd)) n_moves
     < (uniform_int 1 (n_valid_moves (state nd)) g).1 →
   random_move g nd = Abort) ∧
  (n_unplayed_moves nd < (uniform_int 1 (n_unplayed_moves nd) g).1 →
   random_unplayed_move g nd = Abort).
Proof.
  split; intros Hlt.
  - unfold random_move.
    destruct (uniform_int 1 (n_valid_moves (state nd)) g) as [k g']. simpl in Hlt.
    by rewrite (scan_kth_overshoot (is_valid (state nd)) k n_moves 0).
  - unfold random_unplayed_move.
    destruct (0 <? n_unplayed_moves nd); [|done]. simpl.
    destruct (uniform_int 1 (n_unplayed_moves nd) g) as [k g']. simpl in Hlt.
    by rewrite (scan_kth_overshoot (unplayed nd) k n_moves 0).
Qed.
End SelectionEdges.

(** ** Allocation order *)

Section ArenaOrder.
Context {T : Type}.
Variable NBlock : nat.
Implicit Types (a : Arena T) (p q : ptr) (x y : T).

Lemma ptr_lt_irrefl p : ¬ ptr_lt p p.
Proof. unfold ptr_lt. lia. Qed.

Lemma ptr_lt_trans p q r : ptr_lt p q → ptr_lt q r → ptr_lt p r.
Proof. unfold ptr_lt. lia. Qed.

Lemma find_block_elem (bs : list (vector T)) b v :
  find_block b bs = Some v → v ∈ bs ∧ vbuf v = b.
Proof.
  unfold find_block. intros Hf. apply find_some in Hf as [Hin Heq].
  split; [by apply list_elem_of_In | by apply Nat.eqb_eq].
Qed.

Lemma bufs_decreasing_new : bufs_decreasing (blocks (@arena_new T)).
Proof. done. Qed.

Lemma bufs_decreasing_alloc a x :
  0 < NBlock → wf NBlock a → bufs_decreasing (blocks a) →
  bufs_decreasing (blocks (alloc NBlock a x).1).
Proof.
  intros Hpos Hwf Hs.
  destruct (alloc_shape NBlock a x Hpos Hwf) as [[_ ->]|(v & rest & Hb & _ & ->)];
    cbn [fst blocks bufs_decreasing].
  - split; [|done]. destruct Hwf as [_ Hwf].
    eapply Forall_impl; [exact Hwf|]. intros w (_ & _ & Hw). simpl. lia.
  - by rewrite Hb in Hs.
Qed.

Lemma bufs_decreasing_store a p x :
  bufs_decreasing (blocks a) → bufs_decreasing (blocks (store a p x)).
Proof.
  unfold store. cbn [blocks]. induction (blocks a) as [|v bs IH]; [done|].
  intros [Hv Hbs]. rewrite fmap_cons. cbn [bufs_decreasing].
  assert (∀ w, vbuf (store_block p x w) = vbuf w) as Hbuf.
  { intros w. unfold store_block. by destruct (vbuf w =? p.1). }
  split; [|by apply IH].
  apply Forall_fmap. eapply Forall_impl; [exact Hv|].
  intros w Hw. unfold compose. by rewrite !Hbuf.
Qed.

(** A new pointer comes after every pointer in use. *)
Lemma alloc_above a x p y :
  0 < NBlock → wf NBlock a → bufs_decreasing (blocks a) →
  load a p = Some y → ptr_lt p (alloc NBlock a x).2.
Proof.
  intros Hpos Hwf Hs Hl. unfold load in Hl.
  destruct (find_block p.1 (blocks a)) as [w|] eqn:Hf; [|done].
  pose proof (find_block_elem _ _ _ Hf) as [Hin Hbuf].
  destruct (alloc_shape NBlock a x Hpos Hwf) as [[_ ->]|(v & rest & Hb & _ & ->)];
    cbn [snd]; unfold ptr_lt; cbn [fst snd].
  - left. destruct Hwf as [_ Hwf]. rewrite Forall_forall in Hwf.
    destruct (Hwf w Hin) as (_ & _ & ?). lia.
  - rewrite Hb in Hf, Hin, Hs. unfold find_block in Hf. simpl in Hf.
    destruct (Nat.eqb_spec (vbuf v) p.1) as [Heq|Hne].
    + injection Hf as <-. right. split; [done|]. by apply lookup_lt_Some in Hl.
    + left. apply elem_of_cons in Hin as [->|Hin]; [done|].
      destruct Hs as [Hv _]. rewrite Forall_forall in Hv.
      specialize (Hv w Hin). lia.
Qed.
End ArenaOrder.

(** ** The shape of the search tree *)

Section TreeShapeFacts.
Context {G R F : Type} `{!Game G, !RandomGen R, !FloatOps F}.
Local Abbreviation MyArena := (Arena (Node G)).
Implicit Types (a : MyArena) (nd : Node G) (p q this : ptr) (g : R).

Lemma links_alloc a (s : G) p i q :
  wf NBLOCK a →
  links (alloc NBLOCK a (new_node s)).1 p i q ↔ links a p i q.
Proof.
  intros Hwf. split; intros (nd & Hl & Hc).
  - apply (load_alloc_inv NBLOCK a _ p nd NBLOCK_pos Hwf) in Hl as [Hl|[_ ->]];
      [by exists nd|].
    by rewrite child_new_node in Hc.
  - exists nd. split; [|done]. apply load_alloc_old; [apply NBLOCK_pos | done | done].
Qed.

Lemma links_store a this nd0 nd' p i q :
  load a this = Some nd0 →
  links (store a this nd') p i q ↔
  (p ≠ this ∧ links a p i q) ∨ (p = this ∧ child nd' i = Some q).
Proof.
  intros Hthis. split.
  - intros (nd & Hl & Hc). destruct (decide (this = p)) as [<-|Hne].
    + right. rewrite load_store_eq in Hl by eauto. injection Hl as <-. done.
    + left. rewrite load_store_ne in Hl by done. split; [done | by exists nd].
  - intros [[Hne (nd & Hl & Hc)]|[-> Hc]].
    + exists nd. by rewrite load_store_ne.
    + exists nd'. by rewrite load_store_eq by eauto.
Qed.

Lemma links_store_same a this nd0 nd' p i q :
  load a this = Some nd0 → children nd' = children nd0 →
  links (store a this nd') p i q ↔ links a p i q.
Proof.
  intros Hthis Hch. rewrite (links_store a this nd0) by done.
  assert (∀ j, child nd' j = child nd0 j) as Hc by (intros j; unfold child; by rewrite Hch).
  split.
  - intros [[_ Hl]|[-> Hl]]; [done|]. exists nd0. by rewrite <- Hc.
  - intros (nd & Hl & Hq). destruct (decide (p = this)) as [->|Hne].
    + right. split; [done|]. rewrite Hc. congruence.
    + left. split; [done | by exists nd].
Qed.

Lemma state_at_store a this nd0 nd' p (s : G) :
  load a this = Some nd0 → state nd' = state nd0 →
  state_at a p s → state_at (store a this nd') p s.
Proof.
  intros Hthis Hst (nd & Hl & Hs). destruct (decide (this = p)) as [<-|Hne].
  - exists nd'. rewrite load_store_eq by eauto. split; [done|]. congruence.
  - exists nd. by rewrite load_store_ne.
Qed.

Lemma state_at_le a a' p (s : G) : heap_le a a' → state_at a p s → state_at a' p s.
Proof.
  intros Hle (nd & Hl & Hs). destruct (Hle _ _ Hl) as (nd' & Hl' & Hst & _).
  exists nd'. split; [done | congruence].
Qed.

Lemma links_le a a' p i q : heap_le a a' → links a p i q → links a' p i q.
Proof.
  intros Hle (nd & Hl & Hc). destruct (Hle _ _ Hl) as (nd' & Hl' & _ & Hch).
  exists nd'. split; [done | by apply Hch].
Qed.

Lemma closed_alloc a (s : G) :
  wf NBLOCK a → closed a → closed (alloc NBLOCK a (new_node s)).1.
Proof.
  intros Hwf Hcl p i q Hl. apply links_alloc in Hl; [|done].
  destruct (Hcl _ _ _ Hl) as [c Hc]. exists c.
  apply load_alloc_old; [apply NBLOCK_pos | done | done].
Qed.

Lemma delta_refl a : closed a → delta a a.
Proof.
  intros Hcl. split; [by left|].
  intros p1 i1 p2 i2 q Hl1 _ Hq. destruct (Hcl _ _ _ Hl1) as [c Hc]. congruence.
Qed.

(** Heap facts of a completed rollout, without any property of nodes. *)
Lemma random_rollout_heap fuel g a this g' a' w :
  wf NBLOCK a → random_rollout fuel g a this = Ok (g', a', w) →
  wf NBLOCK a' ∧ heap_le a a' ∧ w ≠ NONE.
Proof.
  intros Hwf Hrun.
  eapply (random_rollout_pres (λ _, True)) in Hrun as (? & _ & ? & (s & _ & ?)); done.
Qed.

Lemma ucb_rollout_heap fuel g a this g' a' w :
  wf NBLOCK a → ucb_rollout (F:=F) fuel g a this = Ok (g', a', w) →
  wf NBLOCK a' ∧ heap_le a a' ∧ w ≠ NONE.
Proof.
  intros Hwf Hrun.
  eapply (ucb_rollout_pres (λ _, True)) in Hrun as (? & _ & ? & (s & _ & ?)); done.
Qed.

Lemma random_rollout_sorted fuel g a this g' a' w :
  wf NBLOCK a → bufs_decreasing (blocks a) →
  random_rollout fuel g a this = Ok (g', a', w) → bufs_decreasing (blocks a').
Proof.
  revert g a this g' a' w.
  induction fuel as [|f IH]; intros g a this g' a' w Hwf Hs;
    rewrite random_rollout_eq; intros H;
    apply rbind_Ok in H as (nd & Hnd & H); apply deref_Ok in Hnd;
    cbv beta zeta in H;
    destruct (negb (winner (state nd) =? NONE)%Z); try done.
  1,2: injection H as _ <- _; by apply bufs_decreasing_store.
  apply rbind_Ok in H as ([mv g1] & Hmv & H).
  pose proof (wf_alloc NBLOCK a (new_node (move (state nd) mv)) NBLOCK_pos Hwf) as Hwf1.
  pose proof (bufs_decreasing_alloc NBLOCK a (new_node (move (state nd) mv))
                NBLOCK_pos Hwf Hs) as Hs1.
  destruct (alloc NBLOCK a (new_node (move (state nd) mv))) as [a1 node].
  apply rbind_Ok in H as ([[g2 a2] w2] & Hrec & H).
  apply rbind_Ok in H as (nd2 & _ & H).
  apply rbind_Ok in H as ([] & _ & H).
  apply rbind_Ok in H as (nd3 & _ & H).
  injection H as _ <- _. apply bufs_decreasing_store. by eapply IH.
Qed.

Lemma ucb_rollout_sorted fuel g a this g' a' w :
  wf NBLOCK a → bufs_decreasing (blocks a) →
  ucb_rollout (F:=F) fuel g a this = Ok (g', a', w) → bufs_decreasing (blocks a').
Proof.
  revert g a this g' a' w.
  induction fuel as [|f IH]; intros g a this g' a' w Hwf Hs;
    rewrite ucb_rollout_eq; intros H;
    apply rbind_Ok in H as (nd & Hnd & H); apply deref_Ok in Hnd;
    cbv beta zeta in H;
    destruct (negb (winner (state nd) =? NONE)%Z).
  1,3: by injection H as _ <- _.
  all: destruct (0 <? n_unplayed_moves nd);
    [by eapply random_rollout_sorted | try done].
  apply rbind_Ok in H as (mv & _ & H).
  apply rbind_Ok in H as (c & _ & H).
  apply rbind_Ok in H as ([[g1 a1] w1] & Hrec & H).
  apply rbind_Ok in H as (nd1 & _ & H).
  apply rbind_Ok in H as (nd2 & _ & H).
  injection H as _ <- _. apply bufs_decreasing_store. by eapply IH.
Qed.

Lemma random_rollout_frame fuel g a this g' a' w :
  wf NBLOCK a → random_rollout fuel g a this = Ok (g', a', w) →
  ∀ q nd, q ≠ this → load a q = Some nd → load a' q = Some nd.
Proof.
  revert g a this g' a' w.
  induction fuel as [|f IH]; intros g a this g' a' w Hwf;
    rewrite random_rollout_eq; intros H;
    apply rbind_Ok in H as (nd & Hnd & H); apply deref_Ok in Hnd;
    cbv beta zeta in H;
    destruct (negb (winner (state nd) =? NONE)%Z); try done.
  1,2: injection H as _ <- _; intros q ndq Hq Hl; by rewrite load_store_ne.
  apply rbind_Ok in H as ([mv g1] & Hmv & H).
  pose proof (wf_alloc NBLOCK a (new_node (move (state nd) mv)) NBLOCK_pos Hwf) as Hwf1.
  pose proof (alloc_fresh NBLOCK a (new_node (move (state nd) mv)) NBLOCK_pos Hwf) as Hfresh.
  pose proof (load_alloc_old NBLOCK a (new_node (move (state nd) mv))) as Hold.
  destruct (alloc NBLOCK a (new_node (move (state nd) mv))) as [a1 node].
  apply rbind_Ok in H as ([[g2 a2] w2] & Hrec & H).
  apply rbind_Ok in H as (nd2 & _ & H).
  apply rbind_Ok in H as ([] & _ & H).
  apply rbind_Ok in H as (nd3 & _ & H).
  injection H as _ <- _. intros q ndq Hq Hl. simpl in *.
  rewrite load_store_ne by done.
  eapply IH; [exact Hwf1 | exact Hrec | | apply Hold; [apply NBLOCK_pos | done | done]].
  intros ->. congruence.
Qed.

(** The links that a completed [random_rollout] adds. *)
Lemma random_rollout_delta fuel g a this g' a' w :
  wf NBLOCK a → bufs_decreasing (blocks a) → closed a →
  random_rollout fuel g a this = Ok (g', a', w) → delta a a'.
Proof.
  revert g a this g' a' w.
  induction fuel as [|f IH]; intros g a this g' a' w Hwf Hs Hcl;
    rewrite random_rollout_eq; intros H;
    apply rbind_Ok in H as (nd & Hnd & H); apply deref_Ok in Hnd;
    cbv beta zeta in H;
    destruct (negb (winner (state nd) =? NONE)%Z); try done.
  1,2: injection H as _ <- _; split;
    [ intros p i q Hl; left; by apply (links_store_same a this nd) in Hl
    | intros p1 i1 p2 i2 q Hl1 _ Hq;
      apply (links_store_same a this nd) in Hl1; [|done..];
      destruct (Hcl _ _ _ Hl1) as [c Hc]; congruence ].
  apply rbind_Ok in H as ([mv g1] & Hmv & H).
  pose proof (random_unplayed_move_lt _ _ _ _ Hmv) as Hmvlt.
  pose proof (wf_alloc NBLOCK a (new_node (move (state nd) mv)) NBLOCK_pos Hwf) as Hwf1.
  pose proof (bufs_decreasing_alloc NBLOCK a (new_node (move (state nd) mv))
                NBLOCK_pos Hwf Hs) as Hs1.
  pose proof (closed_alloc a (move (state nd) mv) Hwf Hcl) as Hcl1.
  pose proof (alloc_fresh NBLOCK a (new_node (move (state nd) mv)) NBLOCK_pos Hwf) as Hfresh.
  pose proof (load_alloc_new NBLOCK a (new_node (move (state nd) mv)) NBLOCK_pos Hwf) as Hnew.
  pose proof (load_alloc_old NBLOCK a (new_node (move (state nd) mv))) as Hold.
  pose proof (alloc_above NBLOCK a (new_node (move (state nd) mv)) this nd
                NBLOCK_pos Hwf Hs Hnd) as Habove.
  pose proof (λ p i q, links_alloc a (move (state nd) mv) p i q Hwf) as Hlinks1.
  pose proof (λ p y, load_alloc_inv NBLOCK a (new_node (move (state nd) mv)) p y
                       NBLOCK_pos Hwf) as Hinv.
  destruct (alloc NBLOCK a (new_node (move (state nd) mv))) as [a1 node].
  cbn [fst snd] in *.
  apply rbind_Ok in H as ([[g2 a2] w2] & Hrec & H).
  apply rbind_Ok in H as (nd2 & Hnd2 & H). apply deref_Ok in Hnd2.
  apply rbind_Ok in H as ([] & Hnull & H).
  apply cassert_Ok, bool_decide_eq_true in Hnull.
  apply rbind_Ok in H as (nd3 & Hup & H).
  injection H as _ <- _.
  destruct (IH _ _ _ _ _ _ Hwf1 Hs1 Hcl1 Hrec) as [Hd1 Hd2].
  destruct (random_rollout_heap _ _ _ _ _ _ _ Hwf1 Hrec) as (Hwf2 & Hle2 & _).
  apply update_Ok in Hup as [_ Hnd3].
  assert (state nd3 = state nd2) as Hst3 by (by subst nd3).
  assert (state nd2 = state nd) as Hst2.
  { destruct (Hle2 this nd) as (n' & Hn' & Hs' & _);
      [apply Hold; [apply NBLOCK_pos | done | done]|]. congruence. }
  assert (this ≠ node) as Hne by (intros ->; congruence).
  (* no link of [a2] goes to the new child *)
  assert (∀ p i, ¬ links a2 p i node) as Horphan.
  { intros p i Hl. destruct (Hd1 _ _ _ Hl) as [Hl1|(Hn & _)]; [|congruence].
    apply Hlinks1 in Hl1. destruct (Hcl _ _ _ Hl1) as [c Hc]. congruence. }
  (* every link of the result is a link of [a2] or the new one *)
  assert (∀ p i q, links (store a2 this nd3) p i q →
            links a2 p i q ∨ (p = this ∧ i = mv ∧ q = node)) as Hcases.
  { intros p i q Hl. apply (links_store a2 this nd2) in Hl as [[_ Hl]|[-> Hc]]; [by left | | done].
    subst nd3. unfold child in Hc. cbn [children set_child] in Hc.
    destruct (decide (i = mv)) as [->|Hi].
    - destruct (decide (mv < length (children nd2))) as [Hlt|Hge].
      + rewrite list_lookup_insert_eq in Hc by done. right. simpl in Hc. by injection Hc as <-.
      + rewrite list_insert_ge in Hc by lia. left. by exists nd2.
    - rewrite list_lookup_insert_ne in Hc by done. left. by exists nd2. }
  split.
  - intros p i q Hl. destruct (Hcases _ _ _ Hl) as [Hl2|(-> & -> & ->)].
    + destruct (Hd1 _ _ _ Hl2) as [Hl1|(Hn & Hlt & Hi & s & Hp & Hq)].
      * left. by apply Hlinks1.
      * right. split.
        { destruct (load a q) as [y|] eqn:Hy; [|done].
          rewrite (Hold q y) in Hn; [done | apply NBLOCK_pos | done | done]. }
        split; [done|]. split; [done|]. exists s.
        split; by apply (state_at_store a2 this nd2).
    + right. split; [done|]. split; [done|]. split; [done|].
      exists (state nd). split.
      * exists nd3. rewrite load_store_eq by eauto. split; [done | congruence].
      * destruct (Hle2 node _ Hnew) as (c & Hc & Hsc & _).
        exists c. rewrite load_store_ne by done. split; [done|]. by rewrite Hsc.
  - intros p1 i1 p2 i2 q Hl1 Hl2 Hq.
    destruct (Hcases _ _ _ Hl1) as [Hl1'|(E1 & E2 & E3)];
      destruct (Hcases _ _ _ Hl2) as [Hl2'|(F1 & F2 & F3)].
    + destruct (decide (q = node)) as [->|Hqn]; [by destruct (Horphan _ _ Hl1')|].
      apply (Hd2 _ _ _ _ _ Hl1' Hl2').
      destruct (load a1 q) as [y|] eqn:Hy; [|done].
      apply Hinv in Hy as [Hy|[Hy _]]; congruence.
    + subst q. by destruct (Horphan _ _ Hl1').
    + subst q. by destruct (Horphan _ _ Hl2').
    + split; congruence.
Qed.

Lemma ucb_rollout_delta fuel g a this g' a' w :
  wf NBLOCK a → bufs_decreasing (blocks a) → closed a →
  ucb_rollout (F:=F) fuel g a this = Ok (g', a', w) → delta a a'.
Proof.
  revert g a this g' a' w.
  induction fuel as [|f IH]; intros g a this g' a' w Hwf Hs Hcl;
    rewrite ucb_rollout_eq; intros H;
    apply rbind_Ok in H as (nd & Hnd & H); apply deref_Ok in Hnd;
    cbv beta zeta in H;
    destruct (negb (winner (state nd) =? NONE)%Z).
  1,3: injection H as _ <- _; by apply delta_refl.
  all: destruct (0 <? n_unplayed_moves nd);
    [by eapply random_rollout_delta | try done].
  apply rbind_Ok in H as (mv & _ & H).
  apply rbind_Ok in H as (c & _ & H).
  apply rbind_Ok in H as ([[g1 a1] w1] & Hrec & H).
  apply rbind_Ok in H as (nd1 & Hnd1 & H). apply deref_Ok in Hnd1.
  apply rbind_Ok in H as (nd2 & Hup & H).
  injection H as _ <- _.
  destruct (IH _ _ _ _ _ _ Hwf Hs Hcl Hrec) as [Hd1 Hd2].
  apply update_Ok in Hup as [_ Hnd2].
  assert (children nd2 = children nd1) as Hch by (by subst nd2).
  assert (state nd2 = state nd1) as Hst by (by subst nd2).
  split.
  - intros p i q Hl. apply (links_store_same a1 this nd1) in Hl; [|done..].
    destruct (Hd1 _ _ _ Hl) as [Hl1|(Hn & Hlt & Hi & s & Hp & Hq)]; [by left|].
    right. split; [done|]. split; [done|]. split; [done|]. exists s.
    split; by apply (state_at_store a1 this nd1).
  - intros p1 i1 p2 i2 q Hl1 Hl2 Hq.
    apply (links_store_same a1 this nd1) in Hl1; [|done..].
    apply (links_store_same a1 this nd1) in Hl2; [|done..].
    by apply (Hd2 _ _ _ _ _ Hl1 Hl2).
Qed.

Lemma links_ok_closed a : links_ok a → closed a.
Proof.
  intros Hok p i q Hl. destruct (Hok _ _ _ Hl) as (_ & s & _ & (c & Hc & _)). eauto.
Qed.

Lemma tree_shape_delta root a a' :
  tree_shape root a → wf NBLOCK a' → bufs_decreasing (blocks a') →
  heap_le a a' → delta a a' → tree_shape root a'.
Proof.
  intros (_ & _ & [r Hr] & Hnop & Hok & Hup & Hord) Hwf' Hs' Hle [Hd1 Hd2].
  pose proof (links_ok_closed a Hok) as Hcl.
  split; [done|]. split; [done|]. split.
  { destruct (Hle _ _ Hr) as (r' & Hr' & _). eauto. }
  split.
  { intros p i Hl. destruct (Hd1 _ _ _ Hl) as [Hl0|(Hn & _)]; [by eapply Hnop | congruence]. }
  split.
  { intros p i q Hl. destruct (Hd1 _ _ _ Hl) as [Hl0|(_ & _ & Hi & Hst)]; [|done].
    destruct (Hok _ _ _ Hl0) as (Hi & s & Hp & Hq).
    split; [done|]. exists s. split; by eapply state_at_le. }
  split.
  { intros p1 i1 p2 i2 q Hl1 Hl2.
    destruct (load a q) as [c|] eqn:Hq; [|by eapply Hd2].
    destruct (Hd1 _ _ _ Hl1) as [Hl1'|(Hn & _)]; [|congruence].
    destruct (Hd1 _ _ _ Hl2) as [Hl2'|(Hn & _)]; [|congruence].
    by eapply Hup. }
  intros p i q Hl. destruct (Hd1 _ _ _ Hl) as [Hl0|(_ & Hlt & _)]; [by eapply Hord | done].
Qed.

Lemma tree_shape_root (s0 : G) :
  tree_shape (root_of s0) (alloc NBLOCK arena_new (new_node s0)).1.
Proof.
  pose proof (@wf_new (Node G) NBLOCK) as Hwf0.
  assert (∀ p i q, ¬ links (alloc NBLOCK arena_new (new_node s0)).1 p i q) as Hno.
  { intros p i q Hl. apply links_alloc in Hl as (nd & Hl & _); done. }
  split; [apply wf_alloc; [apply NBLOCK_pos | done]|].
  split; [apply bufs_decreasing_alloc; [apply NBLOCK_pos | done | done]|].
  split; [unfold root_of; rewrite load_alloc_new; [eauto | apply NBLOCK_pos | done]|].
  split; [intros p i Hl; by eapply Hno|].
  split; [intros p i q Hl; by destruct (Hno _ _ _ Hl)|].
  split; [intros p1 i1 p2 i2 q Hl; by destruct (Hno _ _ _ Hl)|].
  intros p i q Hl; by destruct (Hno _ _ _ Hl).
Qed.

Lemma searched_tree_shape (s0 : G) a :
  searched (R:=R) (F:=F) s0 a → tree_shape (root_of s0) a.
Proof.
  induction 1 as [|a fuel g this g' a' w _ IH Hrun]; [apply tree_shape_root|].
  pose proof IH as (Hwf & Hs & _ & _ & Hok & _).
  destruct (ucb_rollout_heap _ _ _ _ _ _ _ Hwf Hrun) as (Hwf' & Hle & _).
  eapply tree_shape_delta;
    [exact IH | done | eapply ucb_rollout_sorted; [exact Hwf | exact Hs | exact Hrun] | done |].
  eapply ucb_rollout_delta; [done | done | by apply links_ok_closed | exact Hrun].
Qed.

(** X7: a completed [random_rollout] leaves every node that was in the
    arena, other than the one it was called on, exactly as it was. *)
Theorem random_rollout_touches_only_this fuel g a this g' a' w :
  wf NBLOCK a → random_rollout fuel g a this = Ok (g', a', w) →
  ∀ q nd, q ≠ this → load a q = Some nd → load a' q = Some nd.
Proof. apply random_rollout_frame. Qed.

(** X8: a completed [ucb_rollout] keeps every node of the arena at its
    pointer, with the same game state and with every occupied slot still
    holding the same child; the outcome it returns is not NONE. *)
Theorem ucb_rollout_keeps_nodes fuel g a this g' a' w :
  wf NBLOCK a → ucb_rollout (F:=F) fuel g a this = Ok (g', a', w) →
  w ≠ NONE ∧
  ∀ p nd, load a p = Some nd →
    ∃ nd', load a' p = Some nd' ∧ state nd' = state nd ∧
           ∀ i q, child nd i = Some q → child nd' i = Some q.
Proof.
  intros Hwf Hrun. destruct (ucb_rollout_heap _ _ _ _ _ _ _ Hwf Hrun) as (_ & Hle & Hw).
  split; [done|]. intros p nd Hp. destruct (Hle _ _ Hp) as (nd' & Hp' & Hst & Hch). eauto.
Qed.

(** X9: in a tree built by rollouts every occupied slot [i] holds a
    pointer to a node of the arena, and that node's state is the parent's
    state after move [i]. *)
Theorem children_hold_next_state (s0 : G) a p nd i q :
  searched (R:=R) (F:=F) s0 a → load a p = Some nd → child nd i = Some q →
  i < n_moves ∧ ∃ c, load a q = Some c ∧ state c = move (state nd) i.
Proof.
  intros Hs Hp Hc. apply searched_tree_shape in Hs as (_ & _ & _ & _ & Hok & _).
  destruct (Hok p i q) as (Hi & s & (nd' & Hp' & <-) & (c & Hq & Hsc)); [by exists nd|].
  split; [done|]. exists c. split; [done|]. congruence.
Qed.

(** X10: in a tree built by rollouts no node is held by two slots, and
    no slot holds the root. *)
Theorem children_are_owned_once (s0 : G) a p1 n1 i1 p2 n2 i2 q :
  searched (R:=R) (F:=F) s0 a →
  load a p1 = Some n1 → child n1 i1 = Some q →
  load a p2 = Some n2 → child n2 i2 = Some q →
  p1 = p2 ∧ i1 = i2 ∧ q ≠ root_of s0.
Proof.
  intros Hs H1 Hc1 H2 Hc2.
  apply searched_tree_shape in Hs as (_ & _ & _ & Hnop & _ & Hup & _).
  destruct (Hup p1 i1 p2 i2 q) as [-> ->]; [by exists n1 | by exists n2 |].
  split; [done|]. split; [done|]. intros ->. apply (Hnop p2 i2). by exists n2.
Qed.

Lemma reachable_above a root q :
  links_up a → reachable a root q → q = root ∨ ptr_lt root q.
Proof.
  intros Hup. induction 1 as [|p nd i q Hreach IH Hp Hc]; [by left|].
  right. assert (ptr_lt p q) as Hpq by (apply (Hup p i q); by exists nd).
  destruct IH as [->|Hlt]; [done | by eapply ptr_lt_trans].
Qed.

(** X11: a tree built by rollouts has no cycle: no slot of a node that
    is reached from [p] through children links holds [p]. *)
Theorem children_links_are_acyclic (s0 : G) a p q nd i :
  searched (R:=R) (F:=F) s0 a →
  reachable a p q → load a q = Some nd → child nd i ≠ Some p.
Proof.
  intros Hs Hreach Hq Hc.
  apply searched_tree_shape in Hs as (_ & _ & _ & _ & _ & _ & Hup).
  assert (ptr_lt q p) as Hqp by (apply (Hup q i p); by exists nd).
  destruct (reachable_above _ _ _ Hup Hreach) as [->|Hpq].
  - by apply ptr_lt_irrefl in Hqp.
  - apply (ptr_lt_irrefl p). by eapply ptr_lt_trans.
Qed.

(** A completed [ucb_rollout] leaves the nodes allocated before the one
    it was called on as they were. *)
Lemma ucb_rollout_frame_below fuel g a this g' a' w :
  wf NBLOCK a → links_up a →
  ucb_rollout (F:=F) fuel g a this = Ok (g', a', w) →
  ∀ q nd, ptr_lt q this → load a q = Some nd → load a' q = Some nd.
Proof.
  revert g a this g' a' w.
  induction fuel as [|f IH]; intros g a this g' a' w Hwf Hup;
    rewrite ucb_rollout_eq; intros H;
    apply rbind_Ok in H as (nd & Hnd & H); apply deref_Ok in Hnd;
    cbv beta zeta in H;
    destruct (negb (winner (state nd) =? NONE)%Z).
  1,3: by injection H as _ <- _.
  all: destruct (0 <? n_unplayed_moves nd);
    [ intros q ndq Hq Hl; eapply random_rollout_frame; [exact Hwf | exact H | | exact Hl];
      intros ->; by apply ptr_lt_irrefl in Hq
    | try done ].
  apply rbind_Ok in H as (mv & _ & H).
  apply rbind_Ok in H as (c & Hc & H). apply deref_Ok in Hc.
  apply rbind_Ok in H as ([[g1 a1] w1] & Hrec & H).
  apply rbind_Ok in H as (nd1 & _ & H).
  apply rbind_Ok in H as (nd2 & _ & H).
  injection H as _ <- _. intros q ndq Hq Hl.
  assert (ptr_lt this c) as Htc by (apply (Hup this mv c); by exists nd).
  rewrite load_store_ne by (intros ->; by apply ptr_lt_irrefl in Hq).
  eapply IH; [exact Hwf | exact Hup | exact Hrec | | exact Hl].
  by eapply ptr_lt_trans.
Qed.

(** What a completed rollout does to the node it was called on: one
    [_update] of the node as it was, after linking a new child when the
    move was not explored. *)
Lemma ucb_rollout_visit fuel g a this nd g' a' w :
  wf NBLOCK a → links_up a →
  load a this = Some nd → winner (state nd) = NONE →
  ucb_rollout (F:=F) fuel g a this = Ok (g', a', w) →
  ∃ mv base nd',
    load a' this = Some nd' ∧ mv < n_moves ∧ _update mv w base = Ok nd' ∧
    ((base = nd ∧ is_Some (child nd mv)) ∨
     (∃ node, child nd mv = None ∧ base = set_child mv node nd ∧
              load a node = None ∧ is_Some (load a' node))).
Proof.
  intros Hwf Hup Hnd Hnone. rewrite ucb_rollout_eq, Hnd. simpl.
  destruct (winner_NONE_dec (state nd)) as [[_ ?]|[-> _]]; [done|].
  destruct (0 <? n_unplayed_moves nd).
  - rewrite random_rollout_eq, Hnd. simpl.
    destruct (winner_NONE_dec (state nd)) as [[_ ?]|[-> _]]; [done|].
    destruct fuel as [|f]; [done|]. intros H.
    apply rbind_Ok in H as ([mv g1] & Hmv & H).
    pose proof (random_unplayed_move_lt _ _ _ _ Hmv) as Hmvlt.
    pose proof (wf_alloc NBLOCK a (new_node (move (state nd) mv)) NBLOCK_pos Hwf) as Hwf1.
    pose proof (alloc_fresh NBLOCK a (new_node (move (state nd) mv)) NBLOCK_pos Hwf) as Hfresh.
    pose proof (load_alloc_new NBLOCK a (new_node (move (state nd) mv)) NBLOCK_pos Hwf) as Hnew.
    pose proof (load_alloc_old NBLOCK a (new_node (move (state nd) mv)) this nd
                  NBLOCK_pos Hwf Hnd) as Hold.
    destruct (alloc NBLOCK a (new_node (move (state nd) mv))) as [a1 node].
    cbn [fst snd] in *.
    apply rbind_Ok in H as ([[g2 a2] w2] & Hrec & H).
    apply rbind_Ok in H as (nd2 & Hnd2 & H). apply deref_Ok in Hnd2.
    apply rbind_Ok in H as ([] & Hnull & H).
    apply cassert_Ok, bool_decide_eq_true in Hnull.
    apply rbind_Ok in H as (nd3 & Hu & H).
    injection H as _ <- <-.
    assert (this ≠ node) as Hne by (intros ->; congruence).
    assert (nd2 = nd) as ->.
    { pose proof (random_rollout_frame _ _ _ _ _ _ _ Hwf1 Hrec this nd Hne Hold). congruence. }
    destruct (random_rollout_heap _ _ _ _ _ _ _ Hwf1 Hrec) as (_ & Hle & _).
    destruct (Hle _ _ Hnew) as (c & Hc & _).
    exists mv, (set_child mv node nd), nd3.
    split; [rewrite load_store_eq; eauto|]. split; [done|]. split; [done|].
    right. exists node. split; [done|]. split; [done|]. split; [done|].
    rewrite load_store_ne by done. eauto.
  - destruct fuel as [|f]; [done|]. intros H.
    apply rbind_Ok in H as (mv & Hmv & H). apply ucb_move_lt in Hmv.
    apply rbind_Ok in H as (c & Hc & H). apply deref_Ok in Hc.
    apply rbind_Ok in H as ([[g1 a1] w1] & Hrec & H).
    apply rbind_Ok in H as (nd1 & Hnd1 & H). apply deref_Ok in Hnd1.
    apply rbind_Ok in H as (nd2 & Hu & H).
    injection H as _ <- <-.
    assert (ptr_lt this c) as Htc by (apply (Hup this mv c); by exists nd).
    assert (nd1 = nd) as ->.
    { pose proof (ucb_rollout_frame_below _ _ _ _ _ _ _ Hwf Hup Hrec this nd Htc Hnd).
      congruence. }
    exists mv, nd, nd2.
    split; [rewrite load_store_eq; eauto|]. split; [done|]. split; [done|].
    left. split; [done|]. rewrite Hc. eauto.
Qed.

(** X12: in a tree built by rollouts, a completed [ucb_rollout] on a node
    that is not a leaf updates that node for exactly one move [mv]: the
    slot [mv] is occupied afterwards, [tot_tries] and [tries[mv]] grow by
    one (up to 2^24), [wins[mv]] grows by the returned outcome, and the
    state, the other counters and the other slots stay as they were. *)
Theorem ucb_rollout_counts_one_visit (s0 : G) fuel g a this nd g' a' w :
  searched (R:=R) (F:=F) s0 a →
  load a this = Some nd → winner (state nd) = NONE →
  ucb_rollout (F:=F) fuel g a this = Ok (g', a', w) →
  ∃ mv nd',
    load a' this = Some nd' ∧ mv < n_moves ∧ state nd' = state nd ∧
    is_Some (child nd' mv) ∧
    tot_tries nd' = Z.min (tot_tries nd + 1) F32_EXACT ∧
    zget (tries nd') mv = Z.min (zget (tries nd) mv + 1) F32_EXACT ∧
    zget (wins nd') mv = f32_add (zget (wins nd) mv) (f32_round w) ∧
    ∀ i, i ≠ mv →
      zget (tries nd') i = zget (tries nd) i ∧
      zget (wins nd') i = zget (wins nd) i ∧
      child nd' i = child nd i.
Proof.
  intros Hs Hnd Hnone Hrun.
  pose proof (searched_tree_shape _ _ Hs) as (Hwf & _ & _ & _ & _ & _ & Hup).
  apply searched_ok in Hs as [_ Hall].
  destruct (Hall _ _ Hnd) as (Hlc & Hlt & Hlw & Hb & Htot & _).
  destruct (ucb_rollout_visit _ _ _ _ _ _ _ _ Hwf Hup Hnd Hnone Hrun)
    as (mv & base & nd' & Hl' & Hmv & Hu & Hbase).
  assert (state base = state nd ∧ tot_tries base = tot_tries nd ∧
          tries base = tries nd ∧ wins base = wins nd ∧
          is_Some (child base mv) ∧ ∀ i, i ≠ mv → child base i = child nd i)
    as (Hbs & Hbt & Hbtr & Hbw & Hbc & Hbo).
  { destruct Hbase as [[-> Hc]|(node & Hc & -> & _)]; [done|].
    repeat split; try done.
    - rewrite child_set_child_eq by lia. eauto.
    - intros i Hi. by apply child_set_child_ne. }
  apply update_Ok in Hu as [_ ->]. exists mv. eexists. split; [exact Hl'|].
  cbn [state tot_tries tries wins]. rewrite Hbs, Hbt, Hbtr, Hbw.
  assert (∀ i, child (MkNode (state nd) (f32_add (tot_tries nd) 1) (children base)
                 (alter (λ t : Z, f32_add t 1) mv (tries nd))
                 (alter (λ x : Z, f32_add x (f32_round w)) mv (wins nd))) i
               = child base i) as Hchild by done.
  split; [done|]. split; [done|]. split; [by rewrite Hchild|].
  pose proof (zget_le_zsum (tries nd) 0) as [Hsum _].
  { intros j Hj. apply Hb. lia. }
  split.
  { rewrite f32_incr; [lia|]. rewrite (Htot Hnone). unfold F32_EXACT in *. lia. }
  split.
  { rewrite zget_alter_eq by lia. rewrite f32_incr by (by apply Hb). lia. }
  split; [by rewrite zget_alter_eq by lia|].
  intros i Hi. rewrite !zget_alter_ne by done. rewrite Hchild. split; [done|].
  split; [done | by apply Hbo].
Qed.
End TreeShapeFacts.

(** ** Explored moves are legal moves *)

Section LegalMoves.
Context {G R F : Type} `{!Game G, !RandomGen R, !FloatOps F}.
Local Abbreviation MyArena := (Arena (Node G)).
Implicit Types (a : MyArena) (nd : Node G) (p q this : ptr) (g : R).

Hypothesis Hdist : dist_contract (R:=R).

Local Arguments random_rollout : simpl never.
Local Arguments ucb_rollout : simpl never.

Lemma random_unplayed_move_unplayed g nd mv g1 :
  random_unplayed_move g nd = Ok (mv, g1) → unplayed nd mv = true.
Proof using Hdist.
  unfold random_unplayed_move. intros H.
  apply rbind_Ok in H as ([] & Hn & H). apply cassert_Ok, Nat.ltb_lt in Hn.
  pose proof (Hdist _ g Hn) as Hk.
  destruct (uniform_int 1 (n_unplayed_moves nd) g) as [k g2]. simpl in Hk.
  apply rbind_Ok in H as (i & Hscan & H). injection H as -> _.
  destruct (scan_kth_spec (unplayed nd) n_moves k Hk) as (j & Hj & _ & Hp & _).
  rewrite Hscan in Hj. by injection Hj as ->.
Qed.

Lemma valid_links_new (s : G) : valid_links (new_node s).
Proof. intros i q Hc. by rewrite child_new_node in Hc. Qed.

Lemma random_rollout_valid_links fuel g a this g' a' w :
  wf NBLOCK a → heap_all valid_links a →
  random_rollout fuel g a this = Ok (g', a', w) → heap_all valid_links a'.
Proof using Hdist.
  revert g a this g' a' w.
  induction fuel as [|f IH]; intros g a this g' a' w Hwf Hall;
    rewrite random_rollout_eq; intros H;
    apply rbind_Ok in H as (nd & Hnd & H); apply deref_Ok in Hnd;
    cbv beta zeta in H;
    destruct (negb (winner (state nd) =? NONE)%Z); try done.
  1,2: injection H as _ <- _; apply heap_all_store; [done|];
    intros i q Hc; by apply (Hall _ _ Hnd i q).
  apply rbind_Ok in H as ([mv g1] & Hmv & H).
  apply random_unplayed_move_unplayed in Hmv.
  unfold unplayed in Hmv. apply andb_true_iff in Hmv as [_ Hvalid].
  pose proof (wf_alloc NBLOCK a (new_node (move (state nd) mv)) NBLOCK_pos Hwf) as Hwf1.
  pose proof (heap_all_alloc valid_links a (new_node (move (state nd) mv)) Hwf Hall
                (valid_links_new _)) as Hall1.
  pose proof (heap_le_alloc a (new_node (move (state nd) mv)) Hwf) as Hle1.
  destruct (alloc NBLOCK a (new_node (move (state nd) mv))) as [a1 node].
  cbn [fst snd] in *.
  apply rbind_Ok in H as ([[g2 a2] w2] & Hrec & H).
  apply rbind_Ok in H as (nd2 & Hnd2 & H). apply deref_Ok in Hnd2.
  apply rbind_Ok in H as ([] & _ & H).
  apply rbind_Ok in H as (nd3 & Hup & H).
  injection H as _ <- _.
  pose proof (IH _ _ _ _ _ _ Hwf1 Hall1 Hrec) as Hall2.
  destruct (random_rollout_heap _ _ _ _ _ _ _ Hwf1 Hrec) as (_ & Hle2 & _).
  destruct (heap_le_trans _ _ _ Hle1 Hle2 _ _ Hnd) as (n' & Hn' & Hst & _).
  assert (n' = nd2) as -> by congruence.
  apply heap_all_store; [done|].
  apply update_Ok in Hup as [_ ->]. intros i q Hc.
  unfold child in Hc. cbn [children set_child state] in *.
  destruct (decide (i = mv)) as [->|Hi]; [by rewrite Hst|].
  rewrite list_lookup_insert_ne in Hc by done. by apply (Hall2 _ _ Hnd2 i q).
Qed.

Lemma ucb_rollout_valid_links fuel g a this g' a' w :
  wf NBLOCK a → heap_all valid_links a →
  ucb_rollout (F:=F) fuel g a this = Ok (g', a', w) → heap_all valid_links a'.
Proof using Hdist.
  revert g a this g' a' w.
  induction fuel as [|f IH]; intros g a this g' a' w Hwf Hall;
    rewrite ucb_rollout_eq; intros H;
    apply rbind_Ok in H as (nd & Hnd & H); apply deref_Ok in Hnd;
    cbv beta zeta in H;
    destruct (negb (winner (state nd) =? NONE)%Z).
  1,3: by injection H as _ <- _.
  all: destruct (0 <? n_unplayed_moves nd);
    [by eapply random_rollout_valid_links | try done].
  apply rbind_Ok in H as (mv & _ & H).
  apply rbind_Ok in H as (c & _ & H).
  apply rbind_Ok in H as ([[g1 a1] w1] & Hrec & H).
  apply rbind_Ok in H as (nd1 & Hnd1 & H). apply deref_Ok in Hnd1.
  apply rbind_Ok in H as (nd2 & Hup & H).
  injection H as _ <- _.
  pose proof (IH _ _ _ _ _ _ Hwf Hall Hrec) as Hall1.
  apply heap_all_store; [done|].
  apply update_Ok in Hup as [_ ->]. intros i q Hc. by apply (Hall1 _ _ Hnd1 i q).
Qed.

Lemma searched_valid_links (s0 : G) a :
  searched (R:=R) (F:=F) s0 a → heap_all valid_links a.
Proof using Hdist.
  intros Hs. enough (wf NBLOCK a ∧ heap_all valid_links a) by tauto.
  induction Hs as [|a fuel g this g' a' w _ [Hwf Hall] Hrun].
  - split; [apply wf_alloc; [apply NBLOCK_pos | apply wf_new]|].
    apply heap_all_alloc; [apply wf_new | by intros p nd Hp | apply valid_links_new].
  - split; [by destruct (ucb_rollout_heap _ _ _ _ _ _ _ Hwf Hrun)|].
    by eapply ucb_rollout_valid_links.
Qed.

Lemma follows_trans (s1 s2 s3 : G) : follows s1 s2 → follows s2 s3 → follows s1 s3.
Proof. intros H12. induction 1; [done|]. by constructor. Qed.

Lemma ucb_move_valid a nd mv :
  ucb_move (F:=F) a nd = Ok mv → mv < n_moves ∧ is_valid (state nd) mv = true.
Proof.
  unfold ucb_move, ucb_move_traced. intros H.
  apply rbind_Ok in H as ([m seen] & H & Hm). injection Hm as <-.
  apply rbind_Ok in H as (_ & _ & H).
  apply ucb_scan_valid in H; [simpl in *; done | done].
Qed.

Lemma random_rollout_follows fuel g a this nd g' a' w :
  wf NBLOCK a → load a this = Some nd →
  random_rollout fuel g a this = Ok (g', a', w) →
  ∃ s', follows (state nd) s' ∧ winner s' = w ∧ w ≠ NONE.
Proof using Hdist.
  revert g a this nd g' a' w.
  induction fuel as [|f IH]; intros g a this nd g' a' w Hwf Hnd;
    rewrite random_rollout_eq, Hnd; simpl;
    destruct (winner_NONE_dec (state nd)) as [[-> Hw]|[-> Hw]]; try done.
  1,2: intros [= _ _ <-]; exists (state nd); split; [constructor | done].
  intros H. apply rbind_Ok in H as ([mv g1] & Hmv & H).
  pose proof (random_unplayed_move_lt _ _ _ _ Hmv) as Hlt.
  apply random_unplayed_move_unplayed in Hmv.
  unfold unplayed in Hmv. apply andb_true_iff in Hmv as [_ Hvalid].
  pose proof (wf_alloc NBLOCK a (new_node (move (state nd) mv)) NBLOCK_pos Hwf) as Hwf1.
  pose proof (load_alloc_new NBLOCK a (new_node (move (state nd) mv)) NBLOCK_pos Hwf) as Hnew.
  destruct (alloc NBLOCK a (new_node (move (state nd) mv))) as [a1 node].
  cbn [fst snd] in *.
  apply rbind_Ok in H as ([[g2 a2] w2] & Hrec & H).
  apply rbind_Ok in H as (nd2 & _ & H).
  apply rbind_Ok in H as ([] & _ & H).
  apply rbind_Ok in H as (nd3 & _ & H).
  injection H as _ _ <-.
  destruct (IH _ _ _ _ _ _ _ Hwf1 Hnew Hrec) as (s' & Hf & Hws & Hne).
  exists s'. split; [|done].
  eapply follows_trans; [|exact Hf]. simpl. by apply follows_move; [constructor|..].
Qed.

Lemma ucb_rollout_follows fuel g a this nd g' a' w :
  wf NBLOCK a → links_ok a → load a this = Some nd →
  ucb_rollout (F:=F) fuel g a this = Ok (g', a', w) →
  ∃ s', follows (state nd) s' ∧ winner s' = w ∧ w ≠ NONE.
Proof using Hdist.
  revert g a this nd g' a' w.
  induction fuel as [|f IH]; intros g a this nd g' a' w Hwf Hok Hnd;
    rewrite ucb_rollout_eq, Hnd; simpl;
    destruct (winner_NONE_dec (state nd)) as [[-> Hw]|[-> Hw]].
  1,3: intros [= _ _ <-]; exists (state nd); split; [constructor | done].
  all: destruct (0 <? n_unplayed_moves nd);
    [by eapply random_rollout_follows | try done].
  intros H. apply rbind_Ok in H as (mv & Hmv & H). apply ucb_move_valid in Hmv as [Hlt Hvalid].
  apply rbind_Ok in H as (c & Hc & H). apply deref_Ok in Hc.
  apply rbind_Ok in H as ([[g1 a1] w1] & Hrec & H).
  apply rbind_Ok in H as (nd1 & _ & H).
  apply rbind_Ok in H as (nd2 & _ & H).
  injection H as _ _ <-.
  destruct (Hok this mv c) as (_ & s & (n' & Hn' & <-) & (cn & Hcn & Hsc)); [by exists nd|].
  assert (n' = nd) as -> by congruence.
  destruct (IH _ _ _ _ _ _ _ Hwf Hok Hcn Hrec) as (s' & Hf & Hws & Hne).
  exists s'. split; [|done].
  eapply follows_trans; [|exact Hf]. rewrite Hsc. by apply follows_move; [constructor|..].
Qed.

(** X13: with a distribution that keeps to its bounds, in a tree built
    by rollouts every explored move of a node is a valid move of the
    node's state. *)
Theorem explored_moves_are_valid (s0 : G) a p nd i :
  searched (R:=R) (F:=F) s0 a → load a p = Some nd →
  is_move_explored nd i = true →
  i < n_moves ∧ is_valid (state nd) i = true.
Proof using Hdist.
  intros Hs Hp He. unfold is_move_explored in He.
  apply bool_decide_eq_true in He as [q Hq].
  pose proof (searched_valid_links _ _ Hs _ _ Hp i q Hq) as Hv.
  apply searched_tree_shape in Hs as (_ & _ & _ & _ & Hok & _).
  destruct (Hok p i q) as [Hi _]; [by exists nd|]. done.
Qed.

(** X14: with a distribution that keeps to its bounds, the outcome that
    a completed [ucb_rollout] returns is the [winner()] of a terminal
    state that comes from the node's state by valid moves. *)
Theorem ucb_rollout_returns_reachable_outcome (s0 : G) fuel g a this nd g' a' w :
  searched (R:=R) (F:=F) s0 a → load a this = Some nd →
  ucb_rollout (F:=F) fuel g a this = Ok (g', a', w) →
  ∃ s', follows (state nd) s' ∧ winner s' = w ∧ winner s' ≠ NONE.
Proof using Hdist.
  intros Hs Hnd Hrun.
  apply searched_tree_shape in Hs as (Hwf & _ & _ & _ & Hok & _).
  destruct (ucb_rollout_follows _ _ _ _ _ _ _ _ Hwf Hok Hnd Hrun) as (s' & Hf & Hw & Hne).
  exists s'. split; [done|]. split; [done | congruence].
Qed.
End LegalMoves.

(** ** The precondition of the UCB policy *)

Section Preconditions.
Context {G R F : Type} `{!Game G, !RandomGen R, !FloatOps F}.
Local Abbreviation MyArena := (Arena (Node G)).
Implicit Types (a : MyArena) (nd : Node G) (p q this : ptr) (g : R).

(** X15: in a tree built by rollouts, a node that passes the assertion
    of [ucb_move] (no valid move with zero tries) has a child in the
    arena for every valid move, so every [children[i]->state.winner()]
    of the scan reads a live node. *)
Theorem no_unplayed_move_means_all_children (s0 : G) a p nd :
  searched (R:=R) (F:=F) s0 a → load a p = Some nd →
  n_unplayed_moves nd = 0 →
  ∀ i, i < n_moves → is_valid (state nd) i = true →
    ∃ q c, child nd i = Some q ∧ load a q = Some c ∧
           state c = move (state nd) i ∧
           child_winner a nd i = Ok (winner (state c)).
Proof.
  intros Hs Hp Hun i Hi Hv.
  pose proof (searched_tree_shape _ _ Hs) as (_ & _ & _ & _ & Hok & _).
  apply searched_ok in Hs as [_ Hall].
  destruct (Hall _ _ Hp) as (_ & _ & _ & Hb & _).
  unfold n_unplayed_moves in Hun.
  pose proof (proj1 (count_upto_0 (unplayed nd) n_moves) Hun i Hi) as Hu.
  unfold unplayed in Hu. rewrite Hv, andb_true_r in Hu. apply Z.eqb_neq in Hu.
  destruct (Hb i Hi) as [Hrange Hiff].
  destruct (proj2 Hiff) as [q Hq]; [lia|].
  destruct (Hok p i q) as (_ & s & (n' & Hn' & <-) & (c & Hc & Hsc)); [by exists nd|].
  assert (n' = nd) as -> by congruence.
  exists q, c. split; [done|]. split; [done|]. split; [done|].
  unfold child_winner. rewrite Hq. simpl. by rewrite Hc.
Qed.
End Preconditions.

(** ** TicTacToe keeps the game contract *)

Section TicTacToeContract.
Import TTT.

(** A property of nine-cell boards checked on all 512 of them. *)
Lemma board_cases (P : Z → bool) :
  forallb (λ k, P (Z.of_nat k)) (seq 0 512) = true →
  ∀ b, (0 ≤ b < 512)%Z → P b = true.
Proof.
  intros Hall b Hb. rewrite List.forallb_forall in Hall.
  specialize (Hall (Z.to_nat b)). rewrite Z2Nat.id in Hall by lia.
  apply Hall, in_seq. lia.
Qed.

Lemma ttt_is_valid_board (t : TicTacToe) mv : is_valid t mv = free_cell (board t) mv.
Proof. reflexivity. Qed.

Lemma ttt_n_valid_board (t : TicTacToe) : n_valid_moves t = free_count (board t).
Proof. reflexivity. Qed.

Lemma ttt_board_move (t : TicTacToe) mv :
  board (move t mv) = Z.lor (board t) (Z.shiftl 1 (Z.of_nat mv)).
Proof.
  simpl. unfold ttt_move, board. destruct (iplayer t =? 0)%Z; simpl.
  - rewrite <- !Z.lor_assoc. f_equal. apply Z.lor_comm.
  - by rewrite Z.lor_assoc.
Qed.

Lemma ttt_board_nonneg (t : TicTacToe) : ttt_ok t → (0 ≤ board t < 512)%Z.
Proof.
  intros (H0 & H1 & Hb & _). split; [|done]. unfold board. by apply Z.lor_nonneg.
Qed.

(** Marking a free cell of a nine-cell board. *)
Lemma board_mark b mv :
  (0 ≤ b < 512)%Z → mv < 9 → free_cell b mv = true →
  let b' := Z.lor b (Z.shiftl 1 (Z.of_nat mv)) in
  (b' < 512)%Z ∧ free_cell b' mv = false ∧
  (∀ j, j < 9 → j ≠ mv → free_cell b' j = free_cell b j) ∧
  free_count b' + 1 = free_count b.
Proof.
  intros Hb Hmv Hfree.
  pose proof (board_cases (λ b,
    forallb (λ mv,
      if free_cell b mv then
        let b' := Z.lor b (Z.shiftl 1 (Z.of_nat mv)) in
        (b' <? 512)%Z && negb (free_cell b' mv) &&
        forallb (λ j, (j =? mv) || Bool.eqb (free_cell b' j) (free_cell b j)) (seq 0 9) &&
        (free_count b' + 1 =? free_count b)
      else true) (seq 0 9))) as Hcheck.
  specialize (Hcheck ltac:(vm_compute; reflexivity) b Hb).
  rewrite List.forallb_forall in Hcheck.
  specialize (Hcheck mv). rewrite Hfree in Hcheck.
  specialize (Hcheck ltac:(apply in_seq; lia)).
  cbv zeta in Hcheck.
  apply andb_true_iff in Hcheck as [Hcheck Hcount].
  apply andb_true_iff in Hcheck as [Hcheck Hothers].
  apply andb_true_iff in Hcheck as [Hlt Hnot].
  intros b'. split; [by apply Z.ltb_lt|]. split; [by apply negb_true_iff|].
  split; [|by apply Nat.eqb_eq].
  intros j Hj Hne. rewrite List.forallb_forall in Hothers.
  specialize (Hothers j ltac:(apply in_seq; lia)).
  apply orb_true_iff in Hothers as [Heq|Heq]; [apply Nat.eqb_eq in Heq; done|].
  by apply Bool.eqb_prop.
Qed.

Lemma ttt_ok_new : ttt_ok game_new.
Proof. unfold ttt_ok. simpl. split; [lia|]. split; [lia|]. split; [reflexivity|]. split; [reflexivity|]. by left. Qed.

Lemma ttt_ok_move (t : TicTacToe) mv :
  ttt_ok t → mv < 9 → is_valid t mv = true → ttt_ok (move t mv).
Proof.
  intros Hok Hmv Hv. pose proof (ttt_board_nonneg t Hok) as Hb.
  destruct Hok as (H0 & H1 & _ & Hdisj & Hpl).
  rewrite ttt_is_valid_board in Hv.
  destruct (board_mark _ _ Hb Hmv Hv) as (Hlt & _).
  rewrite <- ttt_board_move in Hlt.
  (* the marked cell belongs to neither player *)
  assert (Z.land (Z.shiftl 1 (Z.of_nat mv)) (xos0 t) = 0 ∧
          Z.land (Z.shiftl 1 (Z.of_nat mv)) (xos1 t) = 0)%Z as [Hb0 Hb1].
  { unfold free_cell in Hv. apply Z.eqb_eq in Hv.
    rewrite Z.mod_small in Hv.
    - unfold board in Hv. rewrite Z.land_lor_distr_r in Hv.
      by apply Z.lor_eq_0_iff in Hv.
    - rewrite Z.shiftl_1_l. unfold U32. split; [lia|].
      apply (Z.lt_le_trans _ (2 ^ 9)); [|lia]. apply Z.pow_lt_mono_r; lia. }
  assert (0 ≤ Z.shiftl 1 (Z.of_nat mv))%Z as Hbit by (apply Z.shiftl_nonneg; lia).
  assert (Z.land (iplayer t + 1) 1 = 0 ∨ Z.land (iplayer t + 1) 1 = 1)%Z as Hnext.
  { destruct Hpl as [->| ->]; [by right | by left]. }
  unfold ttt_ok. split; [|split; [|split; [done|split]]].
  - simpl. unfold ttt_move. destruct (iplayer t =? 0)%Z; simpl; [|done].
    by apply Z.lor_nonneg.
  - simpl. unfold ttt_move. destruct (iplayer t =? 0)%Z; simpl; [done|].
    by apply Z.lor_nonneg.
  - simpl. unfold ttt_move. destruct (iplayer t =? 0)%Z; simpl.
    + rewrite Z.land_lor_distr_l, Hdisj, Hb1. done.
    + rewrite Z.land_lor_distr_r, Hdisj, (Z.land_comm (xos0 t)), Hb0. done.
  - simpl. unfold ttt_move. by destruct (iplayer t =? 0)%Z.
Qed.

(** X16: on every TicTacToe position [n_valid_moves()] is the number of
    indices for which [is_valid] holds. *)
Theorem ttt_n_valid_moves_counts_valid (t : TicTacToe) :
  ttt_ok t → n_valid_moves t = count_upto (is_valid t) n_moves.
Proof. intros Hok. apply ttt_valid_count. by apply ttt_board_nonneg. Qed.

(** X17: a valid move on a TicTacToe position gives a position again;
    the cell played is no longer valid, every other cell is as valid as
    before, one valid move less is counted, and the turn passes to the
    other player. *)
Theorem ttt_move_takes_one_cell (t : TicTacToe) mv :
  ttt_ok t → mv < n_moves → is_valid t mv = true →
  ttt_ok (move t mv) ∧
  is_valid (move t mv) mv = false ∧
  (∀ j, j < n_moves → j ≠ mv → is_valid (move t mv) j = is_valid t j) ∧
  n_valid_moves (move t mv) + 1 = n_valid_moves t ∧
  player_turn (move t mv) = 1 - player_turn t.
Proof.
  intros Hok Hmv Hv. pose proof (ttt_board_nonneg t Hok) as Hb.
  split; [by apply ttt_ok_move|].
  rewrite !ttt_n_valid_board. rewrite ttt_is_valid_board in Hv.
  destruct (board_mark _ _ Hb Hmv Hv) as (_ & Hmark & Hothers & Hcount).
  rewrite <- ttt_board_move in Hmark, Hothers, Hcount.
  split; [done|]. split; [intros j Hj Hne; by apply Hothers|]. split; [done|].
  destruct Hok as (_ & _ & _ & _ & Hpl).
  simpl. unfold ttt_move.
  destruct Hpl as [Hp|Hp]; rewrite Hp; reflexivity.
Qed.

Lemma ttt_undecided_has_move (t : TicTacToe) :
  ttt_ok t → winner t = NONE →
  0 < count_upto (is_valid t) n_moves.
Proof.
  intros Hok Hw. pose proof (ttt_board_nonneg t Hok) as Hb.
  assert (board t ≠ 511%Z) as Hfull.
  { intros Hfull. simpl in Hw. unfold ttt_winner in Hw. rewrite Hfull in Hw.
    destruct (is_win (xos0 t)), (is_win (xos1 t)); simpl in Hw; discriminate. }
  pose proof (board_cases (λ b,
    (b =? 511)%Z || (0 <? count_upto (free_cell b) 9))
    ltac:(vm_compute; reflexivity) _ Hb) as Hcheck.
  apply orb_true_iff in Hcheck as [Heq|Hpos]; [by apply Z.eqb_eq in Heq|].
  by apply Nat.ltb_lt in Hpos.
Qed.

(** X18: a TicTacToe position that is not decided has a valid move, and
    [n_valid_moves()] is positive there. *)
Theorem ttt_undecided_position_has_valid_move (t : TicTacToe) :
  ttt_ok t → winner t = NONE →
  0 < n_valid_moves t ∧ ∃ mv, mv < n_moves ∧ is_valid t mv = true.
Proof.
  intros Hok Hw. pose proof (ttt_undecided_has_move t Hok Hw) as Hpos.
  split; [by rewrite ttt_valid_count by (by apply ttt_board_nonneg)|].
  destruct (scan_kth_spec (is_valid t) n_moves 1) as (j & _ & Hj & Hv & _); [lia|].
  eauto.
Qed.

Lemma ttt_bounded (h : nat) :
  ∀ t : TicTacToe, ttt_ok t → n_valid_moves t ≤ h → bounded_game h t = true.
Proof.
  induction h as [|h IH]; intros t Hok Hle;
    destruct (winner_NONE_dec t) as [[Hneg Hw]|[Hneg Hw]].
  - simpl. change (ttt_winner t) with (winner t). by rewrite Hneg.
  - pose proof (ttt_undecided_has_move t Hok Hw) as Hpos.
    rewrite <- ttt_valid_count in Hpos by (by apply ttt_board_nonneg). lia.
  - simpl. change (ttt_winner t) with (winner t). by rewrite Hneg.
  - pose proof (ttt_undecided_has_move t Hok Hw) as Hpos.
    cbn [bounded_game]. rewrite Hneg.
    apply andb_true_iff. split; [by apply Nat.ltb_lt|].
    apply List.forallb_forall. intros mv Hmv. apply in_seq in Hmv.
    assert (mv < 9) as Hmv9 by (change (@n_moves TicTacToe _) with 9 in Hmv; lia).
    destruct (is_valid t mv) eqn:Hv; [|done].
    pose proof (ttt_board_nonneg t Hok) as Hb.
    pose proof Hv as Hv'. rewrite ttt_is_valid_board in Hv'.
    destruct (board_mark _ _ Hb Hmv9 Hv') as (_ & _ & _ & Hcount).
    rewrite <- ttt_board_move, <- !ttt_n_valid_board in Hcount.
    apply IH; [by apply ttt_ok_move | lia].
Qed.

(** X19: from every TicTacToe position every line of play ends within
    as many moves as there are valid moves, at most nine, and no
    undecided position on the way is without a valid move. *)
Theorem ttt_games_end (t : TicTacToe) :
  ttt_ok t →
  n_valid_moves t ≤ 9 ∧ bounded_game (n_valid_moves t) t = true ∧
  bounded_game 9 t = true.
Proof.
  intros Hok.
  assert (n_valid_moves t ≤ 9) as Hle.
  { rewrite ttt_valid_count by (by apply ttt_board_nonneg). apply count_upto_le. }
  split; [done|]. split; by apply ttt_bounded.
Qed.
End TicTacToeContract.

(** ** The games that the driver returns *)

Section DriverGames.
Context {G R F : Type} `{!Game G, !RandomGen R, !FloatOps F}.
Local Abbreviation MyArena := (Arena (Node G)).
Implicit Types (a : MyArena) (nd : Node G) (p q this : ptr) (g : R).

Hypothesis Hdist : dist_contract (R:=R).

Local Arguments random_rollout : simpl never.
Local Arguments ucb_rollout : simpl never.
Local Arguments play_loop : simpl never.
Local Arguments rollouts : simpl never.

Lemma rollouts_searched (s0 : G) fuel n g a this g' a' :
  searched (R:=R) (F:=F) s0 a →
  rollouts (F:=F) fuel n g a this = Ok (g', a') →
  searched (R:=R) (F:=F) s0 a' ∧ heap_le a a'.
Proof.
  revert g a. induction n as [|n IH]; intros g a Hs; cbn [rollouts].
  - intros [= _ <-]. split; [done | apply heap_le_refl].
  - intros H. apply rbind_Ok in H as ([[g1 a1] w1] & Hrun & H).
    pose proof (searched_ok _ _ Hs) as [Hwf _].
    destruct (ucb_rollout_heap _ _ _ _ _ _ _ Hwf Hrun) as (_ & Hle1 & _).
    destruct (IH g1 a1) as [Hs' Hle']; [by eapply searched_rollout | done |].
    split; [done | by eapply heap_le_trans].
Qed.

Lemma play_loop_legal (s0 : G) fuel n :
  ∀ g a tree nd sh mh sh' mh',
    searched (R:=R) (F:=F) s0 a → load a tree = Some nd →
    play_loop (F:=F) fuel n g a tree sh mh = Ok (sh', mh') →
    ∃ shs mhs, sh' = sh ++ shs ∧ mh' = mh ++ mhs ∧ legal_play (state nd) mhs shs.
Proof using Hdist.
  induction fuel as [|f IH]; intros g a tree nd sh mh sh' mh' Hs Hnd;
    rewrite play_loop_eq, Hnd; simpl;
    destruct (winner_NONE_dec (state nd)) as [[-> Hw]|[-> Hw]]; try done.
  1,2: intros [= <- <-]; exists [], []; by rewrite !app_nil_r.
  intros H. apply rbind_Ok in H as ([[g1 a1] mv] & Hsel & H).
  assert (searched (R:=R) (F:=F) s0 a1 ∧ heap_le a a1) as [Hs1 Hle1].
  { destruct (player_turn (state nd) =? 0).
    - apply rbind_Ok in Hsel as ([g2 a2] & Hroll & Hsel).
      apply rbind_Ok in Hsel as (nd1 & _ & Hsel).
      apply rbind_Ok in Hsel as (mv' & _ & Hsel). injection Hsel as _ <- _.
      by eapply rollouts_searched.
    - destruct (player_turn (state nd) =? 1); [|done].
      apply rbind_Ok in Hsel as ([mv' g2] & _ & Hsel).
      apply rbind_Ok in Hsel as ([] & _ & Hsel). injection Hsel as _ <- _.
      split; [done | apply heap_le_refl]. }
  apply rbind_Ok in H as (nd1 & Hnd1 & H). apply deref_Ok in Hnd1.
  apply rbind_Ok in H as (tree' & Hc & H). apply deref_Ok in Hc.
  apply rbind_Ok in H as (nd' & Hnd' & H). apply deref_Ok in Hnd'.
  destruct (Hle1 _ _ Hnd) as (n1 & Hn1 & Hst1 & _).
  assert (n1 = nd1) as -> by congruence.
  pose proof (searched_valid_links Hdist _ _ Hs1 _ _ Hnd1 mv tree' Hc) as Hvalid.
  pose proof (searched_tree_shape _ _ Hs1) as (_ & _ & _ & _ & Hok & _).
  destruct (Hok tree mv tree') as (Hmv & s & (n2 & Hn2 & <-) & (c & Hcl & Hsc));
    [by exists nd1|].
  assert (n2 = nd1) as -> by congruence. assert (c = nd') as -> by congruence.
  destruct (IH _ _ _ _ _ _ _ _ Hs1 Hnd' H) as (shs & mhs & -> & -> & Hlegal).
  exists (state nd' :: shs), (mv :: mhs).
  split; [by rewrite <- app_assoc|]. split; [by rewrite <- app_assoc|].
  simpl. rewrite Hst1 in *. done.
Qed.

(** X20: with a distribution that keeps to its bounds, the histories
    that [play_vs_random] returns are one complete legal game: the state
    history starts with the initial state and has one state more than
    there are moves; every move is valid in the state it is played in and
    gives the next state; no state before the last is terminal and the
    last one is. *)
Theorem play_vs_random_returns_legal_game fuel g n sh mh :
  play_vs_random (G:=G) (F:=F) fuel g n = Ok (sh, mh) →
  ∃ ss, sh = game_new :: ss ∧ length sh = S (length mh) ∧
        legal_play game_new mh ss.
Proof using Hdist.
  unfold play_vs_random.
  pose proof (searched_root (R:=R) (F:=F) (game_new : G)) as Hs.
  pose proof (load_alloc_new NBLOCK arena_new (new_node (game_new : G))
                NBLOCK_pos (wf_new NBLOCK)) as Hroot.
  destruct (alloc NBLOCK arena_new (new_node game_new)) as [arena tree].
  cbn [fst snd] in *. rewrite Hroot. simpl. intros H.
  destruct (play_loop_legal _ _ _ _ _ _ _ _ _ _ _ Hs Hroot H) as (shs & mhs & -> & -> & Hl).
  exists shs. split; [done|]. split; [|done]. simpl. f_equal.
  clear -Hl. revert Hl. generalize (game_new : G). revert shs.
  induction mhs as [|m ms IH]; intros [|s' ss] s Hl; simpl in *; try done.
  f_equal. destruct Hl as (_ & _ & _ & _ & Hl). by eapply IH.
Qed.

Lemma count_upto_flip (p1 p2 : nat → bool) n mv :
  mv < n → p1 mv = true → p2 mv = false → (∀ j, j ≠ mv → p2 j = p1 j) →
  count_upto p2 n + 1 = count_upto p1 n.
Proof.
  intros Hmv H1 H2 Hoth. induction n as [|n IH]; [lia|]. simpl.
  destruct (decide (mv = n)) as [->|Hne].
  - rewrite H1, H2. rewrite (count_upto_ext p2 p1); [lia|].
    intros j Hj. apply Hoth. lia.
  - rewrite (Hoth n) by done. specialize (IH ltac:(lia)). lia.
Qed.

(** While a node has an unexplored valid move, a completed rollout
    explores exactly one more of them. *)
Lemma ucb_rollout_explores_one (s0 : G) fuel g a this nd g' a' w :
  searched (R:=R) (F:=F) s0 a → load a this = Some nd →
  winner (state nd) = NONE → 0 < n_unplayed_moves nd →
  ucb_rollout (F:=F) fuel g a this = Ok (g', a', w) →
  ∃ nd', load a' this = Some nd' ∧ state nd' = state nd ∧
         n_unplayed_moves nd' + 1 = n_unplayed_moves nd.
Proof using Hdist.
  intros Hs Hnd Hnone Hpos.
  pose proof (searched_ok _ _ Hs) as [Hwf Hall].
  destruct (Hall _ _ Hnd) as (_ & Hlt & _ & Hb & _).
  rewrite ucb_rollout_eq, Hnd. simpl.
  destruct (winner_NONE_dec (state nd)) as [[_ ?]|[-> _]]; [done|].
  destruct (Nat.ltb_spec 0 (n_unplayed_moves nd)) as [_|?]; [|lia].
  rewrite random_rollout_eq, Hnd. simpl.
  destruct (winner_NONE_dec (state nd)) as [[_ ?]|[-> _]]; [done|].
  destruct fuel as [|f]; [done|]. intros H.
  apply rbind_Ok in H as ([mv g1] & Hmv & H).
  pose proof (random_unplayed_move_lt _ _ _ _ Hmv) as Hmvlt.
  pose proof (random_unplayed_move_unplayed Hdist _ _ _ _ Hmv) as Hun.
  pose proof (wf_alloc NBLOCK a (new_node (move (state nd) mv)) NBLOCK_pos Hwf) as Hwf1.
  pose proof (alloc_fresh NBLOCK a (new_node (move (state nd) mv)) NBLOCK_pos Hwf) as Hfresh.
  pose proof (load_alloc_old NBLOCK a (new_node (move (state nd) mv)) this nd
                NBLOCK_pos Hwf Hnd) as Hold.
  destruct (alloc NBLOCK a (new_node (move (state nd) mv))) as [a1 node].
  cbn [fst snd] in *.
  apply rbind_Ok in H as ([[g2 a2] w2] & Hrec & H).
  apply rbind_Ok in H as (nd2 & Hnd2 & H). apply deref_Ok in Hnd2.
  apply rbind_Ok in H as ([] & _ & H).
  apply rbind_Ok in H as (nd3 & Hu & H).
  injection H as _ <- _.
  assert (this ≠ node) as Hne by (intros ->; congruence).
  assert (nd2 = nd) as ->.
  { pose proof (random_rollout_frame _ _ _ _ _ _ _ Hwf1 Hrec this nd Hne Hold). congruence. }
  exists nd3. split; [rewrite load_store_eq; eauto|].
  apply update_Ok in Hu as [_ ->]. split; [done|].
  unfold n_unplayed_moves. apply (count_upto_flip _ _ _ mv); [done | done | |].
  - unfold unplayed in *. cbn [tries state set_child].
    apply andb_true_iff in Hun as [Ht Hv]. apply Z.eqb_eq in Ht.
    rewrite zget_alter_eq by lia. rewrite Ht. done.
  - intros j Hj. unfold unplayed. cbn [tries state set_child].
    by rewrite zget_alter_ne.
Qed.

Lemma rollouts_explore (s0 : G) fuel n :
  ∀ g a this nd g' a',
    searched (R:=R) (F:=F) s0 a → load a this = Some nd →
    winner (state nd) = NONE → n ≤ n_unplayed_moves nd →
    rollouts (F:=F) fuel n g a this = Ok (g', a') →
    ∃ nd', load a' this = Some nd' ∧ state nd' = state nd ∧
           n_unplayed_moves nd' + n = n_unplayed_moves nd.
Proof using Hdist.
  induction n as [|n IH]; intros g a this nd g' a' Hs Hnd Hnone Hle; cbn [rollouts].
  - intros [= _ <-]. exists nd. split; [done|]. split; [done | lia].
  - intros H. apply rbind_Ok in H as ([[g1 a1] w1] & Hrun & H).
    destruct (ucb_rollout_explores_one _ _ _ _ _ _ _ _ _ Hs Hnd Hnone ltac:(lia) Hrun)
      as (nd1 & Hnd1 & Hst1 & Hcount).
    destruct (IH g1 a1 this nd1 g' a') as (nd' & Hnd' & Hst' & Hcount');
      [by eapply searched_rollout | done | congruence | lia | done |].
    exists nd'. split; [done|]. split; [congruence | lia].
Qed.

(** X21: with a distribution that keeps to its bounds, when player 0
    moves first and the rollout budget is smaller than the number of
    valid moves of the initial state, [play_vs_random] returns no game:
    after the budget is spent a valid move is still unexplored and the
    assertion of [ucb_move] fails (or a rollout has failed before). *)
Theorem play_vs_random_needs_budget fuel g n :
  winner (game_new : G) = NONE → player_turn (game_new : G) = 0 →
  n < count_upto (is_valid (game_new : G)) n_moves →
  ∀ r, play_vs_random (G:=G) (F:=F) fuel g n ≠ Ok r.
Proof using Hdist.
  intros Hnone Hturn Hlt r. unfold play_vs_random.
  pose proof (searched_root (R:=R) (F:=F) (game_new : G)) as Hs.
  pose proof (load_alloc_new NBLOCK arena_new (new_node (game_new : G))
                NBLOCK_pos (wf_new NBLOCK)) as Hroot.
  destruct (alloc NBLOCK arena_new (new_node game_new)) as [arena tree].
  cbn [fst snd] in *. rewrite Hroot. simpl.
  rewrite play_loop_eq, Hroot. simpl.
  destruct (winner_NONE_dec (game_new : G)) as [[_ ?]|[-> _]]; [done|].
  destruct fuel as [|f]; [done|]. rewrite Hturn. simpl.
  destruct (rollouts (S f) n g arena tree) as [[g1 a1]| |] eqn:Hroll; try done.
  pose proof (n_unplayed_new_node (game_new : G)) as Hnew.
  assert (n ≤ n_unplayed_moves (new_node (game_new : G))) as Hle by lia.
  destruct (rollouts_explore _ _ _ _ _ _ _ _ _ Hs Hroot Hnone Hle Hroll)
    as (nd1 & Hnd1 & _ & Hcount).
  simpl. rewrite Hnd1. simpl. unfold ucb_move, ucb_move_traced.
  destruct (Nat.eqb_spec (n_unplayed_moves nd1) 0) as [Heq|Hne]; [lia|]. done.
Qed.
End DriverGames.

(** ** Deep copies *)

Section CloneFacts.
Context {G : Type} `{!Game G}.
Local Abbreviation MyArena := (Arena (Node G)).
Implicit Types (a b : MyArena) (nd : Node G) (p q this node : ptr).

Local Arguments clone : simpl never.

Lemma clone_eq fuel a this :
  clone fuel a this =
  do nd <- deref (load a this);
  let '(a1, node) := alloc NBLOCK a (new_node (state nd)) in
  do a2 <- clone_children
             (match fuel with 0 => λ _ _, OutOfFuel | S f => clone f end)
             (store a1 node nd) node 0 n_moves;
  Ok (a2, node).
Proof. by destruct fuel. Qed.

Lemma copy_upto_base b b' d :
  ∀ a p a' q,
    (∀ r, load b r = None → load b' r = None) →
    copy_upto b d a p a' q → copy_upto b' d a p a' q.
Proof.
  induction d as [|d IH]; intros a p a' q Hb; simpl; [done|].
  intros (Hq & nd & nd' & Hp & Hq' & Hs & Ht & Htr & Hw & Hch).
  split; [by apply Hb|]. exists nd, nd'. do 6 (split; [done|]).
  intros i Hi. specialize (Hch i Hi).
  destruct (child nd i), (child nd' i); try done. by apply IH.
Qed.

Lemma copy_upto_right b d :
  ∀ a p a1 a2 q,
    (∀ r x, load b r = None → load a1 r = Some x → load a2 r = Some x) →
    copy_upto b d a p a1 q → copy_upto b d a p a2 q.
Proof.
  induction d as [|d IH]; intros a p a1 a2 q Hf; simpl; [done|].
  intros (Hq & nd & nd' & Hp & Hq' & Hs & Ht & Htr & Hw & Hch).
  split; [done|]. exists nd, nd'. split; [done|]. split; [by eapply Hf|].
  do 4 (split; [done|]).
  intros i Hi. specialize (Hch i Hi).
  destruct (child nd i), (child nd' i); try done. by eapply IH.
Qed.

Lemma copy_upto_left b d :
  ∀ a0 a p a' q,
    closed a0 → (∀ r x, load a0 r = Some x → load a r = Some x) →
    is_Some (load a0 p) →
    copy_upto b d a p a' q → copy_upto b d a0 p a' q.
Proof.
  induction d as [|d IH]; intros a0 a p a' q Hcl Hfr [nd0 Hp0]; simpl; [done|].
  intros (Hq & nd & nd' & Hp & Hq' & Hs & Ht & Htr & Hw & Hch).
  assert (nd = nd0) as -> by (apply Hfr in Hp0; congruence).
  split; [done|]. exists nd0, nd'. do 6 (split; [done|]).
  intros i Hi. specialize (Hch i Hi).
  destruct (child nd0 i) as [p'|] eqn:Hc, (child nd' i); try done.
  eapply IH; [done | done | | done].
  apply (Hcl p i p'). by exists nd0.
Qed.

Lemma closed_store a p nd :
  closed a → is_Some (load a p) →
  (∀ i q, child nd i = Some q → is_Some (load a q)) →
  closed (store a p nd).
Proof.
  intros Hcl Hp Hnd r i q (x & Hr & Hc). apply load_store_is_Some.
  destruct (decide (p = r)) as [<-|Hne].
  - rewrite load_store_eq in Hr by done. injection Hr as <-. by eapply Hnd.
  - rewrite load_store_ne in Hr by done. apply (Hcl r i q). by exists x.
Qed.

Lemma clone_children_inv (rec : MyArena → ptr → result (MyArena * ptr))
    a0 ab nd0 node :
  (∀ a p a' q, wf NBLOCK a → closed a → rec a p = Ok (a', q) →
     wf NBLOCK a' ∧ closed a' ∧
     (∀ r x, load a r = Some x → load a' r = Some x) ∧
     ∀ d, copy_upto a d a p a' q) →
  closed a0 → (∀ j p, child nd0 j = Some p → is_Some (load a0 p)) →
  is_Some (load ab node) → load a0 node = None →
  ∀ todo a i a',
    clone_inv a0 ab nd0 node a i →
    clone_children rec a node i todo = Ok a' →
    clone_inv a0 ab nd0 node a' (i + todo).
Proof.
  intros Hrec Hcl0 Hnd0 Hbnode Hfresh.
  induction todo as [|t IH]; intros a i a' Hinv; simpl.
  { intros [= <-]. by rewrite Nat.add_0_r. }
  intros H. apply rbind_Ok in H as (nd & Hnd & H). apply deref_Ok in Hnd.
  replace (i + S t) with (S i + t) by lia.
  destruct Hinv as (Hwf & Hcl & Hfr & Hbase & nd' & Hnd' & Hs & Ht & Htr & Hw & Hdone & Hrest).
  assert (nd' = nd) as -> by congruence.
  destruct (child nd i) as [p|] eqn:Hc.
  - apply rbind_Ok in H as ([a1 q] & Hcall & H).
    apply rbind_Ok in H as (nd1 & Hnd1 & H). apply deref_Ok in Hnd1.
    destruct (Hrec _ _ _ _ Hwf Hcl Hcall) as (Hwf1 & Hcl1 & Hfr1 & Hcopy).
    assert (nd1 = nd) as -> by (apply Hfr1 in Hnd; congruence).
    assert (child nd0 i = Some p) as Hc0 by (rewrite <- Hrest by lia; done).
    assert (is_Some (load a1 q)) as Hq.
    { destruct (Hcopy 1) as (_ & ? & x & _ & Hx & _). by exists x. }
    assert (∀ r x, load ab r = None → load a1 r = Some x →
                   load (store a1 node (set_child i q nd)) r = Some x) as Hkeep.
    { intros r x Hr Hx. rewrite load_store_ne; [done|].
      intros <-. destruct Hbnode as [? ?]. congruence. }
    apply (IH _ _ _) in H; [done|].
    split; [by apply wf_store|]. split.
    { apply closed_store; [done | by exists nd |].
      intros j r Hj. destruct (decide (j = i)) as [->|Hne].
      - apply child_lt in Hc as Hlt. rewrite child_set_child_eq in Hj by done.
        by injection Hj as <-.
      - rewrite child_set_child_ne in Hj by done.
        destruct (Hcl1 node j r) as [y Hy]; [by exists nd; eauto|]. by exists y. }
    split.
    { intros r x Hr. rewrite load_store_ne; [by apply Hfr1, Hfr|].
      intros <-. congruence. }
    split.
    { intros r Hr. apply Hbase.
      destruct (load a r) as [x|] eqn:Hx; [|done].
      exfalso. apply Hfr1 in Hx.
      destruct (load_store_is_Some a1 node r (set_child i q nd)) as [? ?];
        [by eexists | congruence]. }
    exists (set_child i q nd). split; [apply load_store_eq; by exists nd|].
    do 4 (split; [done|]). split.
    + intros j Hj. destruct (decide (j = i)) as [->|Hne].
      * apply child_lt in Hc as Hlt. rewrite Hc0, child_set_child_eq by done.
        intros d. apply (copy_upto_right _ _ _ _ a1); [done|].
        apply (copy_upto_left _ _ _ a); [done | done | by eapply Hnd0 |].
        apply (copy_upto_base a); [done | apply Hcopy].
      * rewrite child_set_child_ne by done. specialize (Hdone j ltac:(lia)).
        destruct (child nd0 j), (child nd j); try done.
        intros d. apply (copy_upto_right _ _ _ _ a); [|apply Hdone].
        intros r x Hr Hx. apply Hkeep; [done | by apply Hfr1].
    + intros j Hj. rewrite child_set_child_ne by lia. apply Hrest. lia.
  - apply (IH _ _ _) in H; [done|].
    split; [done|]. split; [done|]. split; [done|]. split; [done|].
    exists nd. do 5 (split; [done|]). split.
    + intros j Hj. destruct (decide (j = i)) as [->|Hne].
      * rewrite <- (Hrest i) by lia. by rewrite Hc.
      * apply Hdone. lia.
    + intros j Hj. apply Hrest. lia.
Qed.

Lemma clone_body_spec (rec : MyArena → ptr → result (MyArena * ptr)) a this a' node :
  (∀ a p a' q, wf NBLOCK a → closed a → rec a p = Ok (a', q) →
     wf NBLOCK a' ∧ closed a' ∧
     (∀ r x, load a r = Some x → load a' r = Some x) ∧
     ∀ d, copy_upto a d a p a' q) →
  wf NBLOCK a → closed a →
  (do nd <- deref (load a this);
   let '(a1, node) := alloc NBLOCK a (new_node (state nd)) in
   do a2 <- clone_children rec (store a1 node nd) node 0 n_moves;
   Ok (a2, node)) = Ok (a', node) →
  wf NBLOCK a' ∧ closed a' ∧
  (∀ r x, load a r = Some x → load a' r = Some x) ∧
  ∀ d, copy_upto a d a this a' node.
Proof.
  intros Hrec Hwf Hcl H.
  apply rbind_Ok in H as (nd0 & Hnd0 & H). apply deref_Ok in Hnd0.
  pose proof (wf_alloc NBLOCK a (new_node (state nd0)) NBLOCK_pos Hwf) as Hwf1.
  pose proof (alloc_fresh NBLOCK a (new_node (state nd0)) NBLOCK_pos Hwf) as Hfresh.
  pose proof (load_alloc_new NBLOCK a (new_node (state nd0)) NBLOCK_pos Hwf) as Hnew.
  pose proof (λ r x, load_alloc_old NBLOCK a (new_node (state nd0)) r x NBLOCK_pos Hwf)
    as Hold.
  pose proof (closed_alloc a (state nd0) Hwf Hcl) as Hcl1.
  destruct (alloc NBLOCK a (new_node (state nd0))) as [a1 nod]. cbn [fst snd] in *.
  apply rbind_Ok in H as (a2 & Hloop & H). injection H as <- <-.
  assert (∀ j p, child nd0 j = Some p → is_Some (load a p)) as Hkids.
  { intros j p Hj. apply (Hcl this j p). by exists nd0. }
  assert (is_Some (load (store a1 nod nd0) nod)) as Hbnode.
  { apply load_store_is_Some. by eexists. }
  apply (clone_children_inv rec a (store a1 nod nd0) nd0 nod Hrec Hcl Hkids Hbnode Hfresh)
    in Hloop.
  - destruct Hloop as (Hwf2 & Hcl2 & Hfr2 & Hbase2 & nd & Hnd & Hs & Ht & Htr & Hw & Hdone & _).
    split; [done|]. split; [done|]. split; [done|].
    intros [|d]; simpl; [done|]. split; [done|].
    exists nd0, nd. do 6 (split; [done|]).
    intros i Hi. specialize (Hdone i ltac:(lia)).
    destruct (child nd0 i), (child nd i); try done.
    apply (copy_upto_base (store a1 nod nd0)); [|apply Hdone].
    intros r Hr. destruct (load a r) as [z|] eqn:Hz; [|done].
    exfalso. apply Hold in Hz.
    destruct (load_store_is_Some a1 nod r nd0) as [? ?]; [by eexists | congruence].
  - split; [by apply wf_store|]. split.
    { apply closed_store; [done | by eexists |].
      intros i q Hi. destruct (Hkids i q Hi) as [y Hy]. exists y. by apply Hold. }
    split.
    { intros r x Hr. rewrite load_store_ne; [by apply Hold|]. intros <-. congruence. }
    split; [done|].
    exists nd0. split; [apply load_store_eq; by eexists|].
    do 4 (split; [done|]). split; [intros j Hj; lia | done].
Qed.
Lemma clone_spec fuel :
  ∀ a this a' node,
    wf NBLOCK a → closed a → clone fuel a this = Ok (a', node) →
    wf NBLOCK a' ∧ closed a' ∧
    (∀ r x, load a r = Some x → load a' r = Some x) ∧
    ∀ d, copy_upto a d a this a' node.
Proof.
  induction fuel as [|f IH]; intros a this a' node Hwf Hcl; rewrite clone_eq;
    intros H; eapply clone_body_spec; try exact H; try done.
Qed.

(** X22: in an arena in which every child pointer of a node points to
    a node, a completed [clone] leaves every node that was in the arena
    exactly as it was, and the pointer it returns is the root of a deep
    copy: down to every depth the copy has the states, the counters and
    the occupied slots of the original, and each of its nodes is a new
    one. *)
Theorem clone_makes_deep_copy fuel a this a' node :
  wf NBLOCK a → closed a → clone fuel a this = Ok (a', node) →
  (∀ r x, load a r = Some x → load a' r = Some x) ∧
  ∀ d, copy_upto a d a this a' node.
Proof.
  intros Hwf Hcl Hrun.
  destruct (clone_spec fuel a this a' node Hwf Hcl Hrun) as (_ & _ & Hfr & Hcopy).
  done.
Qed.

Lemma height_le_frame h :
  ∀ a a' p, (∀ r x, load a r = Some x → load a' r = Some x) →
            height_le h a p = true → height_le h a' p = true.
Proof.
  induction h as [|h IH]; intros a a' p Hfr; simpl;
    destruct (load a p) as [nd|] eqn:Hp; try done;
    rewrite (Hfr _ _ Hp); [done|].
  rewrite !forallb_forall. intros Hall i Hi. specialize (Hall i Hi).
  destruct (child nd i); [|done]. by eapply IH.
Qed.

Lemma height_le_loaded h a p : height_le h a p = true → is_Some (load a p).
Proof. destruct h; simpl; destruct (load a p); by eauto. Qed.

Lemma height_le_child h a p nd i q :
  load a p = Some nd → i < n_moves → child nd i = Some q →
  height_le h a p = true →
  ∃ h', h = S h' ∧ height_le h' a q = true.
Proof.
  intros Hp Hi Hc Hh.
  assert (match child nd i with
          | None => true
          | Some q => match h with 0 => false | S h' => height_le h' a q end
          end = true) as Hq.
  { destruct h; simpl in Hh; rewrite Hp in Hh; rewrite forallb_forall in Hh;
      apply Hh, in_seq; lia. }
  rewrite Hc in Hq. destruct h as [|h']; [done|]. by exists h'.
Qed.

Lemma clone_children_step (rec : MyArena → ptr → result (MyArena * ptr)) a node i t :
  clone_children rec a node i (S t) =
  do a1 <- clone_children rec a node i 1; clone_children rec a1 node (S i) t.
Proof.
  simpl. destruct (load a node) as [nd|]; simpl; [|done].
  destruct (child nd i); [|done].
  destruct (rec a p) as [[a1 q]| |]; simpl; [|done|done].
  by destruct (load a1 node).
Qed.

Lemma clone_children_total (rec : MyArena → ptr → result (MyArena * ptr))
    a0 ab nd0 node :
  (∀ a p a' q, wf NBLOCK a → closed a → rec a p = Ok (a', q) →
     wf NBLOCK a' ∧ closed a' ∧
     (∀ r x, load a r = Some x → load a' r = Some x) ∧
     ∀ d, copy_upto a d a p a' q) →
  (∀ a j p, wf NBLOCK a → closed a →
     (∀ r x, load a0 r = Some x → load a r = Some x) →
     j < n_moves → child nd0 j = Some p → ∃ a' q, rec a p = Ok (a', q)) →
  closed a0 → (∀ j p, child nd0 j = Some p → is_Some (load a0 p)) →
  is_Some (load ab node) → load a0 node = None →
  ∀ todo a i,
    i + todo ≤ n_moves →
    clone_inv a0 ab nd0 node a i →
    ∃ a', clone_children rec a node i todo = Ok a'.
Proof.
  intros Hrec Htot Hcl0 Hnd0 Hbnode Hfresh.
  induction todo as [|t IH]; intros a i Hle Hinv; [by exists a|].
  rewrite clone_children_step.
  assert (∃ a1, clone_children rec a node i 1 = Ok a1) as [a1 Hstep].
  { destruct Hinv as (Hwf & Hcl & Hfr & _ & nd & Hnd & _ & _ & _ & _ & _ & Hrest).
    simpl. rewrite Hnd. simpl. rewrite (Hrest i) by lia.
    destruct (child nd0 i) as [p|] eqn:Hc; [|by eexists].
    destruct (Htot a i p) as (a1 & q & Hcall); [done | done | done | lia | done |].
    rewrite Hcall. simpl.
    destruct (Hrec _ _ _ _ Hwf Hcl Hcall) as (_ & _ & Hfr1 & _).
    rewrite (Hfr1 _ _ Hnd). simpl. by eexists. }
  rewrite Hstep. simpl. apply IH; [lia|].
  replace (S i) with (i + 1) by lia.
  by eapply clone_children_inv.
Qed.

Lemma clone_total h :
  ∀ a this, wf NBLOCK a → closed a → height_le h a this = true →
            ∃ a' node, clone h a this = Ok (a', node).
Proof.
  induction h as [|h IH]; intros a this Hwf Hcl Hh; rewrite clone_eq.
  all: destruct (height_le_loaded _ _ _ Hh) as [nd0 Hnd0].
  all: rewrite Hnd0; simpl.
  all: pose proof (wf_alloc NBLOCK a (new_node (state nd0)) NBLOCK_pos Hwf) as Hwf1.
  all: pose proof (alloc_fresh NBLOCK a (new_node (state nd0)) NBLOCK_pos Hwf) as Hfresh.
  all: pose proof (load_alloc_new NBLOCK a (new_node (state nd0)) NBLOCK_pos Hwf) as Hnew.
  all: pose proof (λ r x, load_alloc_old NBLOCK a (new_node (state nd0)) r x NBLOCK_pos Hwf)
         as Hold.
  all: pose proof (closed_alloc a (state nd0) Hwf Hcl) as Hcl1.
  all: destruct (alloc NBLOCK a (new_node (state nd0))) as [a1 nod]; cbn [fst snd] in *.
  all: assert (∀ j p, child nd0 j = Some p → is_Some (load a p)) as Hkids
         by (intros j p Hj; apply (Hcl this j p); by exists nd0).
  all: assert (is_Some (load (store a1 nod nd0) nod)) as Hbnode
         by (apply load_store_is_Some; by eexists).
  all: assert (clone_inv a (store a1 nod nd0) nd0 nod (store a1 nod nd0) 0) as Hinv.
  1,3: split; [by apply wf_store|]; split;
       [apply closed_store; [done | by eexists |];
        intros i q Hi; destruct (Hkids i q Hi) as [y Hy]; exists y; by apply Hold|];
       split; [intros r x Hr; rewrite load_store_ne; [by apply Hold|]; intros <-; congruence|];
       split; [done|];
       exists nd0; split; [apply load_store_eq; by eexists|];
       do 4 (split; [done|]); split; [intros j Hj; lia | done].
  - destruct (clone_children_total (λ _ _, OutOfFuel) a (store a1 nod nd0) nd0 nod)
      with (todo := n_moves) (a := store a1 nod nd0) (i := 0) as [a2 Hloop];
      try done.
    + intros a3 j p _ _ _ Hj Hc.
      destruct (height_le_child 0 a this nd0 j p Hnd0 Hj Hc Hh) as (? & ? & _). done.
    + rewrite Hloop. simpl. by eexists _, _.
  - destruct (clone_children_total (clone h) a (store a1 nod nd0) nd0 nod)
      with (todo := n_moves) (a := store a1 nod nd0) (i := 0) as [a2 Hloop];
      try done.
    + intros. by eapply clone_spec.
    + intros a3 j p Hwf3 Hcl3 Hfr3 Hj Hc.
      destruct (height_le_child (S h) a this nd0 j p Hnd0 Hj Hc Hh) as (h' & [= <-] & Hq).
      apply IH; [done | done |]. by eapply height_le_frame.
    + rewrite Hloop. simpl. by eexists _, _.
Qed.

(** X23: in an arena in which every child pointer of a node points to
    a node, [clone] on a tree of height at most [h] needs no more than
    [h] nested calls: it returns, and what it returns is a deep copy
    beside the untouched original. *)
Theorem clone_returns_on_finite_tree h a this :
  wf NBLOCK a → closed a → height_le h a this = true →
  ∃ a' node,
    clone h a this = Ok (a', node) ∧
    load a node = None ∧
    (∀ r x, load a r = Some x → load a' r = Some x) ∧
    ∀ d, copy_upto a d a this a' node.
Proof.
  intros Hwf Hcl Hh.
  destruct (clone_total h a this Hwf Hcl Hh) as (a' & node & Hrun).
  exists a', node. split; [done|].
  destruct (clone_spec h a this a' node Hwf Hcl Hrun) as (_ & _ & Hfr & Hcopy).
  split; [|done]. by destruct (Hcopy 1) as (? & _).
Qed.
End CloneFacts.

(** ** Printing a position *)

Section Printing.
Import TTT.

Lemma land_bit (a : Z) (k : nat) :
  (Z.land a (Z.shiftl 1 (Z.of_nat k)) =? 0)%Z = negb (Z.testbit a (Z.of_nat k)).
Proof.
  rewrite Z.shiftl_1_l.
  destruct (Z.testbit a (Z.of_nat k)) eqn:Hb; simpl.
  - apply Z.eqb_neq. intros H0.
    assert (Z.testbit (Z.land a (2 ^ Z.of_nat k)) (Z.of_nat k) = true) as Ht.
    { rewrite Z.land_spec, Hb, Z.pow2_bits_true by lia. done. }
    rewrite H0, Z.bits_0 in Ht. done.
  - apply Z.eqb_eq, Z.bits_inj'. intros n Hn.
    rewrite Z.land_spec, Z.bits_0, Z.pow2_bits_eqb by lia.
    destruct (Z.eqb_spec (Z.of_nat k) n) as [<-|]; [by rewrite Hb | apply andb_false_r].
Qed.

Lemma print_cell_ok (t : TicTacToe) k s :
  Z.land (xos0 t) (xos1 t) = 0%Z → k < 9 →
  print_cell t k s =
  Ok (s ++ [if is_valid t k then "-"
            else if Z.testbit (xos0 t) (Z.of_nat k) then "X" else "O"]%char).
Proof.
  intros Hdisj Hk. unfold print_cell. rewrite !land_bit, !negb_involutive.
  assert (Z.testbit (xos0 t) (Z.of_nat k) && Z.testbit (xos1 t) (Z.of_nat k) = false)
    as Hboth by (rewrite <- Z.land_spec, Hdisj; apply Z.bits_0).
  assert (is_valid t k =
          negb (Z.testbit (xos0 t) (Z.of_nat k) || Z.testbit (xos1 t) (Z.of_nat k)))
    as ->.
  { simpl. unfold ttt_is_valid, board.
    rewrite Z.mod_small.
    - by rewrite Z.land_comm, land_bit, Z.lor_spec.
    - rewrite Z.shiftl_1_l. split; [lia|].
      apply (Z.lt_le_trans _ (2 ^ 9)); [apply Z.pow_lt_mono_r; lia | done]. }
  rewrite Hboth. simpl.
  by destruct (Z.testbit (xos0 t) _), (Z.testbit (xos1 t) _).
Qed.

(** X24: a position in which no cell is marked by both players is
    printed without a failed assertion: twelve characters are appended
    to the stream, three rows of three cells each followed by a newline,
    and the cell of move [3*i+j] is shown as [-] exactly when the move is
    valid, otherwise as [X] when player 0 holds it and as [O] when
    player 1 does. *)
Theorem print_board_shows_position (t : TicTacToe) (s : list ascii) :
  ttt_ok t →
  ∃ out, print_board s t = Ok (s ++ out) ∧ length out = 12 ∧
    ∀ i j, i < 3 → j < 3 →
      out !! (4 * i + j) =
        Some (if is_valid t (3 * i + j) then "-"
              else if Z.testbit (xos0 t) (Z.of_nat (3 * i + j)) then "X" else "O")%char ∧
      out !! (4 * i + 3) = Some "010"%char.
Proof.
  intros (_ & _ & _ & Hdisj & _).
  unfold print_board. cbn [print_rows print_row Nat.mul Nat.add].
  rewrite !(print_cell_ok t _ _ Hdisj) by lia.
  repeat (cbn [rbind]; rewrite ?(print_cell_ok t _ _ Hdisj) by lia).
  rewrite <- !app_assoc. cbn [app].
  eexists. split; [reflexivity|]. split; [reflexivity|].
  intros i j Hi Hj.
  destruct i as [|[|[|i]]]; [| | |lia];
    (destruct j as [|[|[|j]]]; [| | |lia]); split; reflexivity.
Qed.

(** X25: a position in which some cell of the board is marked by both
    players is not printed: the assertion fails at the first such
    cell. *)
Theorem print_board_rejects_double_mark (t : TicTacToe) (s : list ascii) k :
  k < 9 →
  Z.testbit (xos0 t) (Z.of_nat k) = true → Z.testbit (xos1 t) (Z.of_nat k) = true →
  print_board s t = Abort.
Proof.
  intros Hk H0 H1.
  assert (∀ j s', j < 9 →
            print_cell t j s' = Abort ∨ ∃ s'', print_cell t j s' = Ok s'') as Hcell.
  { intros j s' _. unfold print_cell, cassert.
    destruct (negb (_ && _)); simpl; eauto. }
  assert (∀ s', print_cell t k s' = Abort) as Hbad.
  { intros s'. unfold print_cell. by rewrite !land_bit, H0, H1. }
  unfold print_board. cbn [print_rows print_row Nat.mul Nat.add].
  do 9 (destruct k as [|k];
        [repeat first [rewrite Hbad; reflexivity
                      | match goal with
                        | |- context [print_cell t ?j ?s'] =>
                            destruct (Hcell j s' ltac:(lia)) as [->|[? ->]];
                            [reflexivity|]; cbn [rbind]
                        end]|]).
  lia.
Qed.
End Printing.

(** ** Runs of the model on TicTacToe trees *)

Section FurtherRuns.
Import TTT.

Lemma int_scores_strict_order (P : Z → Prop) : strict_order P (fgt (F:=Z)).
Proof.
  simpl. split; [|split].
  - intros x _. rewrite Z.gtb_ltb. apply Z.ltb_irrefl.
  - intros x y z _ _ _. rewrite !Z.gtb_ltb, !Z.ltb_lt. lia.
  - intros x y z _ _ _. rewrite !Z.gtb_ltb, Z.ltb_ge, !Z.ltb_lt. lia.
Qed.

Lemma ttt_arena12_searched : searched (R:=Z) (F:=Z) (game_new : TicTacToe) ttt_arena12.
Proof.
  eapply (ttt_search_searched 9 12 42%Z). vm_compute. reflexivity.
Qed.

Lemma ttt_endgame_searched : searched (R:=Z) (F:=Z) ttt_endgame ttt_endgame_arena.
Proof.
  eapply (searched_rollouts ttt_endgame 9 5 7%Z); [constructor|].
  vm_compute. reflexivity.
Qed.

Lemma ttt_arena1_wf : wf NBLOCK ttt_arena1.
Proof. apply (searched_ok (R:=Z) (F:=Z) game_new), ttt_arena1_searched. Qed.

Lemma ttt_arena1_closed : closed ttt_arena1.
Proof.
  apply links_ok_closed.
  pose proof (searched_tree_shape (R:=Z) (F:=Z) _ _ ttt_arena1_searched)
    as (_ & _ & _ & _ & Hok & _).
  exact Hok.
Qed.

Lemma ttt_ok_mid : ttt_ok ttt_mid.
Proof. unfold ttt_ok, ttt_mid, board. simpl. repeat split; lia. Qed.

Lemma allocs_fill_blocks_in_order_witness :
  0 < 2 ∧
  arena_contents (allocs 2 (@arena_new nat) [10; 11; 12; 13; 14]).1 = [10; 11; 12; 13; 14] ∧
  length (blocks (allocs 2 (@arena_new nat) [10; 11; 12; 13; 14]).1) = 3.
Proof.
  split; [lia|].
  pose proof (allocs_fill_blocks_in_order 2 [10; 11; 12; 13; 14] ltac:(lia)) as H.
  cbv zeta in H. destruct H as (H1 & H2 & _).
  split; [exact H1 | exact H2].
Defined.

Lemma allocs_pointers_distinct_witness :
  0 < 2 ∧ built 2 (@arena_new nat) ∧
  NoDup (allocs 2 (@arena_new nat) [10; 11; 12]).2.
Proof.
  split; [lia|]. split; [constructor|].
  pose proof (allocs_pointers_distinct 2 (@arena_new nat) [10; 11; 12]
                ltac:(lia) (built_new 2)) as H.
  destruct (allocs 2 (@arena_new nat) [10; 11; 12]) as [a' ps].
  destruct H as (_ & H & _). exact H.
Defined.

Lemma ucb_move_returns_valid_move_witness :
  ucb_move (F:=Z) ttt_arena12 ttt_root12 = Ok 6 ∧
  6 < n_moves (G:=TicTacToe) ∧ is_valid (state ttt_root12) 6 = true.
Proof.
  split; [vm_compute; reflexivity|].
  apply (ucb_move_returns_valid_move (F:=Z) ttt_arena12 ttt_root12 6).
  vm_compute. reflexivity.
Defined.

Lemma ucb_move_without_valid_move_witness :
  count_upto (is_valid (state ttt_leaf1)) n_moves = 0 ∧
  ucb_move (F:=Z) ttt_arena1 ttt_leaf1 = Abort.
Proof.
  split; [reflexivity|].
  apply (ucb_move_without_valid_move (F:=Z) ttt_arena1 ttt_leaf1).
  intros j Hj. do 9 (destruct j as [|j]; [reflexivity|]). simpl in Hj. lia.
Defined.

Lemma ucb_move_returns_first_greatest_witness :
  ucb_move (F:=Z) ttt_arena12 ttt_root12 = Ok 6 ∧
  fgt (ucb_of (F:=Z) ttt_root12 8) (ucb_of ttt_root12 6) = false ∧
  fgt (ucb_of (F:=Z) ttt_root12 6) (ucb_of ttt_root12 5) = true.
Proof.
  split; [vm_compute; reflexivity|].
  destruct (ucb_move_returns_first_greatest (F:=Z) ttt_arena12 ttt_root12 6)
    as (_ & _ & H).
  - apply int_scores_strict_order.
  - intros j Hj _ [[_ Hw]|[Hp _]]; [|discriminate Hp].
    revert Hw.
    do 9 (destruct j as [|j]; [vm_compute; discriminate|]). simpl in Hj. lia.
  - vm_compute. reflexivity.
  - split.
    + apply (H 8); [simpl; lia | vm_compute; reflexivity].
    + apply (H 5); [simpl; lia | vm_compute; reflexivity | lia].
Defined.

Lemma random_moves_fail_on_overdraw_witness :
  random_move (R:=nat) 10 (new_node (game_new : TicTacToe)) = Abort ∧
  random_unplayed_move (R:=nat) 10 (new_node (game_new : TicTacToe)) = Abort.
Proof.
  destruct (random_moves_fail_on_overdraw (R:=nat) 10 (new_node (game_new : TicTacToe)))
    as [H1 H2].
  split; [apply H1 | apply H2]; vm_compute; lia.
Defined.

Lemma random_rollout_touches_only_this_witness :
  ∃ g' a' w,
    random_rollout 9 7%Z ttt_arena1 (1, 0) = Ok (g', a', w) ∧
    load a' (1, 9) = Some ttt_leaf1.
Proof.
  assert (∃ r, random_rollout 9 7%Z ttt_arena1 (1, 0) = Ok r) as [[[g' a'] w] Hrun]
    by (eexists; vm_compute; reflexivity).
  exists g', a', w. split; [exact Hrun|].
  apply (random_rollout_touches_only_this (R:=Z) 9 7%Z ttt_arena1 (1, 0) g' a' w
           ttt_arena1_wf Hrun (1, 9) ttt_leaf1); [done | reflexivity].
Defined.

Lemma ucb_rollout_keeps_nodes_witness :
  ∃ g' a' w,
    ucb_rollout (F:=Z) 9 7%Z ttt_arena1 (1, 0) = Ok (g', a', w) ∧ w ≠ NONE.
Proof.
  assert (∃ r, ucb_rollout (F:=Z) 9 7%Z ttt_arena1 (1, 0) = Ok r) as [[[g' a'] w] Hrun]
    by (eexists; vm_compute; reflexivity).
  exists g', a', w. split; [exact Hrun|].
  apply (ucb_rollout_keeps_nodes (F:=Z) 9 7%Z ttt_arena1 (1, 0) g' a' w
           ttt_arena1_wf Hrun).
Defined.

Lemma children_hold_next_state_witness :
  load ttt_arena1 (1, 0) = Some ttt_root1 ∧ child ttt_root1 6 = Some (1, 1) ∧
  ∃ c, load ttt_arena1 (1, 1) = Some c ∧ state c = move (state ttt_root1) 6.
Proof.
  split; [reflexivity|]. split; [reflexivity|].
  apply (children_hold_next_state (R:=Z) (F:=Z) game_new ttt_arena1 (1, 0) ttt_root1 6 (1, 1));
    [apply ttt_arena1_searched | reflexivity | reflexivity].
Defined.

Lemma children_are_owned_once_witness :
  load ttt_arena1 (1, 0) = Some ttt_root1 ∧ child ttt_root1 6 = Some (1, 1) ∧
  (1, 1) ≠ root_of (game_new : TicTacToe).
Proof.
  split; [reflexivity|]. split; [reflexivity|].
  apply (children_are_owned_once (R:=Z) (F:=Z) game_new ttt_arena1
           (1, 0) ttt_root1 6 (1, 0) ttt_root1 6 (1, 1));
    [apply ttt_arena1_searched | reflexivity | reflexivity | reflexivity | reflexivity].
Defined.

Lemma children_links_are_acyclic_witness :
  reachable ttt_arena1 (1, 0) (1, 9) ∧ load ttt_arena1 (1, 9) = Some ttt_leaf1 ∧
  child ttt_leaf1 0 ≠ Some (1, 0).
Proof.
  assert (reachable ttt_arena1 (1, 0) (1, 9)) as Hr
    by (apply (follow_reachable _ _ [6; 8; 4; 7; 1; 2; 5; 0; 3]); reflexivity).
  split; [exact Hr|]. split; [reflexivity|].
  apply (children_links_are_acyclic (R:=Z) (F:=Z) game_new ttt_arena1 (1, 0) (1, 9)
           ttt_leaf1 0); [apply ttt_arena1_searched | exact Hr | reflexivity].
Defined.

Lemma ucb_rollout_counts_one_visit_witness :
  load ttt_arena1 (1, 0) = Some ttt_root1 ∧ winner (state ttt_root1) = NONE ∧
  ∃ g' a' w,
    ucb_rollout (F:=Z) 9 7%Z ttt_arena1 (1, 0) = Ok (g', a', w) ∧
    ∃ nd', load a' (1, 0) = Some nd' ∧ tot_tries nd' = 2%Z.
Proof.
  split; [reflexivity|]. split; [reflexivity|].
  assert (∃ r, ucb_rollout (F:=Z) 9 7%Z ttt_arena1 (1, 0) = Ok r) as [[[g' a'] w] Hrun]
    by (eexists; vm_compute; reflexivity).
  exists g', a', w. split; [exact Hrun|].
  destruct (ucb_rollout_counts_one_visit (R:=Z) (F:=Z) game_new 9 7%Z ttt_arena1 (1, 0)
              ttt_root1 g' a' w ttt_arena1_searched eq_refl eq_refl Hrun)
    as (mv & nd' & Hl & _ & _ & _ & Ht & _).
  exists nd'. split; [exact Hl | exact Ht].
Defined.

Lemma explored_moves_are_valid_witness :
  load ttt_arena1 (1, 0) = Some ttt_root1 ∧ is_move_explored ttt_root1 6 = true ∧
  is_valid (state ttt_root1) 6 = true.
Proof.
  split; [reflexivity|]. split; [reflexivity|].
  apply (explored_moves_are_valid (R:=Z) (F:=Z) minstd_dist_contract game_new
           ttt_arena1 (1, 0) ttt_root1 6);
    [apply ttt_arena1_searched | reflexivity | reflexivity].
Defined.

Lemma ucb_rollout_returns_reachable_outcome_witness :
  load ttt_arena1 (1, 0) = Some ttt_root1 ∧
  ∃ g' a' w,
    ucb_rollout (F:=Z) 9 7%Z ttt_arena1 (1, 0) = Ok (g', a', w) ∧
    ∃ s', follows (state ttt_root1) s' ∧ winner s' = w.
Proof.
  split; [reflexivity|].
  assert (∃ r, ucb_rollout (F:=Z) 9 7%Z ttt_arena1 (1, 0) = Ok r) as [[[g' a'] w] Hrun]
    by (eexists; vm_compute; reflexivity).
  exists g', a', w. split; [exact Hrun|].
  destruct (ucb_rollout_returns_reachable_outcome (R:=Z) (F:=Z) minstd_dist_contract
              game_new 9 7%Z ttt_arena1 (1, 0) ttt_root1 g' a' w
              ttt_arena1_searched eq_refl Hrun)
    as (s' & Hf & Hw & _).
  exists s'. split; [exact Hf | exact Hw].
Defined.

Lemma no_unplayed_move_means_all_children_witness :
  load ttt_endgame_arena (1, 0) = Some ttt_endgame_root ∧
  n_unplayed_moves ttt_endgame_root = 0 ∧
  is_valid (state ttt_endgame_root) 6 = true ∧
  ∃ q c, child ttt_endgame_root 6 = Some q ∧ load ttt_endgame_arena q = Some c ∧
         child_winner ttt_endgame_arena ttt_endgame_root 6 = Ok (winner (state c)).
Proof.
  split; [reflexivity|]. split; [reflexivity|]. split; [reflexivity|].
  destruct (no_unplayed_move_means_all_children (R:=Z) (F:=Z) ttt_endgame
              ttt_endgame_arena (1, 0) ttt_endgame_root
              ttt_endgame_searched eq_refl eq_refl 6)
    as (q & c & Hc & Hl & _ & Hw); [simpl; lia | reflexivity |].
  exists q, c. split; [exact Hc|]. split; [exact Hl | exact Hw].
Defined.

Lemma ttt_n_valid_moves_counts_valid_witness :
  ttt_ok ttt_mid ∧ n_valid_moves ttt_mid = 7 ∧
  count_upto (is_valid ttt_mid) n_moves = 7.
Proof.
  split; [apply ttt_ok_mid|]. split; [reflexivity|].
  rewrite <- (ttt_n_valid_moves_counts_valid ttt_mid ttt_ok_mid). reflexivity.
Defined.

Lemma ttt_move_takes_one_cell_witness :
  ttt_ok ttt_mid ∧ is_valid ttt_mid 0 = true ∧
  ttt_ok (move ttt_mid 0) ∧ is_valid (move ttt_mid 0) 0 = false.
Proof.
  split; [apply ttt_ok_mid|]. split; [reflexivity|].
  destruct (ttt_move_takes_one_cell ttt_mid 0 ttt_ok_mid) as (H1 & H2 & _);
    [simpl; lia | reflexivity |].
  split; [exact H1 | exact H2].
Defined.

Lemma ttt_undecided_position_has_valid_move_witness :
  ttt_ok ttt_mid ∧ winner ttt_mid = NONE ∧ 0 < n_valid_moves ttt_mid.
Proof.
  split; [apply ttt_ok_mid|]. split; [reflexivity|].
  apply (ttt_undecided_position_has_valid_move ttt_mid ttt_ok_mid). reflexivity.
Defined.

Lemma ttt_games_end_witness :
  ttt_ok ttt_mid ∧ bounded_game (n_valid_moves ttt_mid) ttt_mid = true.
Proof.
  split; [apply ttt_ok_mid|].
  destruct (ttt_games_end ttt_mid ttt_ok_mid) as (_ & H & _). exact H.
Defined.

Lemma play_vs_random_returns_legal_game_witness :
  ∃ sh mh,
    play_vs_random (G:=TicTacToe) (F:=Z) 9 12345%Z 30 = Ok (sh, mh) ∧
    ∃ ss, sh = game_new :: ss ∧ length sh = S (length mh) ∧ legal_play game_new mh ss.
Proof.
  assert (∃ r, play_vs_random (G:=TicTacToe) (F:=Z) 9 12345%Z 30 = Ok r)
    as [[sh mh] Hrun] by (eexists; vm_compute; reflexivity).
  exists sh, mh. split; [exact Hrun|].
  apply (play_vs_random_returns_legal_game (R:=Z) (F:=Z) minstd_dist_contract
           9 12345%Z 30 sh mh Hrun).
Defined.

Lemma play_vs_random_needs_budget_witness :
  winner (game_new : TicTacToe) = NONE ∧ player_turn (game_new : TicTacToe) = 0 ∧
  5 < count_upto (is_valid (game_new : TicTacToe)) n_moves ∧
  play_vs_random (G:=TicTacToe) (F:=Z) 9 12345%Z 5 ≠ Ok ([game_new], []).
Proof.
  split; [reflexivity|]. split; [reflexivity|]. split; [vm_compute; lia|].
  apply (play_vs_random_needs_budget (R:=Z) (F:=Z) minstd_dist_contract 9 12345%Z 5);
    [reflexivity | reflexivity | vm_compute; lia].
Defined.

Lemma clone_makes_deep_copy_witness :
  ∃ a' node,
    clone 9 ttt_arena1 (1, 0) = Ok (a', node) ∧
    load a' (1, 0) = Some ttt_root1 ∧
    copy_upto ttt_arena1 10 ttt_arena1 (1, 0) a' node.
Proof.
  assert (∃ r, clone 9 ttt_arena1 (1, 0) = Ok r) as [[a' node] Hrun]
    by (eexists; vm_compute; reflexivity).
  exists a', node. split; [exact Hrun|].
  destruct (clone_makes_deep_copy 9 ttt_arena1 (1, 0) a' node
              ttt_arena1_wf ttt_arena1_closed Hrun) as [Hfr Hcopy].
  split; [apply Hfr; reflexivity | apply Hcopy].
Defined.

Lemma clone_returns_on_finite_tree_witness :
  height_le 9 ttt_arena1 (1, 0) = true ∧
  ∃ a' node, clone 9 ttt_arena1 (1, 0) = Ok (a', node) ∧ load ttt_arena1 node = None.
Proof.
  split; [vm_compute; reflexivity|].
  destruct (clone_returns_on_finite_tree 9 ttt_arena1 (1, 0))
    as (a' & node & Hrun & Hfresh & _);
    [apply ttt_arena1_wf | apply ttt_arena1_closed | vm_compute; reflexivity |].
  exists a', node. split; [exact Hrun | exact Hfresh].
Defined.

Lemma print_board_shows_position_witness :
  ttt_ok ttt_mid ∧
  ∃ out, print_board [] ttt_mid = Ok out ∧ length out = 12 ∧
         out !! 1 = Some "O"%char ∧ out !! 3 = Some "010"%char.
Proof.
  split; [apply ttt_ok_mid|].
  destruct (print_board_shows_position ttt_mid [] ttt_ok_mid) as (out & Hrun & Hlen & Hcells).
  exists out. split; [exact Hrun|]. split; [exact Hlen|].
  destruct (Hcells 0 1) as [H1 H2]; [lia | lia |].
  split; [exact H1 | exact H2].
Defined.

Lemma print_board_rejects_double_mark_witness :
  Z.testbit (xos0 (MkTTT 16 16 0)) 4 = true ∧ Z.testbit (xos1 (MkTTT 16 16 0)) 4 = true ∧
  print_board [] (MkTTT 16 16 0) = Abort.
Proof.
  split; [reflexivity|]. split; [reflexivity|].
  apply (print_board_rejects_double_mark (MkTTT 16 16 0) [] 4);
    [lia | reflexivity | reflexivity].
Defined.
End FurtherRuns.
